(** * Omni-Convert: the conversion dispatcher of [server/routes.ts]

    A shallow embedding of the format classifier, the conversion strategies,
    their fallback chains and the [POST /api/convert] handler, followed by the
    properties of the dispatch-and-fallback design that are checked on it.

    - JavaScript strings whose characters matter (document text) are lists of
      UTF-16 code units ([list N]); regular expressions without the [u] flag
      and [length], [substring], [lastIndexOf], [trim] all work on code units.
    - Paths, content types and error messages are [string]s.
    - The file system is the set of existing paths; every effect of the
      handler is also appended to a trace.
    - What the third-party engines (sharp, pdf2pic, pdftotext, pdf-lib, docx,
      mammoth, CloudConvert) answer is read from an environment record. *)

From Stdlib Require Import ZArith NArith Lia Ascii String.
From stdpp Require Import base gmap sets list strings pretty.
From Equations Require Import Equations.


(** ** JavaScript strings as code-unit lists *)

Module JS.

(** The code units of an ASCII literal. *)
Definition lit (s : string) : list N :=
  (fun a => N_of_ascii a) <$> list_ascii_of_string s.

Definition SPACE : N := 32.
Definition NEWLINE : N := 10.
Definition TAB : N := 9.
Definition CR : N := 13.

(** ECMAScript WhiteSpace and LineTerminator, the characters removed by
    [trim] and matched by [\s]. *)
Definition isWhiteSpace (c : N) : bool :=
  bool_decide (c ∈ [9; 10; 11; 12; 13; 32; 160; 0x1680; 0x2028; 0x2029;
                    0x202F; 0x205F; 0x3000; 0xFEFF]%N)
  || bool_decide (0x2000 ≤ c ≤ 0x200A)%N.

Fixpoint trimStart (s : list N) : list N :=
  match s with
  | c :: s' => if isWhiteSpace c then trimStart s' else s
  | [] => []
  end.

Definition trimEnd (s : list N) : list N := reverse (trimStart (reverse s)).

Definition trim (s : list N) : list N := trimEnd (trimStart s).

(** [s.split(sep)] for a one-character separator: never the empty array. *)
Fixpoint split (sep : N) (s : list N) : list (list N) :=
  match s with
  | [] => [[]]
  | c :: s' =>
      if N.eqb c sep then [] :: split sep s'
      else match split sep s' with
           | l :: ls => (c :: l) :: ls
           | [] => [[c]]
           end
  end.

Fixpoint lastIndex_aux (c : N) (s : list N) (i : nat) (found : option nat)
  : option nat :=
  match s with
  | [] => found
  | x :: s' => lastIndex_aux c s' (S i) (if N.eqb x c then Some i else found)
  end.

(** [s.lastIndexOf(c, pos)] for a one-character [c]: the greatest index
    [i <= pos] with [s[i] = c]; [None] stands for [-1]. *)
Definition lastIndexOf (c : N) (s : list N) (pos : nat) : option nat :=
  lastIndex_aux c (take (S pos) s) 0 None.

(** [s.substring(0, n)] and [s.substring(n)] for [0 <= n]. *)
Definition substring_to (n : nat) (s : list N) : list N := take n s.
Definition substring_from (n : nat) (s : list N) : list N := drop n s.

End JS.

(** ** Format classifier *)

Inductive SupportedFormat := PNG | JPG | WEBP | TIFF | PDF | TXT | WORD.

#[global] Instance SupportedFormat_eq_dec : EqDecision SupportedFormat.
Proof. solve_decision. Defined.

Definition SUPPORTED_FORMATS : list SupportedFormat :=
  [PNG; JPG; WEBP; TIFF; PDF; TXT; WORD].

Definition IMAGE_FORMATS : list SupportedFormat := [PNG; JPG; WEBP; TIFF].

Definition formatName (f : SupportedFormat) : string :=
  match f with
  | PNG => "PNG" | JPG => "JPG" | WEBP => "WEBP" | TIFF => "TIFF"
  | PDF => "PDF" | TXT => "TXT" | WORD => "WORD"
  end.

(** [conversionRequestSchema.safeParse({ targetFormat })]: [z.enum] accepts
    exactly the seven names; an absent field is rejected as well. *)
Definition safeParse (raw : option string) : option SupportedFormat :=
  match raw with
  | Some s => find (fun f => String.eqb (formatName f) s) SUPPORTED_FORMATS
  | None => None
  end.

Definition getExtensionFromFormat (format : SupportedFormat) : string :=
  match format with
  | PNG => "png" | JPG => "jpg" | WEBP => "webp" | TIFF => "tiff"
  | PDF => "pdf" | TXT => "txt" | WORD => "docx"
  end.

(** [arr.join(", ")] *)
Fixpoint join (sep : string) (l : list string) : string :=
  match l with
  | [] => ""
  | [x] => x
  | x :: rest => x +:+ sep +:+ join sep rest
  end.

Definition docxMime : string :=
  "application/vnd.openxmlformats-officedocument.wordprocessingml.document".

Definition mimeMap : gmap string string :=
  list_to_map
    [ ("image/png", "PNG"); ("image/jpeg", "JPG"); ("image/webp", "WEBP");
      ("image/tiff", "TIFF"); ("application/pdf", "PDF"); ("text/plain", "TXT");
      ("application/msword", "WORD"); (docxMime, "WORD") ].

(** [s.split("/").pop()]: what follows the last slash, the whole string when
    there is none. *)
Fixpoint lastSegment (s : string) : string :=
  match s with
  | EmptyString => EmptyString
  | String c rest =>
      if Ascii.eqb c "/" then lastSegment rest
      else if bool_decide (String.index 0 "/" rest = None) then s
      else lastSegment rest
  end.

Definition upperAscii (c : ascii) : ascii :=
  let n := nat_of_ascii c in
  if bool_decide (97 ≤ n ≤ 122) then ascii_of_nat (n - 32) else c.

(** [toUpperCase] on the ASCII repertoire of media-type names. *)
Fixpoint toUpperCase (s : string) : string :=
  match s with
  | EmptyString => EmptyString
  | String c rest => String (upperAscii c) (toUpperCase rest)
  end.

(** The lookup reads the own keys of the object literal; the content types
    multer reports have the form [type/subtype]. *)
Definition getFormatFromMime (mimeType : string) : string :=
  match mimeMap !! mimeType with
  | Some f => f
  | None =>
      let seg := toUpperCase (lastSegment mimeType) in
      if bool_decide (seg = "") then "UNKNOWN" else seg
  end.

Definition isWordMime (mimeType : string) : bool :=
  String.eqb mimeType "application/msword" || String.eqb mimeType docxMime.

Definition isImageMime (mimeType : string) : bool :=
  String.prefix "image/" mimeType.

Definition isPdfMime (mimeType : string) : bool :=
  String.eqb mimeType "application/pdf".

Definition isTextMime (mimeType : string) : bool :=
  String.eqb mimeType "text/plain".

Inductive SourceKind := Image | Pdf | PlainText | WordDocument | Unknown.

#[global] Instance SourceKind_eq_dec : EqDecision SourceKind.
Proof. solve_decision. Defined.

(** The source kind the handler works with: the order of the tests is the
    order of its final [if]/[else if] cascade. *)
Definition classifySource (mimeType : string) : SourceKind :=
  if isImageMime mimeType then Image
  else if isPdfMime mimeType then Pdf
  else if isWordMime mimeType then WordDocument
  else if isTextMime mimeType then PlainText
  else Unknown.

(** ** Text sanitizer of the Word-to-PDF strategy *)

(** [/[\u0000-\u001F\u007F-\u009F]/] *)
Definition isControl (c : N) : bool :=
  bool_decide (c ≤ 0x1F)%N || bool_decide (0x7F ≤ c ≤ 0x9F)%N.

(** The second pass: code units F000 to FFFF. *)
Definition isPrivateHigh (c : N) : bool := bool_decide (0xF000 ≤ c ≤ 0xFFFF)%N.

(** The complement of [/[^\x20-\x7E\n\t]/]. *)
Definition isKept (c : N) : bool :=
  bool_decide (0x20 ≤ c ≤ 0x7E)%N || N.eqb c JS.NEWLINE || N.eqb c JS.TAB.

Definition replacements : gmap N (list N) :=
  list_to_map
    [ (0x2022, JS.lit "-"); (0x2023, JS.lit "-"); (0x2043, JS.lit "-");
      (0x2018, JS.lit "'"); (0x2019, JS.lit "'");
      (0x201C, [34]); (0x201D, [34]);
      (0x2013, JS.lit "-"); (0x2014, JS.lit "--"); (0x2026, JS.lit "...");
      (0x00A0, JS.lit " "); (0x00B7, JS.lit "-") ]%N.

(** The replacer callback: [replacements[char] || ' '] (an empty replacement
    would be falsy). *)
Definition replaceChar (c : N) : list N :=
  match replacements !! c with
  | Some ((_ :: _) as r) => r
  | _ => JS.lit " "
  end.

Definition sanitizeTextForPdf (text : list N) : list N :=
  let pass1 := filter (fun c => isControl c = false) text in
  let pass2 := filter (fun c => isPrivateHigh c = false) pass1 in
  pass2 ≫= (fun c => if isKept c then [c] else replaceChar c).

(** ** Line wrapping and page layout of the Text-to-PDF strategy *)

Module TextPdf.

Definition pageWidth : Z := 612.
Definition pageHeight : Z := 792.
Definition margin : Z := 50.
Definition fontSize : Z := 12.
(** [fontSize * 1.5], exactly 18. *)
Definition lineHeight : Z := fontSize * 3 / 2.
Definition maxCharsPerLine : nat := 80.

(** [remaining.lastIndexOf(" ", maxCharsPerLine)], with [-1] replaced by
    [maxCharsPerLine]. *)
Definition breakPoint (remaining : list N) : nat :=
  default maxCharsPerLine (JS.lastIndexOf JS.SPACE remaining maxCharsPerLine).

Lemma trimStart_length s : length (JS.trimStart s) ≤ length s.
Proof.
  induction s as [|c s IH]; simpl; [lia|].
  destruct (JS.isWhiteSpace c); simpl; lia.
Qed.

Lemma trim_length s : length (JS.trim s) ≤ length s.
Proof.
  unfold JS.trim, JS.trimEnd. rewrite length_reverse.
  etrans; [apply trimStart_length|].
  rewrite length_reverse. apply trimStart_length.
Qed.

Lemma lastIndex_aux_Some c s i found r :
  JS.lastIndex_aux c s i found = Some r →
  (found = Some r ∧ ∀ j, s !! j ≠ Some c) ∨
  (i ≤ r ∧ s !! (r - i) = Some c ∧ ∀ j, r - i < j → s !! j ≠ Some c).
Proof.
  revert i found. induction s as [|x s IH]; simpl; intros i found H.
  { left. split; [done|]. by intros []. }
  apply IH in H as [[H Hno]|(H1 & H2 & H3)].
  - destruct (N.eqb_spec x c) as [->|Hne].
    + right. injection H as <-. split; [lia|]. rewrite Nat.sub_diag.
      split; [done|]. intros [|j] Hj; [lia|]. apply Hno.
    + left. split; [done|]. intros [|j]; simpl; [congruence|apply Hno].
  - right. split; [lia|]. replace (r - i) with (S (r - S i)) by lia.
    split; [done|]. intros [|j] Hj; [lia|]. apply H3. lia.
Qed.

Lemma lastIndex_aux_found c s i k : JS.lastIndex_aux c s i (Some k) ≠ None.
Proof.
  revert i k. induction s as [|x s IH]; simpl; intros i k; [done|].
  destruct (N.eqb x c); apply IH.
Qed.

Lemma lastIndex_aux_None c s i found :
  JS.lastIndex_aux c s i found = None → ∀ j, s !! j ≠ Some c.
Proof.
  revert i found. induction s as [|x s IH]; simpl; intros i found H.
  { by intros []. }
  intros [|j]; simpl; [|by eapply IH].
  destruct (N.eqb_spec x c) as [->|Hne]; [|congruence].
  by apply lastIndex_aux_found in H.
Qed.

Lemma lastIndexOf_Some c s pos r :
  JS.lastIndexOf c s pos = Some r →
  r ≤ pos ∧ s !! r = Some c ∧ ∀ j, r < j ≤ pos → s !! j ≠ Some c.
Proof.
  unfold JS.lastIndexOf. intros H.
  apply lastIndex_aux_Some in H as [[? _]|(_ & H2 & H3)]; [done|].
  rewrite Nat.sub_0_r in H2, H3.
  assert (r < S pos) as Hr.
  { apply lookup_lt_Some in H2. rewrite length_take in H2. lia. }
  rewrite lookup_take_lt in H2 by lia.
  split; [lia|]. split; [done|]. intros j Hj Hc.
  apply (H3 j); [lia|]. rewrite lookup_take_lt by lia. done.
Qed.

Lemma lastIndexOf_None c s pos :
  JS.lastIndexOf c s pos = None → ∀ j, j ≤ pos → s !! j ≠ Some c.
Proof.
  unfold JS.lastIndexOf. intros H j Hj Hc.
  apply (lastIndex_aux_None _ _ _ _ H j). rewrite lookup_take_lt by lia. done.
Qed.

Lemma wrap_measure remaining :
  maxCharsPerLine < length remaining →
  length (JS.trim (JS.substring_from (breakPoint remaining) remaining))
  < length remaining.
Proof.
  intros Hlen. unfold breakPoint, JS.substring_from, maxCharsPerLine in *.
  destruct (JS.lastIndexOf JS.SPACE remaining 80) as [r|] eqn:E; simpl.
  - apply lastIndexOf_Some in E as (Hr & Hc & _).
    destruct r as [|r].
    + destruct remaining as [|x rest]; [simpl in *; lia|].
      simpl in Hc. injection Hc as ->. rewrite drop_0.
      unfold JS.trim, JS.trimEnd. rewrite length_reverse. simpl.
      pose proof (trimStart_length (reverse (JS.trimStart rest))) as H1.
      pose proof (trimStart_length rest) as H2.
      rewrite length_reverse in H1. lia.
    + eapply Nat.le_lt_trans; [apply trim_length|]. rewrite length_drop. lia.
  - eapply Nat.le_lt_trans; [apply trim_length|]. rewrite length_drop. lia.
Qed.

(** The [while (remaining.length > maxCharsPerLine)] loop together with the
    final [if (remaining) wrappedLines.push(remaining)]: the lines pushed
    for a [remaining]. Each turn shortens [remaining]. *)
Equations? wrapLong (remaining : list N) : list (list N)
  by wf (length remaining) lt :=
wrapLong remaining with decide (maxCharsPerLine < length remaining) := {
  | left _ =>
      JS.substring_to (breakPoint remaining) remaining
      :: wrapLong (JS.trim (JS.substring_from (breakPoint remaining) remaining))
  | right _ => if decide (remaining = []) then [] else [remaining] }.
Proof. by apply wrap_measure. Qed.

(** The body of [for (const line of lines)]. *)
Definition wrapLine (line : list N) : list (list N) :=
  if decide (length line ≤ maxCharsPerLine) then [line] else wrapLong line.

Definition wrappedLines (text : list N) : list (list N) :=
  JS.split JS.NEWLINE text ≫= wrapLine.

(** [Math.floor((pageHeight - 2 * margin) / lineHeight)] *)
Definition linesPerPage : nat :=
  Z.to_nat ((pageHeight - 2 * margin) / lineHeight).

(** One [drawText] call: the page it goes to (pages counted from 0) and
    its options. *)
Record drawn := Drawn { dPage : nat; dX : Z; dY : Z; dSize : Z; dText : list N }.

(** The drawing loop; [page], [y] and [lineCount] are its variables. *)
Fixpoint drawLines (lines : list (list N)) (page : nat) (y : Z) (lineCount : nat)
  : list drawn :=
  match lines with
  | [] => []
  | line :: rest =>
      let '(page, y, lineCount) :=
        if decide (linesPerPage ≤ lineCount)
        then (S page, (pageHeight - margin)%Z, 0)
        else (page, y, lineCount) in
      Drawn page margin (y - lineHeight)%Z fontSize line
      :: drawLines rest page (y - lineHeight)%Z (S lineCount)
  end.

Definition layout (text : list N) : list drawn :=
  drawLines (wrappedLines text) 0 (pageHeight - margin)%Z 0.

End TextPdf.

(** ** Effects: file system, trace and exceptions *)

Inductive result (A : Type) : Type :=
| Ok (a : A)
| Throw (msg : string).
Arguments Ok {A} a.
Arguments Throw {A} msg.

(** The strategies a chain can attempt. *)
Inductive strategy :=
| Remote
| LocalRasterize
| LocalImageToPdf
| PdfToWordSnapshot
| PdfToWordBasic
| WordToPdfBasic.

#[global] Instance strategy_eq_dec : EqDecision strategy.
Proof. solve_decision. Defined.

Inductive event :=
| EvUnlink (p : string)
| EvWrite (p : string)
| EvRename (src dst : string)
| EvCopy (src dst : string)
| EvTool (p : string)
| EvConsoleError (msg : string)
| EvAttempt (s : strategy) (failure : option string).

#[global] Instance event_eq_dec : EqDecision event.
Proof. solve_decision. Defined.

Record world := World { files : gset string; trace : list event }.

Definition M (A : Type) : Type := world → result A * world.

Definition ret {A} (a : A) : M A := fun w => (Ok a, w).

Definition throw {A} (msg : string) : M A := fun w => (Throw msg, w).

Definition bind {A B} (m : M A) (f : A → M B) : M B :=
  fun w =>
    match m w with
    | (Ok a, w') => f a w'
    | (Throw e, w') => (Throw e, w')
    end.

Notation "'let!' x ':=' m 'in' k" := (bind m (fun x => k))
  (at level 10, x name, m at level 100, k at level 200, only parsing).
Notation "'run!' m 'in' k" := (bind m (fun _ => k))
  (at level 10, m at level 100, k at level 200, only parsing).

(** [try { m } catch (error) { h error.message }] *)
Definition try_catch {A} (m : M A) (h : string → M A) : M A :=
  fun w =>
    match m w with
    | (Ok a, w') => (Ok a, w')
    | (Throw e, w') => h e w'
    end.

(** [try { m } finally { fin }]: a [fin] that throws replaces the completion
    of [m]. *)
Definition try_finally {A} (m : M A) (fin : M unit) : M A :=
  fun w =>
    match m w with
    | (r, w') =>
        match fin w' with
        | (Ok _, w'') => (r, w'')
        | (Throw e, w'') => (Throw e, w'')
        end
    end.

Definition emit (e : event) : M unit :=
  fun w => (Ok (), World (files w) (trace w ++ [e])).

Definition consoleError (msg : string) : M unit := emit (EvConsoleError msg).

Definition errorOf {A} (r : result A) : option string :=
  match r with Ok _ => None | Throw e => Some e end.

(** Bookkeeping for the properties: notes in the trace that strategy [s] ran
    and how it ended. It changes neither the result nor the files. *)
Definition attempt {A} (s : strategy) (m : M A) : M A :=
  fun w =>
    match m w with
    | (r, w') => (r, World (files w') (trace w' ++ [EvAttempt s (errorOf r)]))
    end.

(** An external step that either goes through or raises. *)
Definition external (o : option string) : M unit :=
  match o with None => ret () | Some msg => throw msg end.

(** An external tool that writes [p] when it goes through, and nothing when
    it raises. *)
Definition toolWrite (o : option string) (p : string) : M unit :=
  match o with
  | None => fun w => (Ok (), World (files w ∪ {[p]}) (trace w ++ [EvTool p]))
  | Some msg => throw msg
  end.

Definition enoent (call p : string) : string :=
  "ENOENT: no such file or directory, " +:+ call +:+ " '" +:+ p +:+ "'".

Definition existsSync (p : string) : M bool :=
  fun w => (Ok (bool_decide (p ∈ files w)), w).

Definition unlinkSync (p : string) : M unit :=
  fun w =>
    if decide (p ∈ files w)
    then (Ok (), World (files w ∖ {[p]}) (trace w ++ [EvUnlink p]))
    else (Throw (enoent "unlink" p), w).

Definition renameSync (src dst : string) : M unit :=
  fun w =>
    if decide (src ∈ files w)
    then (Ok (), World (files w ∖ {[src]} ∪ {[dst]}) (trace w ++ [EvRename src dst]))
    else (Throw (enoent "rename" src), w).

(** [fs.readFileSync] / [fs.promises.readFile]: the file has to exist. *)
Definition readFile (p : string) : M unit :=
  fun w =>
    if decide (p ∈ files w) then (Ok (), w) else (Throw (enoent "open" p), w).

(** [if (fs.existsSync(p)) fs.unlinkSync(p)] *)
Definition unlinkIfExists (p : string) : M unit :=
  let! present := existsSync p in
  if (present : bool) then unlinkSync p else ret ().

(** What a [pdf2pic] page conversion answers. *)
Inductive render :=
| Rendered (p : string)        (* the page image was written to [p] = [result.path] *)
| NoOutput                     (* a result without [path]; nothing was written *)
| RenderFailed (msg : string). (* the conversion raised *)

(** What a child process answers. *)
Inductive exec_result :=
| ExecOk
| ExecFailed (message : string) (stderr : option string).

(** ** The environment of one request *)

Record Env := {
  (** whether [CLOUDCONVERT_API_KEY] is set, i.e. [cloudConvert] is not null *)
  cloudConvert : bool;
  cwd : string;
  (** [Date.now()] when the output path is built *)
  now : N;
  (** [path.parse(name).name] and [path.extname(p)] *)
  pathParseName : string → string;
  pathExtname : string → string;
  (** the CloudConvert job up to the downloaded bytes, for an input path and
      the two format tags: the message of the error raised, if any *)
  cloudJob : string → string → string → option string;
  (** [sharp(input).<format>().toFile(output)] *)
  sharpToFile : string → SupportedFormat → option string;
  (** [sharp(buffer).metadata()] on a page image *)
  sharpMetadata : string → option string;
  (** [fromPath(input, options)(page)] with the options of convertPdfToImage
      and of convertPdfToWordSnapshot *)
  pdf2picPage : string → nat → render;
  pdf2picSnapshot : string → nat → render;
  (** [pdftotext in out] and [pdftotext -layout -nopgbrk in out] *)
  pdftotext : string → exec_result;
  pdftotextLayout : string → exec_result;
  (** the text read back from a file *)
  fileText : string → list N;
  (** [Packer.toBuffer] on the text document and on the snapshot document *)
  packerText : list (list N) → option string;
  packerSnapshot : list string → option string;
  (** [PDFDocument.load(bytes).getPageCount()] *)
  pdfPageCount : string → result nat;
  (** [mammoth.extractRawText({ path })] *)
  mammothText : string → result (list N);
  (** [font.widthOfTextAtSize(candidate, 12) <= 512] for Courier *)
  textFits : list N → bool;
  (** building and saving the document with pdf-lib *)
  pdfLibWord : list (list N) → option string;
  pdfLibText : list TextPdf.drawn → option string;
  pdfLibImage : string → option string;
  (** [fs.writeFileSync] and [fs.copyFileSync] failing for a reason of the
      operating system *)
  writeError : string → option string;
  copyError : string → string → option string;
  (** the message of the TypeError that reading a property of [undefined]
      raises *)
  typeErrorMessage : string
}.

Definition uploadsDir (env : Env) : string := cwd env +:+ "/uploads".
Definition convertedDir (env : Env) : string := cwd env +:+ "/converted".

(** [path.join(dir, name)] for a normal directory and a plain file name;
    [Path.join] below is the function on all arguments. *)
Definition pathJoin (dir name : string) : string := dir +:+ "/" +:+ name.

(** ** String helpers of the strategies *)

Definition lowerAscii (c : ascii) : ascii :=
  let n := nat_of_ascii c in
  if bool_decide (65 ≤ n ≤ 90) then ascii_of_nat (n + 32) else c.

Fixpoint toLowerCase (s : string) : string :=
  match s with
  | EmptyString => EmptyString
  | String c rest => String (lowerAscii c) (toLowerCase rest)
  end.

(** [s.includes(needle)] *)
Fixpoint includes (needle s : string) : bool :=
  String.prefix needle s ||
  match s with
  | EmptyString => false
  | String _ rest => includes needle rest
  end.

(** [s.endsWith(suffix)] *)
Definition endsWith (suffix s : string) : bool :=
  String.prefix (String.rev suffix) (String.rev s).

(** [s.replace(".", "")]: the first dot only. *)
Fixpoint removeFirstDot (s : string) : string :=
  match s with
  | EmptyString => EmptyString
  | String c rest => if Ascii.eqb c "." then rest else String c (removeFirstDot rest)
  end.

(** ** Measured word wrapping of the Word-to-PDF strategy *)

Module WordPdf.

(** [line.split(/(\s+)/)]: the words and, between them, the whitespace
    runs that separate them. [cur] is the token being read, reversed. *)
Fixpoint splitWs (s : list N) (cur : list N) (inWs : bool) : list (list N) :=
  match s with
  | [] => if inWs then [reverse cur; []] else [reverse cur]
  | c :: s' =>
      if bool_decide (JS.isWhiteSpace c = inWs) then splitWs s' (c :: cur) inWs
      else reverse cur :: splitWs s' [c] (negb inWs)
  end.

Definition words (line : list N) : list (list N) := splitWs line [] false.

(** The inner [for (const word of words)] loop: the lines pushed and the
    final [current]. *)
Fixpoint wrapWords (fits : list N → bool) (ws : list (list N)) (current : list N)
  : list (list N) * list N :=
  match ws with
  | [] => ([], current)
  | word :: rest =>
      let candidate := current ++ word in
      if fits candidate || bool_decide (length current = 0)
      then wrapWords fits rest candidate
      else
        let '(pushed, final) := wrapWords fits rest (JS.trimStart word) in
        (JS.trimEnd current :: pushed, final)
  end.

Definition wrapLine (fits : list N → bool) (line : list N) : list (list N) :=
  let '(pushed, final) := wrapWords fits (words line) [] in
  pushed ++ [JS.trimEnd final].

Definition wrappedLines (fits : list N → bool) (text : list N) : list (list N) :=
  JS.split JS.NEWLINE text ≫= wrapLine fits.

End WordPdf.

Example words_demo :
  WordPdf.words (JS.lit "a  b") = [JS.lit "a"; JS.lit "  "; JS.lit "b"]
  ∧ WordPdf.words (JS.lit " a") = [[]; JS.lit " "; JS.lit "a"]
  ∧ WordPdf.words (JS.lit "a ") = [JS.lit "a"; JS.lit " "; []]
  ∧ WordPdf.words [] = [[]]
  ∧ JS.split JS.NEWLINE (JS.lit "ab") = [JS.lit "ab"]
  ∧ endsWith ".doc" "uploads/1-x.doc" = true ∧ endsWith ".doc" "x.docx" = false
  ∧ includes "Syntax Error" "pdftotext: Syntax Error (12): bad" = true.
Proof. vm_compute. repeat split. Qed.

(** ** Conversion strategies *)

Section Strategies.

Context (env : Env).

(** [fs.writeFileSync(p, data)]: a write that raises leaves no file. *)
Definition writeFileSync (p : string) : M unit :=
  match writeError env p with
  | None => fun w => (Ok (), World (files w ∪ {[p]}) (trace w ++ [EvWrite p]))
  | Some msg => throw msg
  end.

Definition copyFileSync (src dst : string) : M unit :=
  fun w =>
    if decide (src ∈ files w) then
      match copyError env src dst with
      | None => (Ok (), World (files w ∪ {[dst]}) (trace w ++ [EvCopy src dst]))
      | Some msg => (Throw msg, w)
      end
    else (Throw (enoent "copyfile" src), w).

(** One [await convert(page)] of pdf2pic. *)
Definition convertPage (r : render) : M (option string) :=
  match r with
  | Rendered p =>
      fun w => (Ok (Some p), World (files w ∪ {[p]}) (trace w ++ [EvTool p]))
  | NoOutput => ret None
  | RenderFailed msg => throw msg
  end.

Definition execAsync (r : exec_result) (out : string) : M unit :=
  match r with
  | ExecOk => toolWrite None out
  | ExecFailed message _ => throw message
  end.

(** [try { await m; return; } catch (error) { console.error(label, error.message); }]:
    whether the enclosing function has returned. *)
Definition returnedOrLogged (m : M unit) (label : string) : M bool :=
  try_catch (run! m in ret true)
            (fun msg => run! consoleError (label +:+ " " +:+ msg) in ret false).

Definition convertImage (inputPath outputPath : string) (targetFormat : SupportedFormat)
  : M unit :=
  match targetFormat with
  | PNG | JPG | WEBP | TIFF =>
      toolWrite (sharpToFile env inputPath targetFormat) outputPath
  | _ => throw ("Unsupported image format: " +:+ formatName targetFormat)
  end.

Definition convertWithCloudConvert
  (inputPath outputPath inputFormat outputFormat : string) : M unit :=
  if negb (cloudConvert env) then throw "CloudConvert API key not configured"
  else
    try_catch
      (run! external (cloudJob env inputPath inputFormat outputFormat) in
       writeFileSync outputPath)
      (fun msg =>
         run! consoleError ("CloudConvert error: " +:+ msg) in
         throw ("CloudConvert conversion failed: " +:+ msg)).

Definition convertPdfToImage (inputPath outputPath : string)
  (targetFormat : SupportedFormat) : M unit :=
  let! returned :=
    if cloudConvert env then
      returnedOrLogged
        (attempt Remote
           (convertWithCloudConvert inputPath outputPath "pdf"
              (toLowerCase (formatName targetFormat))))
        "CloudConvert PDF to Image failed, falling back to local:"
    else ret false in
  if (returned : bool) then ret ()
  else
    attempt LocalRasterize
      (let! result := convertPage (pdf2picPage env inputPath 1) in
       match result with
       | Some resultPath =>
           if bool_decide (targetFormat = PNG) || bool_decide (targetFormat = JPG)
           then renameSync resultPath outputPath
           else
             run! convertImage resultPath outputPath targetFormat in
             unlinkSync resultPath
       | None => throw "Failed to convert PDF to image"
       end).

Definition convertPdfToText (inputPath outputPath : string) : M unit :=
  match pdftotext env inputPath with
  | ExecOk => toolWrite None outputPath
  | ExecFailed _ stderr =>
      if match stderr with
         | Some err => negb (String.eqb err "") && includes "Syntax Error" err
         | None => false
         end
      then throw "The PDF file appears to be corrupted or invalid. Please try a different PDF file."
      else throw "Failed to extract text from PDF. Please ensure the PDF contains readable text."
  end.

Definition convertPdfToWordBasic (inputPath outputPath : string) : M unit :=
  let tempTxtPath := inputPath +:+ ".txt" in
  try_catch
    (run! execAsync (pdftotextLayout env inputPath) tempTxtPath in
     run! readFile tempTxtPath in
     let lines := JS.split JS.NEWLINE (fileText env tempTxtPath) in
     run! external (packerText env lines) in
     run! writeFileSync outputPath in
     unlinkIfExists tempTxtPath)
    (fun msg =>
       run! unlinkIfExists tempTxtPath in
       run! consoleError ("PDF to WORD basic conversion error: " +:+ msg) in
       throw "Failed to convert PDF to WORD. The PDF may not contain extractable text.").

Definition getPdfPageCount (inputPath : string) : M nat :=
  match pdfPageCount env inputPath with
  | Ok n => ret n
  | Throw msg => throw msg
  end.

(** The page loop of the snapshot strategy, for the pages [page], ...,
    [page + todo - 1]. The array [imagePaths] outlives an exception raised
    inside the loop, so the loop hands back the array together with the
    pending exception, if any. *)
Fixpoint renderPages (inputPath : string) (page todo : nat) (imagePaths : list string)
  : M (list string * option string) :=
  match todo with
  | 0 => ret (imagePaths, None)
  | S todo' =>
      fun w =>
        match convertPage (pdf2picSnapshot env inputPath page) w with
        | (Ok (Some resultPath), w') =>
            renderPages inputPath (S page) todo' (imagePaths ++ [resultPath]) w'
        | (Ok None, w') =>
            (Ok (imagePaths, Some ("Failed to render page " +:+ pretty page)), w')
        | (Throw msg, w') => (Ok (imagePaths, Some msg), w')
        end
  end.

(** [for (const imgPath of imagePaths)]: read the image and its metadata. *)
Fixpoint readImages (imagePaths : list string) : M unit :=
  match imagePaths with
  | [] => ret ()
  | imgPath :: rest =>
      run! readFile imgPath in
      run! external (sharpMetadata env imgPath) in
      readImages rest
  end.

(** The [finally] block. *)
Fixpoint cleanupImages (imagePaths : list string) : M unit :=
  match imagePaths with
  | [] => ret ()
  | imgPath :: rest => run! unlinkIfExists imgPath in cleanupImages rest
  end.

Definition convertPdfToWordSnapshot (inputPath outputPath : string) : M unit :=
  let! pageCount := getPdfPageCount inputPath in
  if bool_decide (pageCount = 0) then throw "PDF appears to be empty"
  else
    let! loop := renderPages inputPath 1 pageCount [] in
    let '(imagePaths, pending) := loop in
    try_finally
      (match pending with
       | Some msg => throw msg
       | None =>
           run! readImages imagePaths in
           run! external (packerSnapshot env imagePaths) in
           writeFileSync outputPath
       end)
      (cleanupImages imagePaths).

Definition convertPdfToWord (inputPath outputPath : string) : M unit :=
  let! returned :=
    if cloudConvert env then
      returnedOrLogged
        (attempt Remote (convertWithCloudConvert inputPath outputPath "pdf" "docx"))
        "CloudConvert failed, falling back to basic conversion:"
    else ret false in
  if (returned : bool) then ret ()
  else
    let! returned :=
      returnedOrLogged
        (attempt PdfToWordSnapshot (convertPdfToWordSnapshot inputPath outputPath))
        "PDF snapshot-to-WORD fallback failed:" in
    if (returned : bool) then ret ()
    else attempt PdfToWordBasic (convertPdfToWordBasic inputPath outputPath).

Definition convertWordToPdfBasic (inputPath outputPath : string) : M unit :=
  try_catch
    (let! text :=
       match mammothText env inputPath with
       | Ok t => ret t
       | Throw msg => throw msg
       end in
     if bool_decide (text = []) || bool_decide (length (JS.trim text) = 0)
     then throw "No text content found in the document"
     else
       let text := sanitizeTextForPdf text in
       let wrappedLines := WordPdf.wrappedLines (textFits env) text in
       run! external (pdfLibWord env wrappedLines) in
       writeFileSync outputPath)
    (fun msg =>
       run! consoleError ("WORD to PDF basic conversion error: " +:+ msg) in
       throw "Failed to convert WORD to PDF. The document may be corrupted.").

Definition convertWordToPdf (inputPath outputPath mimeType : string) : M unit :=
  let isOldDoc :=
    String.eqb mimeType "application/msword"
    || endsWith ".doc" (toLowerCase inputPath) in
  let inputFormat := if isOldDoc then "doc" else "docx" in
  let! returned :=
    if cloudConvert env then
      returnedOrLogged
        (attempt Remote (convertWithCloudConvert inputPath outputPath inputFormat "pdf"))
        "CloudConvert failed, falling back to basic conversion:"
    else ret false in
  if (returned : bool) then ret ()
  else if isOldDoc then
    throw "Cannot convert .doc files without CloudConvert. Please use .docx format or ensure CloudConvert API key is configured."
  else attempt WordToPdfBasic (convertWordToPdfBasic inputPath outputPath).

Definition convertImageToPdf (inputPath outputPath : string) : M unit :=
  let! returned :=
    if cloudConvert env then
      returnedOrLogged
        (attempt Remote
           (let ext := removeFirstDot (toLowerCase (pathExtname env inputPath)) in
            convertWithCloudConvert inputPath outputPath ext "pdf"))
        "CloudConvert Image to PDF failed, falling back to local:"
    else ret false in
  if (returned : bool) then ret ()
  else
    attempt LocalImageToPdf
      (run! readFile inputPath in
       run! external (pdfLibImage env inputPath) in
       writeFileSync outputPath).

Definition convertTextToPdf (inputPath outputPath : string) : M unit :=
  run! readFile inputPath in
  let text := fileText env inputPath in
  run! external (pdfLibText env (TextPdf.layout text)) in
  writeFileSync outputPath.

End Strategies.

(** ** The [POST /api/convert] handler *)

Record UploadedFile := Upload {
  path : string;          (* where multer stored the upload *)
  mimetype : string;
  originalname : string
}.

(** What the handler sees of a request. multer passes a request that is not
    multipart on as it came, and no other body parser is installed: then
    [req.body] and [req.file] are both undefined. Of a multipart request it
    sets [req.body], and [req.file] when the form holds the file. *)
Inductive Request :=
| NotMultipart
| Req (file : option UploadedFile) (targetFormat : option string).

Definition req_file (req : Request) : option UploadedFile :=
  match req with
  | NotMultipart => None
  | Req file _ => file
  end.

Definition req_targetFormat (req : Request) : option string :=
  match req with
  | NotMultipart => None
  | Req _ targetFormat => targetFormat
  end.

Record ConversionResponse := Response {
  success : bool;
  filename : option string;
  downloadUrl : option string;
  error : option string;
  originalFormat : option string;
  targetFormat : option string
}.

Definition succeeded (outputFilename basename originalFormat : string)
  (target : SupportedFormat) : ConversionResponse :=
  {| success := true;
     filename := Some outputFilename;
     downloadUrl := Some ("/api/download/" +:+ basename);
     error := None;
     originalFormat := Some originalFormat;
     targetFormat := Some (formatName target) |}.

Definition failed (message : string) (originalFormat targetFormat : option string)
  : ConversionResponse :=
  {| success := false;
     filename := None;
     downloadUrl := None;
     error := Some message;
     originalFormat := originalFormat;
     targetFormat := targetFormat |}.

Definition noFileMessage : string :=
  "No file uploaded. Please select a file to convert.".

Definition invalidTargetMessage : string :=
  "Invalid target format. Supported formats: "
  +:+ join ", " (formatName <$> SUPPORTED_FORMATS).

Definition defaultErrorMessage : string :=
  "An error occurred during conversion. Please try again with a different file or format.".

(** The remediation hint appended to [Cannot convert X to Y. ]. *)
Definition supportedHint (mime : string) : string :=
  if isImageMime mime then
    "Images can be converted to: " +:+ join ", " (formatName <$> IMAGE_FORMATS) +:+ ", PDF."
  else if isPdfMime mime then
    "PDFs can be converted to: " +:+ join ", " (formatName <$> IMAGE_FORMATS) +:+ ", TXT, WORD."
  else if isWordMime mime then "WORD documents can be converted to: PDF."
  else if isTextMime mime then "Text files can be converted to: PDF, TXT."
  else "This file format is not supported for conversion.".

Definition unsupportedMessage (mime : string) (target : SupportedFormat) : string :=
  "Cannot convert " +:+ getFormatFromMime mime +:+ " to " +:+ formatName target
  +:+ ". " +:+ supportedHint mime.

Section Handler.

Context (env : Env).

Definition outputFilenameOf (file : UploadedFile) (target : SupportedFormat) : string :=
  pathParseName env (originalname file) +:+ "-converted."
  +:+ getExtensionFromFormat target.

(** [`${Date.now()}-${outputFilename}`], also [path.basename(outputPath)]. *)
Definition outputBasename (file : UploadedFile) (target : SupportedFormat) : string :=
  pretty (now env) +:+ "-" +:+ outputFilenameOf file target.

Definition outputPathOf (file : UploadedFile) (target : SupportedFormat) : string :=
  pathJoin (convertedDir env) (outputBasename file target).

(** The conversion selected for a source and a target, [None] when the
    handler falls through to the not-supported answer. The tests come in
    the order of the handler's [if] statements. *)
Definition selectConversion (file : UploadedFile) (target : SupportedFormat)
  : option (M unit) :=
  let mime := mimetype file in
  let outputPath := outputPathOf file target in
  let isImageTarget := bool_decide (target ∈ IMAGE_FORMATS) in
  if isImageMime mime && isImageTarget
  then Some (convertImage env (path file) outputPath target)
  else if isImageMime mime && bool_decide (target = PDF)
  then Some (convertImageToPdf env (path file) outputPath)
  else if isPdfMime mime && isImageTarget
  then Some (convertPdfToImage env (path file) outputPath target)
  else if isPdfMime mime && bool_decide (target = TXT)
  then Some (convertPdfToText env (path file) outputPath)
  else if isPdfMime mime && bool_decide (target = WORD)
  then Some (convertPdfToWord env (path file) outputPath)
  else if isWordMime mime && bool_decide (target = PDF)
  then Some (convertWordToPdf env (path file) outputPath mime)
  else if isWordMime mime && bool_decide (target = WORD)
  then Some (copyFileSync env (path file) outputPath)
  else if isTextMime mime && bool_decide (target = PDF)
  then Some (convertTextToPdf env (path file) outputPath)
  else if isTextMime mime && bool_decide (target = TXT)
  then Some (copyFileSync env (path file) outputPath)
  else None.

(** The body of the [try] block; the answer is the HTTP status with the
    JSON body. [req.body.targetFormat] is read before anything is tested, so
    a request without a body raises there. *)
Definition convertBody (req : Request) : M (nat * ConversionResponse) :=
  match req with
  | NotMultipart => throw (typeErrorMessage env)
  | Req None _ => ret (400, failed noFileMessage None None)
  | Req (Some file) targetFormat =>
      match safeParse targetFormat with
      | None =>
          run! unlinkSync (path file) in
          ret (400, failed invalidTargetMessage None None)
      | Some target =>
          let originalFormat := getFormatFromMime (mimetype file) in
          match selectConversion file target with
          | Some conversion =>
              run! conversion in
              run! unlinkSync (path file) in
              ret (200, succeeded (outputFilenameOf file target)
                          (outputBasename file target) originalFormat target)
          | None =>
              run! unlinkSync (path file) in
              ret (400, failed (unsupportedMessage (mimetype file) target)
                          (Some originalFormat) (Some (formatName target)))
          end
      end
  end.

(** The [catch] block. *)
Definition convertCatch (req : Request) (message : string)
  : M (nat * ConversionResponse) :=
  run! consoleError ("Conversion error: " +:+ message) in
  run! match req_file req with
       | Some file => unlinkIfExists (path file)
       | None => ret ()
       end in
  let errorMessage :=
    if bool_decide (message = "") then defaultErrorMessage else message in
  ret (500, failed errorMessage None None).

Definition convertRoute (req : Request) : M (nat * ConversionResponse) :=
  try_catch (convertBody req) (convertCatch req).

End Handler.

(** * Vocabulary of the properties *)

(** ** Characters and wrapping *)

(** Printable ASCII, the range [\x20-\x7E]. *)
Definition printable (c : N) : Prop := (0x20 ≤ c ≤ 0x7E)%N.

(** [bp] is where [lastIndexOf(" ", 80)] breaks [remaining]: at the last
    space among the indices 0..80, or at 80 when there is none. *)
Definition breaksAt (remaining : list N) (bp : nat) : Prop :=
  (bp ≤ 80 ∧ remaining !! bp = Some JS.SPACE
   ∧ ∀ j, bp < j ≤ 80 → remaining !! j ≠ Some JS.SPACE)
  ∨ (bp = 80 ∧ ∀ j, j ≤ 80 → remaining !! j ≠ Some JS.SPACE).

(** ** Worlds before and after a computation *)

Definition isUnlink (e : event) : Prop := ∃ p, e = EvUnlink p.

(** [m] takes every world to one related to it by [R]. *)
Definition preserves {A} (R : world → world → Prop) (m : M A) : Prop :=
  ∀ w, R w (m w).2.

(** What [m] returns, when it returns, satisfies [P]. *)
Definition returns {A} (m : M A) (P : A → Prop) : Prop :=
  ∀ w a, (m w).1 = Ok a → P a.

(** How often [q] was unlinked. *)
Definition unlinks (q : string) (t : list event) : nat :=
  length (filter (fun e => e = EvUnlink q) t).

(** [q] stays where it is and is not unlinked. *)
Definition intact (q : string) (w w' : world) : Prop :=
  (q ∈ files w → q ∈ files w') ∧ unlinks q (trace w') = unlinks q (trace w).

(** A computation that ends well has left [out] in place. *)
Definition produces {A} (out : string) (m : M A) : Prop :=
  ∀ w a, (m w).1 = Ok a → out ∈ files (m w).2.

(** [m] raises nothing but [msg]. *)
Definition raisesOnly {A} (msg : string) (m : M A) : Prop :=
  ∀ w e, (m w).1 = Throw e → e = msg.

(** pdf2pic never writes a page image to [q] when it converts [inputPath]. *)
Definition toolsAvoid (env : Env) (inputPath q : string) : Prop :=
  (∀ n, pdf2picPage env inputPath n ≠ Rendered q)
  ∧ (∀ n, pdf2picSnapshot env inputPath n ≠ Rendered q).

(** The upload is where multer's disk storage puts it: in [uploadsDir]. *)
Definition storedUpload (env : Env) (file : UploadedFile) : Prop :=
  ∃ name, path file = pathJoin (uploadsDir env) name.

(** ** Attempts and chains *)

Definition attemptOf (e : event) : option (strategy * option string) :=
  match e with EvAttempt s failure => Some (s, failure) | _ => None end.

(** The strategies attempted so far, each with its failure message, if any. *)
Definition attempts (t : list event) : list (strategy * option string) :=
  omap attemptOf t.

Definition quiet (w w' : world) : Prop := attempts (trace w') = attempts (trace w).

Definition failedAttempt (a : strategy * option string) : Prop := a.2 ≠ None.

(** How a chain of strategies may have run: in order, up to the first
    success, and to the end when none succeeds. *)
Inductive chainRun : list strategy → list (strategy * option string) → Prop :=
| run_success s chain : chainRun (s :: chain) [(s, None)]
| run_exhausted s msg : chainRun [s] [(s, Some msg)]
| run_fallback s msg chain rest :
    chain ≠ [] → chainRun chain rest → chainRun (s :: chain) ((s, Some msg) :: rest).

(** The row [Pdf | WORD] of the decision table. *)
Definition pdfToWordChain (env : Env) : list strategy :=
  (if cloudConvert env then [Remote] else []) ++ [PdfToWordSnapshot; PdfToWordBasic].

(** A run of [chain] from [w] that ended with [r] in [w']: the attempts
    added follow the chain, the last of them decides the result, and a
    failure is only the result of the whole chain failing. *)
Definition chainOutcome (chain : list strategy) (w : world) (r : result unit) (w' : world)
  : Prop :=
  ∃ new, attempts (trace w') = attempts (trace w) ++ new
    ∧ chainRun chain new
    ∧ snd <$> last new = Some (errorOf r)
    ∧ (errorOf r ≠ None → new.*1 = chain).

Definition pdfToWordBasicMessage : string :=
  "Failed to convert PDF to WORD. The PDF may not contain extractable text.".

Definition wordToPdfBasicMessage : string :=
  "Failed to convert WORD to PDF. The document may be corrupted.".

(** When more than one strategy was attempted and all failed, the chain
    raises the message of the last one, which is [msg]. *)
Definition lastSurfaced (msg : string) (w : world) (r : result unit) (w' : world) : Prop :=
  ∃ new, attempts (trace w') = attempts (trace w) ++ new
    ∧ (1 < length new → Forall failedAttempt new →
       ∃ s, last new = Some (s, Some msg) ∧ r = Throw msg).

(** The targets for which the handler selects a conversion. *)
Definition supportedTargets (env : Env) (file : UploadedFile) : list SupportedFormat :=
  filter (fun t => is_Some (selectConversion env file t)) SUPPORTED_FORMATS.

(** ** Sample environments and requests *)

(** No CloudConvert credential; every engine answers; the extracted Word
    text is blank. *)
Definition quietEnv : Env := {|
  cloudConvert := false;
  cwd := "/srv/app";
  now := 1700000000000;
  pathParseName := fun name => name;
  pathExtname := fun _ => "";
  cloudJob := fun _ _ _ => None;
  sharpToFile := fun _ _ => None;
  sharpMetadata := fun _ => None;
  pdf2picPage := fun _ _ => Rendered "/srv/app/converted/temp-pdf-page.1.png";
  pdf2picSnapshot :=
    fun _ n => Rendered ("/srv/app/converted/pdf-snapshot-1." +:+ pretty n +:+ ".png");
  pdftotext := fun _ => ExecOk;
  pdftotextLayout := fun _ => ExecOk;
  fileText := fun _ => JS.lit "Hello";
  packerText := fun _ => None;
  packerSnapshot := fun _ => None;
  pdfPageCount := fun _ => Ok 2;
  mammothText := fun _ => Ok (JS.lit "   ");
  textFits := fun s => bool_decide (length s ≤ 71);
  pdfLibWord := fun _ => None;
  pdfLibText := fun _ => None;
  pdfLibImage := fun _ => None;
  writeError := fun _ => None;
  copyError := fun _ _ => None;
  typeErrorMessage := "Cannot read properties of undefined (reading 'targetFormat')"
|}.

(** CloudConvert configured and failing, and every local PDF-to-Word step
    failing. *)
Definition failingEnv : Env := {|
  cloudConvert := true;
  cwd := "/srv/app";
  now := 1700000000000;
  pathParseName := fun name => name;
  pathExtname := fun _ => "";
  cloudJob := fun _ _ _ => Some "quota exceeded";
  sharpToFile := fun _ _ => None;
  sharpMetadata := fun _ => None;
  pdf2picPage := fun _ _ => NoOutput;
  pdf2picSnapshot := fun _ _ => NoOutput;
  pdftotext := fun _ => ExecOk;
  pdftotextLayout := fun _ => ExecFailed "Command failed: pdftotext" None;
  fileText := fun _ => [];
  packerText := fun _ => None;
  packerSnapshot := fun _ => None;
  pdfPageCount := fun _ => Ok 0;
  mammothText := fun _ => Throw "Could not find file in options";
  textFits := fun s => bool_decide (length s ≤ 71);
  pdfLibWord := fun _ => None;
  pdfLibText := fun _ => None;
  pdfLibImage := fun _ => None;
  writeError := fun _ => None;
  copyError := fun _ _ => None;
  typeErrorMessage := "Cannot read properties of undefined (reading 'targetFormat')"
|}.

Definition uploadOf (name mime : string) : UploadedFile :=
  Upload ("/srv/app/uploads/17-" +:+ name) mime name.

(** The file system right after multer stored the upload. *)
Definition worldWith (file : UploadedFile) : world := World {[ path file ]} [].

Example sample_runs :
  (convertRoute quietEnv (Req (Some (uploadOf "report" docxMime)) (Some "WORD"))
     (worldWith (uploadOf "report" docxMime))).1
  = Ok (200, succeeded "report-converted.docx" "1700000000000-report-converted.docx"
               "WORD" WORD)
  ∧ (convertRoute quietEnv (Req (Some (uploadOf "notes" "text/plain")) (Some "PDF"))
       (worldWith (uploadOf "notes" "text/plain")))
    = (Ok (200, succeeded "notes-converted.pdf" "1700000000000-notes-converted.pdf"
                  "TXT" PDF),
       World {[ "/srv/app/converted/1700000000000-notes-converted.pdf" ]}
         [EvWrite "/srv/app/converted/1700000000000-notes-converted.pdf";
          EvUnlink "/srv/app/uploads/17-notes"])
  ∧ TextPdf.layout (JS.lit "Hello" ++ [JS.NEWLINE] ++ JS.lit "World")
    = [TextPdf.Drawn 0 50 724 12 (JS.lit "Hello");
       TextPdf.Drawn 0 50 706 12 (JS.lit "World")]
  ∧ attempts (trace (convertRoute failingEnv
                       (Req (Some (uploadOf "scan" "application/pdf")) (Some "WORD"))
                       (worldWith (uploadOf "scan" "application/pdf"))).2)
    = [(Remote, Some "CloudConvert conversion failed: quota exceeded");
       (PdfToWordSnapshot, Some "PDF appears to be empty");
       (PdfToWordBasic, Some pdfToWordBasicMessage)].
Proof. vm_compute. repeat split. Qed.

(** * Further parts of the program and their vocabulary *)
(** ** Text that wrapping keeps *)

(** The characters of [s] that are not white space. *)
Definition nonWhiteSpace (s : list N) : list N :=
  filter (fun c => JS.isWhiteSpace c = false) s.

(** The pieces put back together with [sep] between them, as
    [pieces.join(sep)] does. *)
Fixpoint joinWith (sep : N) (pieces : list (list N)) : list N :=
  match pieces with
  | [] => []
  | [piece] => piece
  | piece :: rest => piece ++ sep :: joinWith sep rest
  end.

(** All white space, or none. *)
Definition uniformToken (token : list N) : Prop :=
  Forall (fun c => JS.isWhiteSpace c = true) token
  ∨ Forall (fun c => JS.isWhiteSpace c = false) token.

(** ** The label of the upload page *)

Module Client.

Definition mimeMap : gmap string string :=
  list_to_map
    [ ("image/png", "PNG"); ("image/jpeg", "JPG"); ("image/webp", "WEBP");
      ("image/tiff", "TIFF"); ("application/pdf", "PDF"); ("text/plain", "TXT");
      ("application/msword", "WORD");
      ("application/vnd.openxmlformats-officedocument.wordprocessingml.document", "WORD") ].

(** [getFormatFromMime] of the upload page: the label shown next to the
    chosen file, before anything is sent. *)
Definition getFormatFromMime (type : string) : string :=
  match mimeMap !! type with
  | Some f => f
  | None =>
      let seg := toUpperCase (lastSegment type) in
      if bool_decide (seg = "") then "FILE" else seg
  end.

End Client.

(** ** [path.join] on POSIX *)

Module Path.

(** [p.split("/")]: the segments between the slashes. *)
Fixpoint segments (p : string) : list string :=
  match p with
  | EmptyString => [EmptyString]
  | String c rest =>
      if Ascii.eqb c "/" then EmptyString :: segments rest
      else match segments rest with
           | seg :: segs => String c seg :: segs
           | [] => [String c EmptyString]
           end
  end.

(** One segment in the loop of [normalizeString]; [kept] holds the segments
    of the result so far, the last one first. An empty segment and [.] are
    dropped. [..] takes the last segment off, unless there is none or it is
    [..] itself: then [..] is kept when the path is relative, and dropped
    when it is absolute. *)
Definition keep (allowAboveRoot : bool) (kept : list string) (seg : string) : list string :=
  if String.eqb seg "" || String.eqb seg "." then kept
  else if String.eqb seg ".." then
    match kept with
    | top :: below =>
        if negb (String.eqb top "..") then below
        else if allowAboveRoot then seg :: kept else kept
    | [] => if allowAboveRoot then [seg] else []
    end
  else seg :: kept.

(** [path.charCodeAt(0) === 47] *)
Definition isAbsolute (p : string) : bool :=
  match p with
  | EmptyString => false
  | String c _ => Ascii.eqb c "/"
  end.

(** [path.charCodeAt(path.length - 1) === 47] *)
Fixpoint trailingSeparator (p : string) : bool :=
  match p with
  | EmptyString => false
  | String c EmptyString => Ascii.eqb c "/"
  | String _ rest => trailingSeparator rest
  end.

(** [normalizeString(path, allowAboveRoot, "/")] *)
Definition normalizeString (p : string) (allowAboveRoot : bool) : string :=
  join "/" (reverse (foldl (keep allowAboveRoot) [] (segments p))).

(** [path.normalize(p)] *)
Definition normalize (p : string) : string :=
  if String.eqb p "" then "."
  else
    let normalized := normalizeString p (negb (isAbsolute p)) in
    if String.eqb normalized "" then
      if isAbsolute p then "/" else if trailingSeparator p then "./" else "."
    else
      (if isAbsolute p then "/" else "") +:+ normalized
      +:+ (if trailingSeparator p then "/" else "").

(** [path.join(a, b)]: the arguments that are not empty, with a slash between
    them, normalized. *)
Definition join (a b : string) : string :=
  if String.eqb a "" then (if String.eqb b "" then "." else normalize b)
  else if String.eqb b "" then normalize a
  else normalize (a +:+ "/" +:+ b).

End Path.

Example path_join_demo :
  Path.join "/srv/app" "converted" = "/srv/app/converted"
  ∧ Path.join "/srv/app/converted" "17-a-converted.pdf" = "/srv/app/converted/17-a-converted.pdf"
  ∧ Path.join "/srv/app/converted" "../uploads/17-secret" = "/srv/app/uploads/17-secret"
  ∧ Path.join "/a/b" "x/" = "/a/b/x/"
  ∧ Path.join "/a/b" "." = "/a/b"
  ∧ Path.join "/a" "../../c" = "/c"
  ∧ Path.join "a" "../../c" = "../c"
  ∧ Path.join "a" ".." = "."
  ∧ Path.join "" "" = "."
  ∧ Path.normalize "a/../" = "./"
  ∧ Path.normalize "//a//b/./c/" = "/a/b/c/".
Proof. vm_compute. repeat split. Qed.

(** ** The [GET /api/download/:filename] handler *)

(** [\d] *)
Definition isDigit (c : ascii) : bool :=
  let n := nat_of_ascii c in bool_decide (48 ≤ n ≤ 57).

(** What follows the leading digits of [s]. *)
Fixpoint afterDigits (s : string) : string :=
  match s with
  | EmptyString => EmptyString
  | String c rest => if isDigit c then afterDigits rest else s
  end.

(** [filename.replace(/^\d+-/, "")]: one digit or more and a hyphen at the
    start are removed. The digits are matched greedily, and a shorter run of
    them is followed by a digit, so the hyphen has to follow the whole run. *)
Definition stripTimestamp (filename : string) : string :=
  match filename with
  | EmptyString => filename
  | String c _ =>
      if isDigit c then
        match afterDigits filename with
        | String "-" rest => rest
        | _ => filename
        end
      else filename
  end.

Inductive DownloadAnswer :=
| NotFound (status : nat) (error : string)
| Download (filePath originalFilename : string).

Definition notFoundMessage : string :=
  "File not found. It may have been deleted or expired.".

(** The handler up to its call [res.download(filePath, originalFilename,
    callback)]. The route parameter is any string, so the path is built with
    [Path.join]. *)
Definition downloadRoute (env : Env) (filename : string) : M DownloadAnswer :=
  let filePath := Path.join (convertedDir env) filename in
  let! present := existsSync filePath in
  if negb present then ret (NotFound 404 notFoundMessage)
  else
    let originalFilename := stripTimestamp filename in
    ret (Download filePath originalFilename).

(** The callback handed to [res.download], for the error of the transfer, if
    there was one: what it schedules with [setTimeout] to run 60000 ms later,
    if anything. *)
Definition downloadCallback (filePath : string) (err : option string) : option (M unit) :=
  match err with
  | None => Some (unlinkIfExists filePath)
  | Some _ => None
  end.

(** ** Rows of the decision table *)

(** [isOldDoc] of [convertWordToPdf]. *)
Definition oldDoc (mimeType inputPath : string) : bool :=
  String.eqb mimeType "application/msword" || endsWith ".doc" (toLowerCase inputPath).

Definition docGuardMessage : string :=
  "Cannot convert .doc files without CloudConvert. Please use .docx format or ensure CloudConvert API key is configured.".

(** The remote strategy, when there is a credential, before the local ones. *)
Definition remoteFirst (env : Env) (local : list strategy) : list strategy :=
  (if cloudConvert env then [Remote] else []) ++ local.

(** The strategies of each row, in the order in which the row tries them.
    The rows that call one engine directly, and the passthrough rows, have
    none. *)
Definition rowChain (env : Env) (file : UploadedFile) (target : SupportedFormat)
  : list strategy :=
  match classifySource (mimetype file), target with
  | Image, PDF => remoteFirst env [LocalImageToPdf]
  | Pdf, (PNG | JPG | WEBP | TIFF) => remoteFirst env [LocalRasterize]
  | Pdf, WORD => remoteFirst env [PdfToWordSnapshot; PdfToWordBasic]
  | WordDocument, PDF =>
      remoteFirst env (if oldDoc (mimetype file) (path file) then [] else [WordToPdfBasic])
  | _, _ => []
  end.

(** A run from [w] that ended with [r] in [w'] went along [chain]: it
    attempted the strategies of the chain in order, every attempt but the
    last one failed, a run that ended well stopped at an attempt that
    succeeded, and a run that failed went through the whole chain. *)
Definition follows (chain : list strategy) (w : world) (r : result unit) (w' : world)
  : Prop :=
  ∃ new, attempts (trace w') = attempts (trace w) ++ new
    ∧ new.*1 `prefix_of` chain
    ∧ (∀ i a, new !! i = Some a → S i < length new → failedAttempt a)
    ∧ (errorOf r = None → ∀ a, last new = Some a → a.2 = None)
    ∧ (errorOf r ≠ None → new.*1 = chain).

(** A digit string. *)
Fixpoint allDigits (s : string) : bool :=
  match s with
  | EmptyString => true
  | String c rest => isDigit c && allDigits rest
  end.

(** ** Plain file names and normal directories *)

Fixpoint noSlash (s : string) : bool :=
  match s with
  | EmptyString => true
  | String c rest => negb (Ascii.eqb c "/") && noSlash rest
  end.

(** A name that [path.join] leaves as it is behind a directory: it is not
    empty, holds no slash, and is neither [.] nor [..]. *)
Definition plainName (name : string) : Prop :=
  noSlash name = true ∧ name ≠ "" ∧ name ≠ "." ∧ name ≠ "..".

(** An absolute path in normal form that does not end in a slash, as
    [process.cwd()] answers it unless it is the root. *)
Definition normalDir (dir : string) : Prop :=
  Path.isAbsolute dir = true ∧ Path.trailingSeparator dir = false
  ∧ Path.normalize dir = dir.

(** ** Files that a computation does not create *)

(** [out] is not created: when it is there afterwards, it was there before. *)
Definition noNew (out : string) (w w' : world) : Prop :=
  out ∈ files w' → out ∈ files w.

(** A run of [m] that raises has not left [out] behind. *)
Definition cleanFailure {A} (out : string) (m : M A) : Prop :=
  ∀ w e, out ∉ files w → (m w).1 = Throw e → out ∉ files (m w).2.

(** ** A document whose second page does not render *)

(** Like [quietEnv], but pdf2pic writes the first page of a snapshot only. *)
Definition secondPageFailsEnv : Env := {|
  cloudConvert := false;
  cwd := "/srv/app";
  now := 1700000000000;
  pathParseName := fun name => name;
  pathExtname := fun _ => "";
  cloudJob := fun _ _ _ => None;
  sharpToFile := fun _ _ => None;
  sharpMetadata := fun _ => None;
  pdf2picPage := fun _ _ => NoOutput;
  pdf2picSnapshot :=
    fun _ page =>
      if decide (page = 1) then Rendered "/srv/app/converted/pdf-snapshot-1.1.png"
      else NoOutput;
  pdftotext := fun _ => ExecOk;
  pdftotextLayout := fun _ => ExecOk;
  fileText := fun _ => JS.lit "Hello";
  packerText := fun _ => None;
  packerSnapshot := fun _ => None;
  pdfPageCount := fun _ => Ok 2;
  mammothText := fun _ => Ok (JS.lit "Hello");
  textFits := fun s => bool_decide (length s ≤ 71);
  pdfLibWord := fun _ => None;
  pdfLibText := fun _ => None;
  pdfLibImage := fun _ => None;
  writeError := fun _ => None;
  copyError := fun _ _ => None;
  typeErrorMessage := "Cannot read properties of undefined (reading 'targetFormat')"
|}.


(** * Properties *)

(** ** The sanitizer removes every line break *)

Lemma printable_lit_space : Forall printable (JS.lit " ").
Proof. repeat constructor; unfold printable; simpl; lia. Qed.

Lemma replacements_printable c l : replacements !! c = Some l → Forall printable l.
Proof.
  intros E. apply elem_of_list_to_map_2 in E.
  repeat (apply elem_of_cons in E as [E|E];
          [inversion E; subst; repeat constructor; unfold printable; simpl; lia|]).
  by apply elem_of_nil in E.
Qed.

Lemma replaceChar_printable c : Forall printable (replaceChar c).
Proof.
  unfold replaceChar. destruct (replacements !! c) as [l|] eqn:E.
  - apply replacements_printable in E. destruct l; [apply printable_lit_space|done].
  - apply printable_lit_space.
Qed.

Lemma sanitize_printable text : Forall printable (sanitizeTextForPdf text).
Proof.
  unfold sanitizeTextForPdf. apply Forall_bind.
  apply Forall_forall. intros c Hc.
  apply list_elem_of_filter in Hc as [_ Hc]. apply list_elem_of_filter in Hc as [Hc _].
  simpl. destruct (isKept c) eqn:K; [|apply replaceChar_printable].
  constructor; [|constructor].
  unfold isKept, isControl, printable, JS.NEWLINE, JS.TAB in *.
  repeat (apply orb_false_iff in Hc as [? Hc] || apply orb_true_iff in K as [K|K]);
  repeat case_bool_decide; try apply N.eqb_eq in K; try done; lia.
Qed.

Lemma split_no_separator sep s : sep ∉ s → JS.split sep s = [s].
Proof.
  induction s as [|c s IH]; simpl; [done|]. intros H.
  apply not_elem_of_cons in H as [H1 H2].
  destruct (N.eqb_spec c sep); [congruence|]. by rewrite IH.
Qed.

Lemma printable_not_elem c s : ¬ printable c → Forall printable s → c ∉ s.
Proof. intros Hc Hs Hin. apply Hc. by eapply Forall_forall in Hs. Qed.

(** C10. Whatever the text, the sanitized string consists of printable ASCII
    only, so it holds no tab, newline or carriage return: the first pass
    removes the whole control range although the last pass would let newline
    and tab through. The split on newline in the Word-to-PDF strategy then
    gives the sanitized text as its single line, and the wrapped lines of the
    document are the wrapped lines of that one line. *)
Theorem sanitize_drops_line_breaks (text : list N) :
  let clean := sanitizeTextForPdf text in
  Forall printable clean
  ∧ (JS.TAB ∉ clean) ∧ (JS.NEWLINE ∉ clean) ∧ (JS.CR ∉ clean)
  ∧ isControl <$> [JS.TAB; JS.NEWLINE; JS.CR] = [true; true; true]
  ∧ isKept <$> [JS.TAB; JS.NEWLINE] = [true; true]
  ∧ JS.split JS.NEWLINE clean = [clean]
  ∧ ∀ fits, WordPdf.wrappedLines fits clean = WordPdf.wrapLine fits clean.
Proof.
  intros clean. pose proof (sanitize_printable text) as Hp. fold clean in Hp.
  assert (JS.NEWLINE ∉ clean) as Hnl.
  { apply printable_not_elem; [|done]. unfold printable, JS.NEWLINE. lia. }
  split; [done|]. split.
  { apply printable_not_elem; [|done]. unfold printable, JS.TAB. lia. }
  split; [done|]. split.
  { apply printable_not_elem; [|done]. unfold printable, JS.CR. lia. }
  split; [done|]. split; [done|].
  split; [by apply split_no_separator|].
  intros fits. unfold WordPdf.wrappedLines.
  rewrite split_no_separator by done. simpl. by rewrite app_nil_r.
Qed.

(** ** Wrapping and layout of the Text-to-PDF strategy *)

Lemma breakPoint_breaksAt remaining : breaksAt remaining (TextPdf.breakPoint remaining).
Proof.
  unfold breaksAt, TextPdf.breakPoint, TextPdf.maxCharsPerLine.
  destruct (JS.lastIndexOf JS.SPACE remaining 80) as [i|] eqn:E; simpl.
  - left. by apply TextPdf.lastIndexOf_Some.
  - right. split; [done|]. by apply TextPdf.lastIndexOf_None.
Qed.

Lemma breakPoint_le remaining : TextPdf.breakPoint remaining ≤ 80.
Proof. destruct (breakPoint_breaksAt remaining) as [[? _]|[-> _]]; lia. Qed.

Lemma wrapLong_long remaining :
  80 < length remaining →
  TextPdf.wrapLong remaining
  = JS.substring_to (TextPdf.breakPoint remaining) remaining
    :: TextPdf.wrapLong
         (JS.trim (JS.substring_from (TextPdf.breakPoint remaining) remaining)).
Proof.
  intros H. rewrite TextPdf.wrapLong_equation_1 at 1.
  destruct (decide (TextPdf.maxCharsPerLine < length remaining)) as [|Hn]; [done|].
  by destruct Hn.
Qed.

Lemma wrapLong_short remaining :
  length remaining ≤ 80 →
  TextPdf.wrapLong remaining = if decide (remaining = []) then [] else [remaining].
Proof.
  intros H. rewrite TextPdf.wrapLong_equation_1 at 1.
  destruct (decide (TextPdf.maxCharsPerLine < length remaining)) as [Hn|]; [|done].
  unfold TextPdf.maxCharsPerLine in Hn. lia.
Qed.

Lemma wrapLong_bounded n : ∀ remaining, length remaining ≤ n →
  Forall (fun l => length l ≤ 80) (TextPdf.wrapLong remaining).
Proof.
  induction n as [|n IH]; intros remaining Hn.
  - rewrite wrapLong_short by lia. case_decide; [done|]. constructor; [lia|done].
  - destruct (decide (80 < length remaining)) as [Hlong|Hshort].
    + rewrite wrapLong_long by done. constructor.
      * unfold JS.substring_to. rewrite length_take. pose proof (breakPoint_le remaining). lia.
      * apply IH. pose proof (TextPdf.wrap_measure remaining Hlong). lia.
    + rewrite wrapLong_short by lia. case_decide; [done|]. constructor; [lia|done].
Qed.

Lemma wrappedLines_bounded text :
  Forall (fun l => length l ≤ 80) (TextPdf.wrappedLines text).
Proof.
  unfold TextPdf.wrappedLines. apply Forall_bind, Forall_forall. intros line _.
  unfold compose, TextPdf.wrapLine.
  destruct (decide (length line ≤ TextPdf.maxCharsPerLine)) as [H|H].
  - constructor; [exact H|done].
  - by eapply wrapLong_bounded.
Qed.

Lemma drawLines_lookup lines : ∀ page y lineCount i d,
  lineCount ≤ 38 → y = (742 - 18 * Z.of_nat lineCount)%Z →
  TextPdf.drawLines lines page y lineCount !! i = Some d →
  TextPdf.dPage d = page + (lineCount + i) / 38
  ∧ TextPdf.dX d = 50%Z
  ∧ TextPdf.dY d = (742 - 18 * Z.of_nat ((lineCount + i) mod 38 + 1))%Z
  ∧ TextPdf.dSize d = 12%Z
  ∧ lines !! i = Some (TextPdf.dText d).
Proof.
  induction lines as [|line rest IH]; intros page y lineCount i d Hlc Hy; [done|].
  pose proof (Nat.div_mod_eq (lineCount + i) 38) as Hdm.
  pose proof (Nat.mod_upper_bound (lineCount + i) 38 ltac:(done)) as Hmod.
  remember ((lineCount + i) / 38) as q eqn:Hq.
  remember ((lineCount + i) mod 38) as r eqn:Hr. clear Hq Hr.
  simpl.
  change TextPdf.linesPerPage with 38.
  change (TextPdf.pageHeight - TextPdf.margin)%Z with 742%Z.
  change TextPdf.lineHeight with 18%Z. change TextPdf.margin with 50%Z.
  change TextPdf.fontSize with 12%Z.
  case_decide as Hfull; destruct i as [|i]; simpl.
  - intros [= <-]. simpl. repeat split; lia.
  - intros Hd. apply IH in Hd as (H1 & H2 & H3 & H4 & H5); [|lia..].
    pose proof (Nat.div_mod_eq (1 + i) 38).
    pose proof (Nat.mod_upper_bound (1 + i) 38 ltac:(done)).
    rewrite H1, H3. repeat split; try done; lia.
  - intros [= <-]. simpl. repeat split; lia.
  - intros Hd. apply IH in Hd as (H1 & H2 & H3 & H4 & H5); [|lia..].
    pose proof (Nat.div_mod_eq (S lineCount + i) 38).
    pose proof (Nat.mod_upper_bound (S lineCount + i) 38 ltac:(done)).
    rewrite H1, H3. repeat split; try done; lia.
Qed.

Lemma drawLines_length lines : ∀ page y lineCount,
  length (TextPdf.drawLines lines page y lineCount) = length lines.
Proof.
  induction lines as [|line rest IH]; intros page y lineCount; simpl; [done|].
  case_decide; simpl; by rewrite IH.
Qed.


(** ** The snapshot strategy removes its page images *)

Lemma world_eta w : World (files w) (trace w) = w.
Proof. by destruct w. Qed.

Section SnapshotCleanup.

Context (env : Env).

(** The page loop only adds page images, and hands every one of them back
    in the array, whether or not it ends with a pending exception. *)
Lemma renderPages_spec inputPath todo : ∀ page imagePaths w,
  ∃ added pending,
    renderPages env inputPath page todo imagePaths w
    = (Ok (imagePaths ++ added, pending),
       World (files w ∪ list_to_set added) (trace w ++ (EvTool <$> added)))
    ∧ Forall (fun p => ∃ n, pdf2picSnapshot env inputPath n = Rendered p) added.
Proof.
  induction todo as [|todo IH]; intros page imagePaths w; simpl.
  - exists [], None. unfold ret. rewrite !app_nil_r. simpl.
    rewrite union_empty_r_L. by rewrite world_eta.
  - unfold convertPage.
    destruct (pdf2picSnapshot env inputPath page) as [p| |msg] eqn:E; simpl.
    + destruct (IH (S page) (imagePaths ++ [p])
                  (World (files w ∪ {[p]}) (trace w ++ [EvTool p])))
        as (added & pending & -> & Hadded).
      exists (p :: added), pending. simpl. rewrite <- !app_assoc. simpl.
      split; [do 2 f_equal; set_solver|]. constructor; [by exists page|done].
    + eexists [], _. rewrite !app_nil_r. simpl.
      rewrite union_empty_r_L, world_eta. done.
    + eexists [], _. unfold throw. rewrite !app_nil_r. simpl.
      rewrite union_empty_r_L, world_eta. done.
Qed.

Lemma readImages_world imagePaths : ∀ w, (readImages env imagePaths w).2 = w.
Proof.
  induction imagePaths as [|p rest IH]; intros w; simpl; [done|].
  unfold bind, readFile. destruct (decide (p ∈ files w)); [|done].
  unfold external. destruct (sharpMetadata env p); simpl; [done|]. apply IH.
Qed.

(** The [finally] block never raises, and leaves none of the paths behind. *)
Lemma cleanupImages_spec imagePaths : ∀ w,
  ∃ evs, cleanupImages imagePaths w
         = (Ok (), World (files w ∖ list_to_set imagePaths) (trace w ++ evs))
         ∧ Forall isUnlink evs
         ∧ ∀ p, EvUnlink p ∈ evs → p ∈ imagePaths.
Proof.
  induction imagePaths as [|p rest IH]; intros w; simpl.
  - exists []. rewrite app_nil_r, difference_empty_L, world_eta.
    split; [done|]. split; [done|]. by intros p ?%elem_of_nil.
  - unfold bind, unlinkIfExists, bind, existsSync, unlinkSync. simpl.
    case_bool_decide as Hp.
    + rewrite decide_True by done.
      destruct (IH (World (files w ∖ {[p]}) (trace w ++ [EvUnlink p])))
        as (evs & -> & Hevs & Hin).
      exists (EvUnlink p :: evs). simpl. rewrite <- app_assoc. simpl.
      split; [do 2 f_equal; set_solver|]. split; [constructor; [by exists p|done]|].
      intros q [[= ->]|Hq]%elem_of_cons; [left|right; by apply Hin].
    + unfold ret. simpl. destruct (IH w) as (evs & -> & Hevs & Hin). exists evs.
      split; [do 2 f_equal; set_solver|]. split; [done|].
      intros q Hq. right. by apply Hin.
Qed.

(** What an unsuccessful run of the snapshot strategy leaves in the world:
    the page images [added] were written and removed again, and nothing
    else happened. *)
Lemma snapshot_failed_run (added : list string) (evs : list event)
  (w : world) (outputPath : string) :
  Forall isUnlink evs →
  let w' := World ((files w ∪ list_to_set added) ∖ list_to_set added)
                  ((trace w ++ (EvTool <$> added)) ++ evs) in
  ∃ new, trace w' = trace w ++ new
    ∧ (∀ p, EvTool p ∈ new → p ∉ files w')
    ∧ (EvWrite outputPath ∉ new)
    ∧ (outputPath ∈ files w' → outputPath ∈ files w).
Proof.
  intros Hevs w'. exists ((EvTool <$> added) ++ evs).
  split; [by rewrite app_assoc|]. split; [|split].
  - intros p [Hp|Hp]%elem_of_app.
    + apply list_elem_of_fmap in Hp as (q & [= ->] & Hq). set_solver.
    + eapply Forall_forall in Hevs as [q Hq]; [|done]. done.
  - intros [Hw|Hw]%elem_of_app.
    + by apply list_elem_of_fmap in Hw as (q & ? & _).
    + eapply Forall_forall in Hevs as [q Hq]; [|done]. done.
  - set_solver.
Qed.

(** C6. Whatever the PDF and whatever the engines answer, when the snapshot
    strategy returns, every page image written during the run (an [EvTool]
    event of the run) is gone from the file system, on success and on
    failure alike; and a run that fails has not written the output file:
    the output path exists afterwards only if it existed before. *)
Theorem snapshot_cleans_up inputPath outputPath w :
  let r := (convertPdfToWordSnapshot env inputPath outputPath w).1 in
  let w' := (convertPdfToWordSnapshot env inputPath outputPath w).2 in
  ∃ new, trace w' = trace w ++ new
    ∧ (∀ p, EvTool p ∈ new → p ∉ files w')
    ∧ (r ≠ Ok () →
       (EvWrite outputPath ∉ new) ∧ (outputPath ∈ files w' → outputPath ∈ files w)).
Proof.
  assert (∀ w0 : world, ∃ new, trace w0 = trace w0 ++ new
            ∧ (∀ p, EvTool p ∈ new → p ∉ files w0)
            ∧ (EvWrite outputPath ∉ new)
            ∧ (outputPath ∈ files w0 → outputPath ∈ files w0)) as Hnothing.
  { intros w0. exists []. rewrite app_nil_r. split; [done|].
    split; [by intros p ?%elem_of_nil|]. split; [by intros ?%elem_of_nil|done]. }
  unfold convertPdfToWordSnapshot, bind, getPdfPageCount.
  destruct (pdfPageCount env inputPath) as [n|msg]; simpl.
  2:{ destruct (Hnothing w) as (new & ? & ? & ?). exists new. naive_solver. }
  case_bool_decide as Hn; simpl.
  { destruct (Hnothing w) as (new & ? & ? & ?). exists new. naive_solver. }
  destruct (renderPages_spec inputPath n 1 [] w) as (added & pending & -> & _). simpl.
  set (w1 := World (files w ∪ list_to_set added) (trace w ++ (EvTool <$> added))).
  assert (∀ msg : string,
    let r := (try_finally (throw msg) (cleanupImages added) w1).1 in
    let w' := (try_finally (@throw unit msg) (cleanupImages added) w1).2 in
    ∃ new, trace w' = trace w ++ new
      ∧ (∀ p, EvTool p ∈ new → p ∉ files w')
      ∧ (r ≠ Ok () →
         (EvWrite outputPath ∉ new) ∧ (outputPath ∈ files w' → outputPath ∈ files w)))
    as Hfail.
  { intros msg. unfold try_finally, throw.
    destruct (cleanupImages_spec added w1) as (evs & -> & Hevs & _). simpl.
    destruct (snapshot_failed_run added evs w outputPath Hevs) as (new & ? & ? & ? & ?).
    exists new. naive_solver. }
  destruct pending as [msg|]; [apply Hfail|].
  unfold try_finally, bind.
  pose proof (readImages_world added w1) as Hread.
  destruct (readImages env added w1) as [[[]|msg] w2]; simpl in Hread; subst w2;
    [|apply Hfail].
  unfold external, writeFileSync.
  destruct (packerSnapshot env added) as [msg|]; simpl; [apply Hfail|].
  unfold ret. simpl. destruct (writeError env outputPath) as [msg|]; simpl;
    [apply Hfail|].
  match goal with |- context [cleanupImages added ?w3] =>
    destruct (cleanupImages_spec added w3) as (evs & -> & Hevs & _) end. simpl.
  exists ((EvTool <$> added) ++ [EvWrite outputPath] ++ evs).
  split; [by rewrite <- !app_assoc|]. split; [|done].
  intros p [Hp|Hp]%elem_of_app.
  - apply list_elem_of_fmap in Hp as (q & [= ->] & Hq). set_solver.
  - apply elem_of_cons in Hp as [Hp|Hp]; [done|].
    eapply Forall_forall in Hevs as [q Hq]; [|done]. done.
Qed.

End SnapshotCleanup.

(** ** Relations preserved by computations *)

Section Preserves.

Context (R : world → world → Prop) `{!PreOrder R}.

Lemma preserves_ret {A} (a : A) : preserves R (ret a).
Proof. intros w. simpl. reflexivity. Qed.

Lemma preserves_throw {A} msg : preserves R (@throw A msg).
Proof. intros w. simpl. reflexivity. Qed.

Lemma preserves_bind {A B} (m : M A) (f : A → M B) :
  preserves R m → (∀ a, preserves R (f a)) → preserves R (bind m f).
Proof.
  intros Hm Hf w. unfold bind. specialize (Hm w).
  destruct (m w) as [[a|e] w1]; simpl in *; [|done].
  etrans; [done|apply Hf].
Qed.

Lemma preserves_try_catch {A} (m : M A) h :
  preserves R m → (∀ e, preserves R (h e)) → preserves R (try_catch m h).
Proof.
  intros Hm Hh w. unfold try_catch. specialize (Hm w).
  destruct (m w) as [[a|e] w1]; simpl in *; [done|].
  etrans; [done|apply Hh].
Qed.

Lemma preserves_try_finally {A} (m : M A) fin :
  preserves R m → preserves R fin → preserves R (try_finally m fin).
Proof.
  intros Hm Hf w. unfold try_finally. specialize (Hm w).
  destruct (m w) as [r w1]; simpl in *. specialize (Hf w1).
  destruct (fin w1) as [[a|e] w2]; simpl in *; by etrans.
Qed.

Lemma preserves_external o : preserves R (external o).
Proof. destruct o; [apply preserves_throw|apply preserves_ret]. Qed.

Lemma preserves_existsSync p : preserves R (existsSync p).
Proof. intros w. simpl. reflexivity. Qed.

Lemma preserves_readFile p : preserves R (readFile p).
Proof. intros w. unfold readFile. case_decide; simpl; reflexivity. Qed.

End Preserves.

Lemma preserves_bind_post {A B} R `{!PreOrder R} (m : M A) (f : A → M B) (P : A → Prop) :
  returns m P → preserves R m → (∀ a, P a → preserves R (f a)) → preserves R (bind m f).
Proof.
  intros HP Hm Hf w. unfold bind. specialize (Hm w). specialize (HP w).
  destruct (m w) as [[a|e] w1]; simpl in *; [|done].
  etrans; [done|]. apply Hf. by apply HP.
Qed.

(** ** Paths that a conversion leaves alone *)

#[local] Instance intact_preorder q : PreOrder (intact q).
Proof.
  split.
  - by intros w.
  - intros w1 w2 w3 [H1 H2] [H3 H4]. split; [auto|congruence].
Qed.

Lemma unlinks_snoc q t e : unlinks q (t ++ [e]) = unlinks q t + (if decide (e = EvUnlink q) then 1 else 0).
Proof.
  unfold unlinks. rewrite filter_app, length_app. f_equal.
  rewrite filter_cons, filter_nil. by case_decide.
Qed.

Lemma intact_emit q e : (e ≠ EvUnlink q) → preserves (intact q) (emit e).
Proof. intros He w. split; simpl; [done|]. rewrite unlinks_snoc. case_decide; [done|lia]. Qed.

Lemma intact_attempt {A} q s (m : M A) : preserves (intact q) m → preserves (intact q) (attempt s m).
Proof.
  intros Hm w. unfold attempt. specialize (Hm w). destruct (m w) as [r w1]. simpl in *.
  etrans; [done|]. split; simpl; [done|]. rewrite unlinks_snoc. by rewrite decide_False, Nat.add_0_r.
Qed.

Lemma intact_toolWrite q o p : preserves (intact q) (toolWrite o p).
Proof.
  destruct o; [apply preserves_throw, _|]. intros w. split; simpl; [set_solver|].
  rewrite unlinks_snoc. by rewrite decide_False, Nat.add_0_r.
Qed.

Lemma intact_unlinkSync q p : p ≠ q → preserves (intact q) (unlinkSync p).
Proof.
  intros Hp w. unfold unlinkSync. case_decide; simpl; [|reflexivity].
  split; simpl; [set_solver|]. rewrite unlinks_snoc. rewrite decide_False; [lia|congruence].
Qed.

Lemma intact_renameSync q src dst : src ≠ q → preserves (intact q) (renameSync src dst).
Proof.
  intros Hp w. unfold renameSync. case_decide; simpl; [|reflexivity].
  split; simpl; [set_solver|]. rewrite unlinks_snoc. by rewrite decide_False, Nat.add_0_r.
Qed.

Create HintDb presv.

Ltac preserves_step :=
  lazymatch goal with
  | |- preserves _ (bind _ _) => apply preserves_bind; [apply _ | | intros ?]
  | |- preserves _ (try_catch _ _) => apply preserves_try_catch; [apply _ | | intros ?]
  | |- preserves _ (try_finally _ _) => apply preserves_try_finally; [apply _ | | ]
  | |- preserves _ (ret _) => apply preserves_ret; apply _
  | |- preserves _ (throw _) => apply preserves_throw; apply _
  | |- preserves _ (external _) => apply preserves_external; apply _
  | |- preserves _ (existsSync _) => apply preserves_existsSync; apply _
  | |- preserves _ (readFile _) => apply preserves_readFile; apply _
  | |- preserves _ (returnedOrLogged _ _) => unfold returnedOrLogged
  | |- preserves (intact _) (attempt _ _) => apply intact_attempt
  | |- preserves _ (match ?x with _ => _ end) => destruct x eqn:?
  | |- preserves _ _ => solve [eauto with presv]
  end.

Ltac preserves_go := repeat preserves_step.

Lemma intact_unlinkIfExists q p : p ≠ q → preserves (intact q) (unlinkIfExists p).
Proof.
  intros Hp. apply preserves_bind; [apply _|apply preserves_existsSync, _|].
  intros []; [by apply intact_unlinkSync|apply preserves_ret, _].
Qed.

Lemma intact_consoleError q msg : preserves (intact q) (consoleError msg).
Proof. by apply intact_emit. Qed.

Section IntactStrategies.

Context (env : Env) (q : string).

Lemma intact_writeFileSync p : preserves (intact q) (writeFileSync env p).
Proof.
  unfold writeFileSync. destruct (writeError env p); [apply preserves_throw, _|].
  intros w. split; simpl; [set_solver|].
  rewrite unlinks_snoc. by rewrite decide_False, Nat.add_0_r.
Qed.

Lemma intact_copyFileSync src dst : preserves (intact q) (copyFileSync env src dst).
Proof.
  intros w. unfold copyFileSync. case_decide; [|reflexivity].
  destruct (copyError env src dst); [reflexivity|].
  split; simpl; [set_solver|].
  rewrite unlinks_snoc. by rewrite decide_False, Nat.add_0_r.
Qed.

Lemma intact_convertPage r : preserves (intact q) (convertPage r).
Proof.
  destruct r; [|apply preserves_ret, _|apply preserves_throw, _].
  intros w. split; simpl; [set_solver|].
  rewrite unlinks_snoc. by rewrite decide_False, Nat.add_0_r.
Qed.

End IntactStrategies.

#[local] Hint Resolve intact_toolWrite intact_unlinkSync intact_renameSync
  intact_unlinkIfExists intact_writeFileSync intact_copyFileSync intact_convertPage
  intact_attempt intact_consoleError : presv.

Section IntactConversions.

Context (env : Env) (q : string).

Lemma intact_convertImage i o t : preserves (intact q) (convertImage env i o t).
Proof. unfold convertImage. preserves_go. Qed.
Hint Resolve intact_convertImage : presv.

Lemma intact_convertWithCloudConvert i o a b :
  preserves (intact q) (convertWithCloudConvert env i o a b).
Proof. unfold convertWithCloudConvert. preserves_go. Qed.
Hint Resolve intact_convertWithCloudConvert : presv.

Lemma returns_convertPage r :
  returns (convertPage r) (fun res => ∀ p, res = Some p → r = Rendered p).
Proof. intros w a. destruct r; simpl; intros [= <-]; naive_solver. Qed.

Lemma intact_convertPdfToImage i o t :
  (∀ n, pdf2picPage env i n ≠ Rendered q) →
  preserves (intact q) (convertPdfToImage env i o t).
Proof.
  intros Hq. unfold convertPdfToImage.
  apply preserves_bind; [apply _|preserves_go|]. intros [|]; [preserves_go|].
  apply intact_attempt.
  eapply preserves_bind_post; [apply _|apply returns_convertPage|preserves_go|].
  intros [p|] Hp; [|preserves_go].
  assert (p ≠ q) by (intros ->; by eapply Hq, Hp).
  preserves_go.
Qed.

Lemma intact_convertPdfToText i o : preserves (intact q) (convertPdfToText env i o).
Proof. unfold convertPdfToText. preserves_go. Qed.

Lemma intact_convertPdfToWordBasic i o :
  i +:+ ".txt" ≠ q → preserves (intact q) (convertPdfToWordBasic env i o).
Proof. intros Hq. unfold convertPdfToWordBasic, execAsync. preserves_go. Qed.

Lemma intact_cleanupImages paths : q ∉ paths → preserves (intact q) (cleanupImages paths).
Proof.
  induction paths as [|p rest IH]; simpl; intros Hq; [preserves_go|].
  apply not_elem_of_cons in Hq as [? ?]. preserves_go.
Qed.

Lemma intact_readImages paths : preserves (intact q) (readImages env paths).
Proof. induction paths as [|p rest IH]; simpl; preserves_go. Qed.

Lemma intact_renderPages i todo : ∀ page paths,
  preserves (intact q) (renderPages env i page todo paths).
Proof.
  intros page paths w.
  destruct (renderPages_spec env i todo page paths w) as (added & pending & -> & _).
  split; simpl; [set_solver|].
  induction added as [|p added IH] using rev_ind; simpl; [by rewrite app_nil_r|].
  rewrite fmap_app, app_assoc. simpl. rewrite unlinks_snoc, IH.
  by rewrite decide_False, Nat.add_0_r.
Qed.

Lemma returns_renderPages i todo page :
  returns (renderPages env i page todo [])
    (fun loop => Forall (fun p => ∃ n, pdf2picSnapshot env i n = Rendered p) loop.1).
Proof.
  intros w a.
  destruct (renderPages_spec env i todo page [] w) as (added & pending & -> & H).
  simpl. by intros [= <-].
Qed.

Lemma intact_convertPdfToWordSnapshot i o :
  (∀ n, pdf2picSnapshot env i n ≠ Rendered q) →
  preserves (intact q) (convertPdfToWordSnapshot env i o).
Proof.
  intros Hq. unfold convertPdfToWordSnapshot, getPdfPageCount.
  apply preserves_bind; [apply _|preserves_go|]. intros n.
  destruct (bool_decide (n = 0)); [preserves_go|].
  eapply preserves_bind_post;
    [apply _|apply returns_renderPages|apply intact_renderPages|].
  intros [paths pending] Hpaths. simpl in Hpaths.
  assert (q ∉ paths).
  { intros Hin. eapply Forall_forall in Hpaths as [n' Hn']; [|done]. by eapply Hq. }
  apply preserves_try_finally; [apply _| |by apply intact_cleanupImages].
  pose proof intact_readImages. preserves_go.
Qed.

Lemma intact_convertPdfToWord i o :
  i +:+ ".txt" ≠ q → (∀ n, pdf2picSnapshot env i n ≠ Rendered q) →
  preserves (intact q) (convertPdfToWord env i o).
Proof.
  intros H1 H2. unfold convertPdfToWord.
  pose proof (intact_convertPdfToWordSnapshot i o H2).
  pose proof (intact_convertPdfToWordBasic i o H1).
  preserves_go.
Qed.

Lemma intact_convertWordToPdfBasic i o :
  preserves (intact q) (convertWordToPdfBasic env i o).
Proof. unfold convertWordToPdfBasic. preserves_go. Qed.

Lemma intact_convertWordToPdf i o m :
  preserves (intact q) (convertWordToPdf env i o m).
Proof.
  unfold convertWordToPdf. pose proof (intact_convertWordToPdfBasic i o).
  preserves_go.
Qed.

Lemma intact_convertImageToPdf i o : preserves (intact q) (convertImageToPdf env i o).
Proof. unfold convertImageToPdf. cbv zeta. preserves_go. Qed.

Lemma intact_convertTextToPdf i o : preserves (intact q) (convertTextToPdf env i o).
Proof. unfold convertTextToPdf. preserves_go. Qed.

End IntactConversions.

Lemma intact_selectConversion env q file target conversion :
  selectConversion env file target = Some conversion →
  path file +:+ ".txt" ≠ q → toolsAvoid env (path file) q →
  preserves (intact q) conversion.
Proof.
  intros Hsel Htxt [Hpage Hsnap]. unfold selectConversion in Hsel.
  repeat case_match; try discriminate; injection Hsel as <-;
    eauto using intact_convertImage, intact_convertImageToPdf, intact_convertPdfToImage,
      intact_convertPdfToText, intact_convertPdfToWord, intact_convertWordToPdf,
      intact_copyFileSync, intact_convertTextToPdf.
Qed.

(** ** A conversion that succeeds leaves its output *)

Section Produces.

Context (env : Env) (out : string).

Lemma produces_throw {A} msg : produces out (@throw A msg).
Proof. by intros w a. Qed.

Lemma produces_bind_last {A B} (m : M A) (f : A → M B) :
  (∀ a, produces out (f a)) → produces out (bind m f).
Proof.
  intros Hf w b. unfold bind. destruct (m w) as [[a|e] w1]; [apply Hf|done].
Qed.

Lemma produces_bind_returns {A B} (m : M A) (f : A → M B) (P : A → Prop) :
  returns m P → (∀ a, P a → produces out (f a)) → produces out (bind m f).
Proof.
  intros HP Hf w b. unfold bind. specialize (HP w).
  destruct (m w) as [[a|e] w1]; simpl in *; [|done]. apply Hf. by apply HP.
Qed.

Lemma produces_seq {A B} (m : M A) (k : M B) :
  produces out m → preserves (intact out) k → produces out (bind m (fun _ => k)).
Proof.
  intros Hm Hk w b. unfold bind. specialize (Hm w).
  destruct (m w) as [[a|e] w1]; simpl in *; [|done].
  intros _. apply (Hk w1). by eapply Hm.
Qed.

Lemma produces_try_catch {A} (m : M A) h :
  produces out m → (∀ e, produces out (h e)) → produces out (try_catch m h).
Proof.
  intros Hm Hh w a. unfold try_catch. specialize (Hm w).
  destruct (m w) as [[a'|e] w1]; simpl in *; [intros [= <-]; by eapply Hm|apply Hh].
Qed.

Lemma produces_try_finally {A} (m : M A) fin :
  produces out m → preserves (intact out) fin → produces out (try_finally m fin).
Proof.
  intros Hm Hf w a. unfold try_finally. specialize (Hm w).
  destruct (m w) as [r w1]; simpl in *. specialize (Hf w1).
  destruct (fin w1) as [[[]|e] w2]; simpl in *; [|done].
  intros ->. apply Hf. by eapply Hm.
Qed.

Lemma produces_attempt {A} s (m : M A) : produces out m → produces out (attempt s m).
Proof.
  intros Hm w a. unfold attempt. specialize (Hm w).
  destruct (m w) as [r w1]; simpl in *. apply Hm.
Qed.

Lemma produces_toolWrite o : produces out (toolWrite o out).
Proof. intros w a. destruct o; simpl; [done|set_solver]. Qed.

Lemma produces_writeFileSync : produces out (writeFileSync env out).
Proof.
  intros w a. unfold writeFileSync. destruct (writeError env out); simpl; [done|set_solver].
Qed.

Lemma produces_renameSync src : produces out (renameSync src out).
Proof. intros w a. unfold renameSync. case_decide; simpl; [set_solver|done]. Qed.

Lemma produces_copyFileSync src : produces out (copyFileSync env src out).
Proof.
  intros w a. unfold copyFileSync. case_decide; [|done].
  destruct (copyError env src out); simpl; [done|set_solver].
Qed.

(** The idiom of the chains: a first strategy that returns on success,
    then the rest of the function. *)
Lemma produces_fallback (b : bool) (m : M unit) label (rest : M unit) :
  produces out m → produces out rest →
  produces out
    (bind (if b then returnedOrLogged m label else ret false)
          (fun returned : bool => if returned then ret () else rest)).
Proof.
  intros Hm Hrest w a. unfold bind. destruct b; simpl; [|apply Hrest].
  unfold returnedOrLogged, try_catch, bind. specialize (Hm w).
  destruct (m w) as [[[]|e] w1]; simpl in *; [intros _; by eapply Hm|].
  intros H. specialize (Hrest (World (files w1) (trace w1 ++ [EvConsoleError (label +:+ " " +:+ e)]))).
  by eapply Hrest.
Qed.

Lemma produces_convertImage i t : produces out (convertImage env i out t).
Proof. unfold convertImage. destruct t; auto using produces_toolWrite, produces_throw. Qed.

Lemma produces_convertWithCloudConvert i a b :
  produces out (convertWithCloudConvert env i out a b).
Proof.
  unfold convertWithCloudConvert. destruct (negb _); [apply produces_throw|].
  apply produces_try_catch.
  - apply produces_bind_last. intros _. apply produces_writeFileSync.
  - intros e. apply produces_bind_last. intros _. apply produces_throw.
Qed.

Lemma produces_convertPdfToImage i t :
  (∀ n, pdf2picPage env i n ≠ Rendered out) →
  produces out (convertPdfToImage env i out t).
Proof.
  intros Hout. unfold convertPdfToImage.
  apply produces_fallback.
  { apply produces_attempt, produces_convertWithCloudConvert. }
  apply produces_attempt.
  eapply produces_bind_returns; [apply returns_convertPage|].
  intros [p|] Hp; [|apply produces_throw].
  assert (p ≠ out) by (intros ->; by eapply Hout, Hp).
  destruct (_ || _); [apply produces_renameSync|].
  apply produces_seq; [apply produces_convertImage|by apply intact_unlinkSync].
Qed.

Lemma produces_convertPdfToText i : produces out (convertPdfToText env i out).
Proof.
  unfold convertPdfToText. destruct (pdftotext env i); [apply produces_toolWrite|].
  case_match; apply produces_throw.
Qed.

Lemma produces_convertPdfToWordBasic i :
  i +:+ ".txt" ≠ out → produces out (convertPdfToWordBasic env i out).
Proof.
  intros Hout. unfold convertPdfToWordBasic. apply produces_try_catch.
  - do 3 (apply produces_bind_last; intros _).
    apply produces_seq; [apply produces_writeFileSync|by apply intact_unlinkIfExists].
  - intros e. do 2 (apply produces_bind_last; intros _). apply produces_throw.
Qed.

Lemma produces_convertPdfToWordSnapshot i :
  (∀ n, pdf2picSnapshot env i n ≠ Rendered out) →
  produces out (convertPdfToWordSnapshot env i out).
Proof.
  intros Hout. unfold convertPdfToWordSnapshot.
  apply produces_bind_last. intros n. destruct (bool_decide _); [apply produces_throw|].
  eapply produces_bind_returns; [apply returns_renderPages|].
  intros [paths pending] Hpaths. simpl in Hpaths.
  apply produces_try_finally.
  - destruct pending; [apply produces_throw|].
    do 2 (apply produces_bind_last; intros _). apply produces_writeFileSync.
  - apply intact_cleanupImages. intros Hin.
    eapply Forall_forall in Hpaths as [n' Hn']; [|done]. by eapply Hout.
Qed.

Lemma produces_convertPdfToWord i :
  i +:+ ".txt" ≠ out → (∀ n, pdf2picSnapshot env i n ≠ Rendered out) →
  produces out (convertPdfToWord env i out).
Proof.
  intros H1 H2. unfold convertPdfToWord. apply produces_fallback.
  { apply produces_attempt, produces_convertWithCloudConvert. }
  apply (produces_fallback true).
  { by apply produces_attempt, produces_convertPdfToWordSnapshot. }
  by apply produces_attempt, produces_convertPdfToWordBasic.
Qed.

Lemma produces_convertWordToPdfBasic i : produces out (convertWordToPdfBasic env i out).
Proof.
  unfold convertWordToPdfBasic. apply produces_try_catch.
  - apply produces_bind_last. intros text. destruct (_ || _); [apply produces_throw|].
    apply produces_bind_last. intros _. apply produces_writeFileSync.
  - intros e. apply produces_bind_last. intros _. apply produces_throw.
Qed.

Lemma produces_convertWordToPdf i m : produces out (convertWordToPdf env i out m).
Proof.
  unfold convertWordToPdf. apply produces_fallback.
  { apply produces_attempt, produces_convertWithCloudConvert. }
  destruct (_ || _); [apply produces_throw|].
  apply produces_attempt, produces_convertWordToPdfBasic.
Qed.

Lemma produces_convertImageToPdf i : produces out (convertImageToPdf env i out).
Proof.
  unfold convertImageToPdf. apply produces_fallback.
  { apply produces_attempt, produces_convertWithCloudConvert. }
  apply produces_attempt. do 2 (apply produces_bind_last; intros _).
  apply produces_writeFileSync.
Qed.

Lemma produces_convertTextToPdf i : produces out (convertTextToPdf env i out).
Proof.
  unfold convertTextToPdf. do 2 (apply produces_bind_last; intros _).
  apply produces_writeFileSync.
Qed.

End Produces.

Lemma produces_selectConversion env file target conversion :
  selectConversion env file target = Some conversion →
  path file +:+ ".txt" ≠ outputPathOf env file target →
  toolsAvoid env (path file) (outputPathOf env file target) →
  produces (outputPathOf env file target) conversion.
Proof.
  intros Hsel Htxt [Hpage Hsnap]. unfold selectConversion in Hsel.
  repeat case_match; try discriminate; injection Hsel as <-;
    eauto using produces_convertImage, produces_convertImageToPdf,
      produces_convertPdfToImage, produces_convertPdfToText, produces_convertPdfToWord,
      produces_convertWordToPdf, produces_copyFileSync, produces_convertTextToPdf.
Qed.

(** ** The upload is deleted exactly once *)

Lemma append_assoc (a b c : string) : (a +:+ b) +:+ c = a +:+ (b +:+ c).
Proof.
  induction a as [|x a IH]; [done|].
  change (String x ((a +:+ b) +:+ c) = String x (a +:+ (b +:+ c))). by rewrite IH.
Qed.

Lemma append_nil_r (a : string) : a +:+ "" = a.
Proof.
  induction a as [|x a IH]; [done|].
  change (String x (a +:+ "") = String x a). by rewrite IH.
Qed.

Lemma uploads_not_converted env x y :
  uploadsDir env +:+ x ≠ convertedDir env +:+ y.
Proof.
  unfold uploadsDir, convertedDir. rewrite !append_assoc.
  intros H%(inj (String.append _)). cbv [String.append] in H. discriminate.
Qed.

Lemma append_txt_ne (s : string) : s +:+ ".txt" ≠ s.
Proof.
  intros H. rewrite <- (append_nil_r s) in H at 2.
  apply (inj (String.append _)) in H. discriminate.
Qed.

Lemma stored_not_output env file target :
  storedUpload env file →
  outputPathOf env file target ≠ path file
  ∧ path file +:+ ".txt" ≠ outputPathOf env file target.
Proof.
  intros [name Hname]. rewrite Hname. unfold outputPathOf, pathJoin. split.
  - intros H. symmetry in H. by apply uploads_not_converted in H.
  - rewrite append_assoc. apply uploads_not_converted.
Qed.

(** C5. Take a request with an upload that multer stored in the uploads
    directory and that exists when the handler starts, and engines that
    write their page images elsewhere than to the upload or to the output
    path. Whatever the target and whatever the engines answer, when the
    handler has answered the upload is gone and was unlinked exactly once
    (on the success paths, the invalid-target path, the not-supported path
    and, behind the existence test, the exception path). The output path is
    never unlinked, and after a successful answer the output file exists. *)
Theorem input_deleted_exactly_once env file raw w :
  path file ∈ files w →
  storedUpload env file →
  toolsAvoid env (path file) (path file) →
  (∀ target, toolsAvoid env (path file) (outputPathOf env file target)) →
  let ans := (convertRoute env (Req (Some file) raw) w).1 in
  let w' := (convertRoute env (Req (Some file) raw) w).2 in
  (path file ∉ files w')
  ∧ unlinks (path file) (trace w') = S (unlinks (path file) (trace w))
  ∧ ∀ target, safeParse raw = Some target →
      unlinks (outputPathOf env file target) (trace w')
      = unlinks (outputPathOf env file target) (trace w)
      ∧ ∀ status resp, ans = Ok (status, resp) → success resp = true →
          outputPathOf env file target ∈ files w'.
Proof.
  intros Hin Hstored Hself Havoid.
  unfold convertRoute, try_catch, convertBody. simpl.
  destruct (safeParse raw) as [target|] eqn:Hparse.
  2:{ unfold bind, unlinkSync. rewrite decide_True by done. simpl.
      split; [set_solver|]. split; [|done].
      rewrite unlinks_snoc, decide_True by done. lia. }
  destruct (stored_not_output env file target Hstored) as [Hne Htxt].
  assert (∀ w1 : world, path file ∈ files w1 →
    unlinkSync (path file) w1
    = (Ok (), World (files w1 ∖ {[path file]}) (trace w1 ++ [EvUnlink (path file)])))
    as Hunlink.
  { intros w1 H1. unfold unlinkSync. by rewrite decide_True. }
  destruct (selectConversion env file target) as [conversion|] eqn:Hsel.
  - pose proof (intact_selectConversion env (path file) file target conversion
                  Hsel (append_txt_ne _) Hself w) as [Hkeep Hcount].
    pose proof (intact_selectConversion env _ file target conversion
                  Hsel Htxt (Havoid target) w) as [_ Hcount_out].
    pose proof (produces_selectConversion env file target conversion
                  Hsel Htxt (Havoid target) w) as Hprod.
    unfold bind. destruct (conversion w) as [[[]|e] w1]; simpl in *.
    + rewrite Hunlink by auto. simpl.
      split; [set_solver|]. split.
      { rewrite unlinks_snoc, decide_True by done. lia. }
      intros ? [= <-]. split.
      * rewrite unlinks_snoc, decide_False; [lia|]. intros [= ?]. by apply Hne.
      * intros _ _ _ _. specialize (Hprod () eq_refl). set_solver.
    + unfold convertCatch, bind, consoleError, emit, unlinkIfExists, bind, existsSync.
      simpl. rewrite bool_decide_true by auto.
      rewrite Hunlink by (simpl; auto). simpl.
      split; [set_solver|]. split.
      { rewrite !unlinks_snoc, decide_False, decide_True by done. lia. }
      intros ? [= <-]. split; [|by intros ? ? [= <- <-]].
      rewrite !unlinks_snoc, !decide_False; [lia| |done].
      intros [= ?]. by apply Hne.
  - unfold bind. rewrite Hunlink by done. simpl.
    split; [set_solver|]. split.
    { rewrite unlinks_snoc, decide_True by done. lia. }
    intros ? [= <-]. split; [|by intros ? ? [= <- <-]].
    rewrite unlinks_snoc, decide_False; [lia|]. intros [= ?]. by apply Hne.
Qed.

Lemma input_deleted_exactly_once_witness :
  path (uploadOf "scan" "application/pdf") ∈ files (worldWith (uploadOf "scan" "application/pdf"))
  ∧ (path (uploadOf "scan" "application/pdf")
     ∉ files (convertRoute quietEnv
                (Req (Some (uploadOf "scan" "application/pdf")) (Some "WORD"))
                (worldWith (uploadOf "scan" "application/pdf"))).2)
  ∧ unlinks (path (uploadOf "scan" "application/pdf"))
      (trace (convertRoute quietEnv (Req (Some (uploadOf "scan" "application/pdf")) (Some "WORD"))
                (worldWith (uploadOf "scan" "application/pdf"))).2) = 1.
Proof.
  assert (path (uploadOf "scan" "application/pdf")
          ∈ files (worldWith (uploadOf "scan" "application/pdf"))) as Hin.
  { unfold worldWith. simpl. by apply elem_of_singleton_2. }
  split; [exact Hin|].
  assert (storedUpload quietEnv (uploadOf "scan" "application/pdf")) as Hstored.
  { exists "17-scan". reflexivity. }
  assert (∀ q, (∃ rest, q = "/srv/app/uploads/" +:+ rest)
               ∨ (∃ rest, q = "/srv/app/converted/1" +:+ rest) →
               toolsAvoid quietEnv (path (uploadOf "scan" "application/pdf")) q) as Havoid.
  { intros q Hq. split; intros n; simpl; intros [= H]; subst q;
      destruct Hq as [[rest Hq]|[rest Hq]]; cbv [String.append] in Hq; discriminate. }
  destruct (input_deleted_exactly_once quietEnv (uploadOf "scan" "application/pdf")
              (Some "WORD") (worldWith (uploadOf "scan" "application/pdf")) Hin Hstored)
    as (Ha & Hb & _).
  - apply Havoid. left. by eexists.
  - intros target. apply Havoid. right.
    destruct target; eexists; vm_compute; reflexivity.
  - split; [exact Ha|exact Hb].
Defined.

(** ** Attempts of a chain *)

#[local] Instance quiet_preorder : PreOrder quiet.
Proof. split; [by intros w|]. intros w1 w2 w3. unfold quiet. congruence. Qed.

Lemma attempts_snoc t e :
  attempts (t ++ [e]) = attempts t ++ match attemptOf e with Some a => [a] | None => [] end.
Proof. unfold attempts. rewrite omap_app. simpl. by destruct (attemptOf e). Qed.

Lemma quiet_emit e : attemptOf e = None → preserves quiet (emit e).
Proof. intros He w. unfold quiet. simpl. by rewrite attempts_snoc, He, app_nil_r. Qed.

Ltac quiet_leaf :=
  intros ?w; unfold quiet; simpl; repeat case_decide; repeat case_match; simpl;
  rewrite ?attempts_snoc; simpl; rewrite ?app_nil_r; done.

Lemma quiet_consoleError msg : preserves quiet (consoleError msg).
Proof. by apply quiet_emit. Qed.

Lemma quiet_toolWrite o p : preserves quiet (toolWrite o p).
Proof. unfold toolWrite, throw. quiet_leaf. Qed.

Lemma quiet_unlinkSync p : preserves quiet (unlinkSync p).
Proof. unfold unlinkSync. quiet_leaf. Qed.

Lemma quiet_renameSync a b : preserves quiet (renameSync a b).
Proof. unfold renameSync. quiet_leaf. Qed.

Lemma quiet_writeFileSync env p : preserves quiet (writeFileSync env p).
Proof. unfold writeFileSync, throw. quiet_leaf. Qed.

Lemma quiet_copyFileSync env a b : preserves quiet (copyFileSync env a b).
Proof. unfold copyFileSync. quiet_leaf. Qed.

Lemma quiet_convertPage r : preserves quiet (convertPage r).
Proof. unfold convertPage, ret, throw. quiet_leaf. Qed.

Lemma quiet_unlinkIfExists p : preserves quiet (unlinkIfExists p).
Proof. unfold unlinkIfExists, bind, existsSync, unlinkSync, ret. quiet_leaf. Qed.

#[local] Hint Resolve quiet_consoleError quiet_toolWrite quiet_unlinkSync quiet_renameSync
  quiet_writeFileSync quiet_copyFileSync quiet_convertPage quiet_unlinkIfExists : presv.

Section QuietStrategies.

Context (env : Env).

Lemma quiet_convertWithCloudConvert i o a b :
  preserves quiet (convertWithCloudConvert env i o a b).
Proof. unfold convertWithCloudConvert. preserves_go. Qed.

Lemma quiet_convertPdfToWordBasic i o : preserves quiet (convertPdfToWordBasic env i o).
Proof. unfold convertPdfToWordBasic, execAsync. preserves_go. Qed.

Lemma quiet_convertWordToPdfBasic i o : preserves quiet (convertWordToPdfBasic env i o).
Proof. unfold convertWordToPdfBasic. preserves_go. Qed.

Lemma quiet_cleanupImages paths : preserves quiet (cleanupImages paths).
Proof. induction paths as [|p rest IH]; simpl; preserves_go. Qed.

Lemma quiet_readImages paths : preserves quiet (readImages env paths).
Proof. induction paths as [|p rest IH]; simpl; preserves_go. Qed.

Lemma quiet_renderPages i todo : ∀ page paths,
  preserves quiet (renderPages env i page todo paths).
Proof.
  intros page paths w.
  destruct (renderPages_spec env i todo page paths w) as (added & pending & -> & _).
  unfold quiet, attempts. simpl. rewrite omap_app.
  replace (omap attemptOf (EvTool <$> added)) with (@nil (strategy * option string));
    [by rewrite app_nil_r|].
  induction added; simpl; done.
Qed.

Lemma quiet_convertPdfToWordSnapshot i o :
  preserves quiet (convertPdfToWordSnapshot env i o).
Proof.
  unfold convertPdfToWordSnapshot, getPdfPageCount.
  pose proof quiet_renderPages. pose proof quiet_readImages. pose proof quiet_cleanupImages.
  preserves_go.
Qed.

End QuietStrategies.

(** One step of a chain: the strategy is attempted, and the function returns
    exactly when it succeeded. *)
Lemma returnedOrLogged_attempt s (m : M unit) label w :
  preserves quiet m →
  ∃ failure w',
    returnedOrLogged (attempt s m) label w = (Ok (bool_decide (failure = None)), w')
    ∧ attempts (trace w') = attempts (trace w) ++ [(s, failure)].
Proof.
  intros Hm. unfold returnedOrLogged, try_catch, bind, attempt. specialize (Hm w).
  destruct (m w) as [[[]|e] w1]; simpl in *.
  - eexists None, _. split; [done|]. simpl. rewrite attempts_snoc. simpl. by rewrite Hm.
  - eexists (Some e), _. split; [done|]. simpl. rewrite !attempts_snoc. simpl.
    by rewrite app_nil_r, Hm.
Qed.

Lemma final_attempt s (m : M unit) w :
  preserves quiet m →
  attempts (trace (attempt s m w).2)
  = attempts (trace w) ++ [(s, errorOf (attempt s m w).1)].
Proof.
  intros Hm. unfold attempt. specialize (Hm w).
  destruct (m w) as [r w1]; simpl in *. rewrite attempts_snoc. simpl. by rewrite Hm.
Qed.

Lemma chain_last s (m : M unit) w :
  preserves quiet m →
  chainOutcome [s] w (attempt s m w).1 (attempt s m w).2.
Proof.
  intros Hm. exists [(s, errorOf (attempt s m w).1)].
  split; [by apply final_attempt|]. split; [|done].
  destruct (errorOf _); constructor.
Qed.

Lemma chain_cons s (m : M unit) label (rest : M unit) chain w :
  preserves quiet m → chain ≠ [] →
  (∀ w1, chainOutcome chain w1 (rest w1).1 (rest w1).2) →
  let run := bind (returnedOrLogged (attempt s m) label)
                  (fun returned : bool => if returned then ret () else rest) in
  chainOutcome (s :: chain) w (run w).1 (run w).2.
Proof.
  intros Hm Hchain Hrest run. subst run. unfold bind.
  destruct (returnedOrLogged_attempt s m label w Hm) as (f & w1 & -> & Hw1).
  destruct f as [msg|]; simpl.
  - destruct (Hrest w1) as (new & H1 & H2 & H3 & H4).
    exists ((s, Some msg) :: new). rewrite H1, Hw1, <- app_assoc. simpl.
    split; [done|]. split; [by constructor|]. split.
    { destruct new as [|a new']; [inversion H2|]. exact H3. }
    intros H. simpl. f_equal. by apply H4.
  - exists [(s, None)]. split; [done|]. split; [constructor|done].
Qed.

Lemma convertPdfToWord_outcome env inputPath outputPath w :
  chainOutcome (pdfToWordChain env) w
    (convertPdfToWord env inputPath outputPath w).1
    (convertPdfToWord env inputPath outputPath w).2.
Proof.
  pose proof (quiet_convertWithCloudConvert env inputPath outputPath "pdf" "docx") as Hq1.
  pose proof (quiet_convertPdfToWordSnapshot env inputPath outputPath) as Hq2.
  pose proof (quiet_convertPdfToWordBasic env inputPath outputPath) as Hq3.
  assert (∀ w1, chainOutcome [PdfToWordSnapshot; PdfToWordBasic] w1
    (bind (returnedOrLogged
             (attempt PdfToWordSnapshot (convertPdfToWordSnapshot env inputPath outputPath))
             "PDF snapshot-to-WORD fallback failed:")
          (fun returned : bool => if returned then ret ()
             else attempt PdfToWordBasic (convertPdfToWordBasic env inputPath outputPath))
          w1).1
    (bind (returnedOrLogged
             (attempt PdfToWordSnapshot (convertPdfToWordSnapshot env inputPath outputPath))
             "PDF snapshot-to-WORD fallback failed:")
          (fun returned : bool => if returned then ret ()
             else attempt PdfToWordBasic (convertPdfToWordBasic env inputPath outputPath))
          w1).2) as Hlocal.
  { intros w1. apply (chain_cons PdfToWordSnapshot); [done..|].
    intros w2. by apply chain_last. }
  unfold convertPdfToWord, pdfToWordChain.
  destruct (cloudConvert env) eqn:Hcc; simpl; [|apply Hlocal].
  by apply (chain_cons Remote _ "CloudConvert failed, falling back to basic conversion:"
              _ [PdfToWordSnapshot; PdfToWordBasic] w Hq1).
Qed.

(** C2. A PDF-to-WORD job attempts its strategies in the order of the chain
    remote (only with a CloudConvert credential), page snapshot, text
    extraction, and stops at the first success. Without a credential the
    remote strategy is not among the attempts at all; with one it is the
    first attempt, and when it fails the local strategies follow: the
    function only fails once the whole chain has been attempted, with the
    failure of the last attempt. *)
Theorem pdf_to_word_chain_order env inputPath outputPath w :
  let r := (convertPdfToWord env inputPath outputPath w).1 in
  let w' := (convertPdfToWord env inputPath outputPath w).2 in
  ∃ new, attempts (trace w') = attempts (trace w) ++ new
    ∧ chainRun (pdfToWordChain env) new
    ∧ snd <$> last new = Some (errorOf r)
    ∧ (cloudConvert env = false → Remote ∉ new.*1)
    ∧ (cloudConvert env = true → fst <$> head new = Some Remote)
    ∧ (errorOf r ≠ None → new.*1 = pdfToWordChain env).
Proof.
  destruct (convertPdfToWord_outcome env inputPath outputPath w)
    as (new & H1 & H2 & H3 & H4).
  exists new. split; [exact H1|]. split; [exact H2|]. split; [exact H3|].
  split; [|split; [|exact H4]].
  - intros Hcc. unfold pdfToWordChain in H2. rewrite Hcc in H2. simpl in H2.
    inversion H2 as [| |? ? ? ? ? Hrest]; subst; simpl; [set_solver..|].
    inversion Hrest; subst; simpl; set_solver.
  - intros Hcc. unfold pdfToWordChain in H2. rewrite Hcc in H2. simpl in H2.
    by inversion H2.
Qed.

(** ** The last failure of a chain is the one surfaced *)

Lemma raisesOnly_catch {A} msg (m : M A) h :
  (∀ e, raisesOnly msg (h e)) → raisesOnly msg (try_catch m h).
Proof.
  intros Hh w e. unfold try_catch. destruct (m w) as [[a|e'] w1]; [done|apply Hh].
Qed.

Lemma raisesOnly_log_throw {A} msg logged : raisesOnly msg (bind (consoleError logged) (fun _ => @throw A msg)).
Proof. intros w e. simpl. by intros [= <-]. Qed.

Lemma convertPdfToWordBasic_raises env i o :
  raisesOnly pdfToWordBasicMessage (convertPdfToWordBasic env i o).
Proof.
  unfold convertPdfToWordBasic. apply raisesOnly_catch. intros e0 w e.
  unfold bind, unlinkIfExists, bind, existsSync, unlinkSync. simpl.
  case_bool_decide; [rewrite decide_True by done|]; simpl; by intros [= <-].
Qed.

Lemma convertWordToPdfBasic_raises env i o :
  raisesOnly wordToPdfBasicMessage (convertWordToPdfBasic env i o).
Proof.
  unfold convertWordToPdfBasic. apply raisesOnly_catch. intros e0.
  apply raisesOnly_log_throw.
Qed.

Lemma attempt_result {A} s (m : M A) w : (attempt s m w).1 = (m w).1.
Proof. unfold attempt. by destruct (m w). Qed.

Lemma convertPdfToWord_lastSurfaced env i o w :
  lastSurfaced pdfToWordBasicMessage w
    (convertPdfToWord env i o w).1 (convertPdfToWord env i o w).2.
Proof.
  destruct (convertPdfToWord_outcome env i o w) as (new & H1 & H2 & H3 & H6).
  exists new. split; [done|]. intros _ Hfailed.
  destruct (last new) as [[s f]|] eqn:Hlast; [|done]. simpl in H3. injection H3 as H3.
  assert (failedAttempt (s, f)) as Hf.
  { eapply Forall_forall; [done|]. by eapply last_Some_elem_of. }
  destruct f as [msg|]; [|done].
  destruct (convertPdfToWord env i o w).1 as [[]|e] eqn:Hr; [done|].
  simpl in H3. injection H3 as ->.
  assert (e = pdfToWordBasicMessage) as ->; [|by eauto].
  revert Hr. unfold convertPdfToWord, bind.
  assert (∀ w1 : world, (attempt PdfToWordBasic (convertPdfToWordBasic env i o) w1).1 = Throw e
                        → e = pdfToWordBasicMessage) as Hbasic.
  { intros w1. rewrite attempt_result. apply convertPdfToWordBasic_raises. }
  assert (∀ w1 : world,
    (match returnedOrLogged
             (attempt PdfToWordSnapshot (convertPdfToWordSnapshot env i o))
             "PDF snapshot-to-WORD fallback failed:" w1 with
     | (Ok a, w2) => (if a then ret () else attempt PdfToWordBasic (convertPdfToWordBasic env i o)) w2
     | (Throw e0, w2) => (Throw e0, w2)
     end).1 = Throw e → e = pdfToWordBasicMessage) as Hlocal.
  { intros w1.
    destruct (returnedOrLogged_attempt PdfToWordSnapshot _
                "PDF snapshot-to-WORD fallback failed:" w1
                (quiet_convertPdfToWordSnapshot env i o)) as (f & w2 & -> & _).
    destruct (bool_decide _); [done|apply Hbasic]. }
  destruct (cloudConvert env); simpl; [|apply Hlocal].
  destruct (returnedOrLogged_attempt Remote _
              "CloudConvert failed, falling back to basic conversion:" w
              (quiet_convertWithCloudConvert env i o "pdf" "docx")) as (f & w1 & -> & _).
  destruct (bool_decide _); [done|apply Hlocal].
Qed.

Lemma convertWordToPdf_lastSurfaced env i o mime w :
  lastSurfaced wordToPdfBasicMessage w
    (convertWordToPdf env i o mime w).1 (convertWordToPdf env i o mime w).2.
Proof.
  unfold convertWordToPdf, lastSurfaced, bind. cbv zeta.
  set (isOldDoc := String.eqb mime "application/msword" || endsWith ".doc" (toLowerCase i)).
  pose proof (quiet_convertWordToPdfBasic env i o) as Hq.
  destruct (cloudConvert env); simpl.
  - destruct (returnedOrLogged_attempt Remote
                (convertWithCloudConvert env i o (if isOldDoc then "doc" else "docx") "pdf")
                "CloudConvert failed, falling back to basic conversion:" w
                (quiet_convertWithCloudConvert env i o _ "pdf")) as (f & w1 & -> & Hw1).
    destruct f as [msg|]; simpl.
    + destruct isOldDoc; simpl.
      * exists [(Remote, Some msg)]. split; [done|]. simpl. lia.
      * exists [(Remote, Some msg);
                (WordToPdfBasic, errorOf (attempt WordToPdfBasic (convertWordToPdfBasic env i o) w1).1)].
        split. { rewrite final_attempt, Hw1, <- app_assoc by done. done. }
        intros _ Hfailed. apply Forall_cons in Hfailed as [_ Hfailed].
        apply Forall_cons in Hfailed as [Hfailed _]. unfold failedAttempt in Hfailed.
        simpl in *.
        destruct (attempt WordToPdfBasic (convertWordToPdfBasic env i o) w1).1
          as [[]|e] eqn:Hr; [done|].
        rewrite attempt_result in Hr. apply convertWordToPdfBasic_raises in Hr as ->.
        by eauto.
    + exists [(Remote, None)]. split; [done|]. simpl. lia.
  - destruct isOldDoc; simpl.
    + exists []. rewrite app_nil_r. split; [done|]. simpl. lia.
    + eexists [_]. split; [by apply final_attempt|]. simpl. lia.
Qed.

Section Route.

Context (env : Env).

(** What the route makes of a selected conversion. *)
Lemma route_of_conversion file raw target conversion w :
  safeParse raw = Some target →
  selectConversion env file target = Some conversion →
  attempts (trace (convertRoute env (Req (Some file) raw) w).2)
  = attempts (trace (conversion w).2)
  ∧ ∀ e, (conversion w).1 = Throw e →
      (convertRoute env (Req (Some file) raw) w).1
      = Ok (500, failed (if bool_decide (e = "") then defaultErrorMessage else e) None None).
Proof.
  intros Hparse Hsel. unfold convertRoute, try_catch, convertBody. simpl.
  rewrite Hparse, Hsel. unfold bind.
  assert (∀ e w1, attempts (trace (convertCatch (Req (Some file) raw) e w1).2)
                  = attempts (trace w1)
                  ∧ (convertCatch (Req (Some file) raw) e w1).1
                    = Ok (500, failed (if bool_decide (e = "") then defaultErrorMessage else e)
                                 None None)) as Hcatch.
  { intros e w1. unfold convertCatch, bind, consoleError, emit, unlinkIfExists, bind,
      existsSync, unlinkSync. simpl.
    case_bool_decide; [rewrite decide_True by done|]; simpl;
      rewrite ?attempts_snoc; simpl; by rewrite ?app_nil_r. }
  destruct (conversion w) as [[[]|e] w1]; simpl.
  - split; [|done]. unfold unlinkSync. case_decide; simpl.
    + rewrite attempts_snoc. simpl. by rewrite app_nil_r.
    + apply Hcatch.
  - split; [apply Hcatch|]. intros ? [= <-]. apply Hcatch.
Qed.

(** What the route answers when no conversion is selected. *)
Lemma route_unsupported file raw target w :
  safeParse raw = Some target →
  selectConversion env file target = None →
  path file ∈ files w →
  (convertRoute env (Req (Some file) raw) w).1
  = Ok (400, failed (unsupportedMessage (mimetype file) target)
               (Some (getFormatFromMime (mimetype file))) (Some (formatName target))).
Proof.
  intros Hparse Hsel Hin. unfold convertRoute, try_catch, convertBody. simpl.
  rewrite Hparse, Hsel. unfold bind, unlinkSync. by rewrite decide_True.
Qed.

End Route.

(** C3. Take a PDF-to-WORD or a Word-to-PDF job. When more than one
    strategy was attempted during the request and every attempt failed, the
    answer is the failure answer whose error is the failure message of the
    last attempt; the answer has no other field, so no earlier failure
    message is part of it. *)
Theorem last_failure_surfaced env file raw target w :
  safeParse raw = Some target →
  (isPdfMime (mimetype file) = true ∧ target = WORD)
  ∨ (isWordMime (mimetype file) = true ∧ target = PDF) →
  let ans := (convertRoute env (Req (Some file) raw) w).1 in
  let w' := (convertRoute env (Req (Some file) raw) w).2 in
  ∃ new, attempts (trace w') = attempts (trace w) ++ new
    ∧ (1 < length new → Forall failedAttempt new →
       ∃ s msg, last new = Some (s, Some msg)
                ∧ ans = Ok (500, failed msg None None)).
Proof.
  intros Hparse Hrow.
  assert (∃ conversion msg,
            selectConversion env file target = Some conversion
            ∧ msg ≠ ""
            ∧ lastSurfaced msg w (conversion w).1 (conversion w).2)
    as (conversion & msg & Hsel & Hmsg & (new & Hnew & Hlast)).
  { destruct Hrow as [[Hmime ->]|[Hmime ->]].
    - exists (convertPdfToWord env (path file) (outputPathOf env file WORD)),
        pdfToWordBasicMessage.
      split; [|split; [done|apply convertPdfToWord_lastSurfaced]].
      unfold selectConversion. apply String.eqb_eq in Hmime. rewrite Hmime. done.
    - exists (convertWordToPdf env (path file) (outputPathOf env file PDF) (mimetype file)),
        wordToPdfBasicMessage.
      split; [|split; [done|apply convertWordToPdf_lastSurfaced]].
      unfold selectConversion. rewrite Hmime.
      apply orb_true_iff in Hmime as [->%String.eqb_eq| ->%String.eqb_eq]; done. }
  destruct (route_of_conversion env file raw target conversion w Hparse Hsel)
    as [Hattempts Hthrow].
  exists new. split; [by rewrite Hattempts|].
  intros Hlen Hfailed. destruct (Hlast Hlen Hfailed) as (s & Hs & Hr).
  exists s, msg. split; [done|]. rewrite (Hthrow msg Hr).
  by rewrite bool_decide_false.
Qed.

Lemma last_failure_surfaced_witness :
  safeParse (Some "WORD") = Some WORD
  ∧ attempts (trace (convertRoute failingEnv
                       (Req (Some (uploadOf "scan" "application/pdf")) (Some "WORD"))
                       (worldWith (uploadOf "scan" "application/pdf"))).2)
    = [(Remote, Some "CloudConvert conversion failed: quota exceeded");
       (PdfToWordSnapshot, Some "PDF appears to be empty");
       (PdfToWordBasic, Some pdfToWordBasicMessage)]
  ∧ (convertRoute failingEnv
       (Req (Some (uploadOf "scan" "application/pdf")) (Some "WORD"))
       (worldWith (uploadOf "scan" "application/pdf"))).1
    = Ok (500, failed pdfToWordBasicMessage None None).
Proof.
  split; [reflexivity|]. split; [vm_compute; reflexivity|].
  destruct (last_failure_surfaced failingEnv (uploadOf "scan" "application/pdf")
              (Some "WORD") WORD (worldWith (uploadOf "scan" "application/pdf")) eq_refl
              (or_introl (conj eq_refl eq_refl))) as (new & Hnew & Hlast).
  simpl in Hnew. subst new.
  destruct Hlast as (s & msg & Hl & Hans).
  - vm_compute. lia.
  - vm_compute. repeat constructor; discriminate.
  - rewrite Hans. vm_compute in Hl. by injection Hl as _ <-.
Defined.

(** ** The answer is a success or a failure, never both *)

Lemma append_not_empty (a b : string) : b ≠ "" → a +:+ b ≠ "".
Proof. destruct a; [done|]. intros _. discriminate. Qed.

(** C1. Whatever the request, the file system and the answers of the
    engines, the handler answers, and its answer is either a success with a
    non-empty filename and no error, or a failure with a non-empty error and
    no filename. It is a failure whenever the request has no file, the
    target is invalid, no conversion is selected for the pair, or the
    selected conversion raises; it is a success exactly when the selected
    conversion returns and the upload is there to be unlinked. *)
Theorem outcome_is_unambiguous env req w :
  ∃ status resp w',
    convertRoute env req w = (Ok (status, resp), w')
    ∧ ((success resp = true ∧ (∃ f, filename resp = Some f ∧ f ≠ "") ∧ error resp = None)
       ∨ (success resp = false ∧ (∃ e, error resp = Some e ∧ e ≠ "")
          ∧ filename resp = None))
    ∧ (req_file req = None → success resp = false)
    ∧ (∀ file, req_file req = Some file →
       (safeParse (req_targetFormat req) = None → success resp = false)
       ∧ ∀ target, safeParse (req_targetFormat req) = Some target →
           (selectConversion env file target = None → success resp = false)
           ∧ ∀ conversion, selectConversion env file target = Some conversion →
               (∀ e, (conversion w).1 = Throw e → success resp = false)
               ∧ (success resp = true
                  ↔ (conversion w).1 = Ok () ∧ path file ∈ files (conversion w).2)).
Proof.
  assert (∀ e w1, ∃ status resp w',
    convertCatch req e w1 = (Ok (status, resp), w')
    ∧ success resp = false ∧ (∃ e, error resp = Some e ∧ e ≠ "") ∧ filename resp = None)
    as Hcatch.
  { intros e w1. unfold convertCatch, bind, consoleError, emit. simpl.
    assert (∃ w2, match req_file req with
                  | Some file => unlinkIfExists (path file)
                  | None => ret ()
                  end (World (files w1) (trace w1 ++ [EvConsoleError ("Conversion error: " +:+ e)]))
                  = (Ok (), w2)) as [w2 ->].
    { destruct (req_file req) as [file|]; [|by eexists].
      unfold unlinkIfExists, bind, existsSync, unlinkSync. simpl.
      case_bool_decide; [rewrite decide_True by done|]; by eexists. }
    eexists _, _, _. split; [done|]. simpl. split; [done|]. split; [|done].
    eexists. split; [done|]. by case_bool_decide. }
  destruct req as [|[file|] raw].
  - (* no body: reading [req.body.targetFormat] raises *)
    unfold convertRoute, try_catch, convertBody, throw.
    destruct (Hcatch (typeErrorMessage env) w) as (st & resp & w' & Heq & Hs & He & Hf).
    exists st, resp, w'. split; [exact Heq|]. split; [by right|]. split; [done|].
    by intros file.
  - unfold convertRoute, try_catch, convertBody. simpl req_file. simpl req_targetFormat.
    assert (∀ (msg : string) o1 o2, msg ≠ "" → ∃ status resp w',
      (match bind (unlinkSync (path file)) (fun _ => ret (400, failed msg o1 o2)) w with
       | (Ok a, w') => (Ok a, w')
       | (Throw e, w') => convertCatch (Req (Some file) raw) e w'
       end) = (Ok (status, resp), w')
      ∧ success resp = false ∧ (∃ e, error resp = Some e ∧ e ≠ "") ∧ filename resp = None)
      as Hfail.
    { intros msg o1 o2 Hmsg. unfold bind, unlinkSync.
      case_decide; simpl; [|apply Hcatch].
      eexists _, _, _. split; [done|]. simpl. eauto. }
    destruct (safeParse raw) as [target|] eqn:Hparse.
    2:{ destruct (Hfail invalidTargetMessage None None) as (st & resp & w' & Heq & Hs & ?);
          [done|].
        exists st, resp, w'. split; [exact Heq|]. split; [by right|]. split; [done|].
        intros ? [= <-]. split; [done|]. by intros target. }
    destruct (selectConversion env file target) as [conversion|] eqn:Hsel.
    2:{ edestruct (Hfail (unsupportedMessage (mimetype file) target))
          as (st & resp & w' & Heq & Hs & ?).
        { unfold unsupportedMessage. cbv [String.append]. discriminate. }
        exists st, resp, w'. split; [exact Heq|]. split; [by right|]. split; [done|].
        intros ? [= <-]. split; [done|]. intros ? [= <-]. split; [done|].
        intros conversion. rewrite Hsel. done. }
    unfold bind.
    destruct (conversion w) as [[[]|e] w1] eqn:Hrun; simpl.
    + unfold unlinkSync. case_decide as Hin; simpl.
      * eexists _, _, _. split; [done|]. simpl. split.
        { left. split; [done|]. split; [|done].
          eexists. split; [done|]. unfold outputFilenameOf.
          apply append_not_empty. cbv [String.append]. discriminate. }
        split; [done|]. intros ? [= <-]. split; [done|]. intros ? [= <-].
        split; [by rewrite Hsel|]. intros ? Hc. rewrite Hsel in Hc. injection Hc as <-.
        rewrite Hrun. simpl. split; [done|]. by split.
      * destruct (Hcatch (enoent "unlink" (path file)) w1)
          as (st & resp & w' & Heq & Hs & ?).
        exists st, resp, w'. split; [exact Heq|]. split; [by right|]. split; [done|].
        intros ? [= <-]. split; [done|]. intros ? [= <-].
        split; [by rewrite Hsel|]. intros ? Hc. rewrite Hsel in Hc. injection Hc as <-.
        rewrite Hrun. simpl. split; [done|].
        split; [congruence|]. by intros [_ ?].
    + destruct (Hcatch e w1) as (st & resp & w' & Heq & Hs & ?).
      exists st, resp, w'. split; [exact Heq|]. split; [by right|]. split; [done|].
      intros ? [= <-]. split; [done|]. intros ? [= <-].
      split; [by rewrite Hsel|]. intros ? Hc. rewrite Hsel in Hc. injection Hc as <-.
      rewrite Hrun. simpl. split; [done|].
      split; [congruence|]. by intros [? _].
  - (* no file *)
    eexists _, _, _. split; [done|]. simpl. split; [right; eauto|]. split; [done|].
    by intros file.
Qed.

(** ** A blank Word document *)

(** C9. When the raw text extracted from a Word document is empty or blank,
    the local Word-to-PDF strategy fails and leaves the file system as it
    was, so it writes no output file. The failure it surfaces, however, is
    the generic one of its catch-all handler, the same as when the
    extraction itself raises; the empty-document message is only logged. *)
Theorem blank_document_reported_as_corrupted env inputPath outputPath text w :
  mammothText env inputPath = Ok text →
  text = [] ∨ length (JS.trim text) = 0 →
  convertWordToPdfBasic env inputPath outputPath w
  = (Throw wordToPdfBasicMessage,
     World (files w)
       (trace w ++ [EvConsoleError
          "WORD to PDF basic conversion error: No text content found in the document"]))
  ∧ ∀ env' msg,
      mammothText env' inputPath = Throw msg →
      (convertWordToPdfBasic env' inputPath outputPath w).1 = Throw wordToPdfBasicMessage.
Proof.
  intros Htext Hblank. split.
  - unfold convertWordToPdfBasic, try_catch, bind. rewrite Htext. simpl.
    assert (bool_decide (text = []) || bool_decide (length (JS.trim text) = 0) = true) as ->.
    { destruct Hblank as [H|H]; rewrite (bool_decide_true _ H); [done|apply orb_true_r]. }
    done.
  - intros env' msg Hmsg. unfold convertWordToPdfBasic, try_catch, bind.
    by rewrite Hmsg.
Qed.

Lemma blank_document_reported_as_corrupted_witness :
  mammothText quietEnv "/srv/app/uploads/17-blank" = Ok (JS.lit "   ")
  ∧ (convertWordToPdfBasic quietEnv "/srv/app/uploads/17-blank" "/srv/app/converted/out.pdf"
       (World ∅ [])).1
    = Throw "Failed to convert WORD to PDF. The document may be corrupted.".
Proof.
  split; [reflexivity|].
  by rewrite (proj1 (blank_document_reported_as_corrupted quietEnv
    "/srv/app/uploads/17-blank" "/srv/app/converted/out.pdf" (JS.lit "   ") (World ∅ [])
    eq_refl (or_intror eq_refl))).
Defined.

(** ** The hint of the not-supported answer *)

Lemma isPdfMime_eq mime : isPdfMime mime = true → mime = "application/pdf".
Proof. apply String.eqb_eq. Qed.

Lemma isTextMime_eq mime : isTextMime mime = true → mime = "text/plain".
Proof. apply String.eqb_eq. Qed.

Lemma isWordMime_eq mime :
  isWordMime mime = true → mime = "application/msword" ∨ mime = docxMime.
Proof. intros [H|H]%orb_true_iff; apply String.eqb_eq in H; auto. Qed.

Ltac mime_cases mime :=
  destruct (isPdfMime mime) eqn:?Hpdf;
    [ match goal with H : isPdfMime mime = true |- _ => apply isPdfMime_eq in H as -> end
    | destruct (isWordMime mime) eqn:?Hword;
      [ match goal with H : isWordMime mime = true |- _ =>
          apply isWordMime_eq in H as [-> | ->] end
      | destruct (isTextMime mime) eqn:?Htext;
        [ match goal with H : isTextMime mime = true |- _ =>
            apply isTextMime_eq in H as -> end
        | destruct (isImageMime mime) eqn:?Himage ] ] ].

(** C4. The targets the handler converts to, by source kind, next to
    the targets its not-supported message names. They agree for images, PDFs
    and text files (whose passthrough target TXT is named); for Word
    documents the handler also converts to WORD (the passthrough row) but
    the message names PDF only. A request for a target outside the
    supported ones is answered with that message. *)
Theorem unsupported_hint_vs_table env file :
  supportedTargets env file
  = match classifySource (mimetype file) with
    | Image => [PNG; JPG; WEBP; TIFF; PDF]
    | Pdf => [PNG; JPG; WEBP; TIFF; TXT; WORD]
    | WordDocument => [PDF; WORD]
    | PlainText => [PDF; TXT]
    | Unknown => []
    end
  ∧ supportedHint (mimetype file)
    = match classifySource (mimetype file) with
      | Image => "Images can be converted to: PNG, JPG, WEBP, TIFF, PDF."
      | Pdf => "PDFs can be converted to: PNG, JPG, WEBP, TIFF, TXT, WORD."
      | WordDocument => "WORD documents can be converted to: PDF."
      | PlainText => "Text files can be converted to: PDF, TXT."
      | Unknown => "This file format is not supported for conversion."
      end
  ∧ (∀ raw target w,
      safeParse raw = Some target → target ∉ supportedTargets env file →
      path file ∈ files w →
      (convertRoute env (Req (Some file) raw) w).1
      = Ok (400, failed ("Cannot convert " +:+ getFormatFromMime (mimetype file)
                         +:+ " to " +:+ formatName target +:+ ". "
                         +:+ supportedHint (mimetype file))
                   (Some (getFormatFromMime (mimetype file))) (Some (formatName target))))
  ∧ (convertRoute quietEnv (Req (Some (uploadOf "report" docxMime)) (Some "PNG"))
       (worldWith (uploadOf "report" docxMime))).1
    = Ok (400, failed "Cannot convert WORD to PNG. WORD documents can be converted to: PDF."
                 (Some "WORD") (Some "PNG"))
  ∧ is_Some (selectConversion quietEnv (uploadOf "report" docxMime) WORD).
Proof.
  split; [|split; [|split; [|split]]].
  - unfold supportedTargets, classifySource, selectConversion.
    destruct file as [p mime name]. simpl.
    mime_cases mime; try reflexivity; rewrite ?Hpdf, ?Hword, ?Htext, ?Himage; reflexivity.
  - unfold supportedHint, classifySource.
    mime_cases (mimetype file); try reflexivity;
      rewrite ?Hpdf, ?Hword, ?Htext, ?Himage; reflexivity.
  - intros raw target w Hparse Hnot Hin.
    apply route_unsupported; [done| |done].
    destruct (selectConversion env file target) as [conversion|] eqn:Hsel; [|done].
    exfalso. apply Hnot. unfold supportedTargets. apply list_elem_of_filter.
    split; [by rewrite Hsel|]. destruct target; set_solver.
  - vm_compute. reflexivity.
  - by eexists.
Qed.

(** ** The classifier *)

Lemma prefix_cons_inv a s1 s2 :
  String.prefix (String a s1) s2 = true →
  ∃ s2', s2 = String a s2' ∧ String.prefix s1 s2' = true.
Proof.
  destruct s2 as [|b s2]; simpl; [discriminate|].
  destruct (ascii_dec a b) as [<-|]; [|discriminate]. eauto.
Qed.

Lemma prefix_append s rest : String.prefix s (s +:+ rest) = true.
Proof.
  induction s as [|a s IH]; [by destruct rest|].
  change (String a s +:+ rest) with (String a (s +:+ rest)). simpl.
  by destruct (ascii_dec a a).
Qed.

Lemma isImageMime_iff mime : isImageMime mime = true ↔ ∃ rest, mime = "image/" +:+ rest.
Proof.
  unfold isImageMime. split.
  - intros H.
    do 6 (apply prefix_cons_inv in H as (? & -> & H)).
    by eexists.
  - intros [rest ->]. apply prefix_append.
Qed.

Lemma unknown_not_in_mimeMap mime :
  classifySource mime = Unknown → mimeMap !! mime = None.
Proof.
  intros H. apply not_elem_of_list_to_map_1. simpl. intros Hin.
  repeat (apply elem_of_cons in Hin as [->|Hin]; [by vm_compute in H|]).
  by apply elem_of_nil in Hin.
Qed.

Lemma unknown_kind_tests mime :
  classifySource mime = Unknown →
  isImageMime mime = false ∧ isPdfMime mime = false
  ∧ isWordMime mime = false ∧ isTextMime mime = false.
Proof.
  unfold classifySource.
  destruct (isImageMime mime); [done|]. destruct (isPdfMime mime); [done|].
  destruct (isWordMime mime); [done|]. by destruct (isTextMime mime).
Qed.

(** C7, as amended. The classifier is a total function: content types that
    start with [image/] are images, [application/pdf] is a PDF, [text/plain]
    is plain text, the two Word content types are Word documents, and every
    other content type is of unknown kind. A request with a content type of
    unknown kind gets the default not-supported answer; the original format
    it reports is the upper-cased text after the last slash of the content
    type ([MPEG] for [audio/mpeg]), and [UNKNOWN] only when that text is
    empty. *)
Theorem classifier_total (mime : string) :
  (classifySource mime = Image ↔ ∃ rest, mime = "image/" +:+ rest)
  ∧ (classifySource mime = Pdf ↔ mime = "application/pdf")
  ∧ (classifySource mime = PlainText ↔ mime = "text/plain")
  ∧ (classifySource mime = WordDocument ↔ mime = "application/msword" ∨ mime = docxMime)
  ∧ (classifySource mime = Unknown ↔
       isImageMime mime = false ∧ mime ≠ "application/pdf" ∧ mime ≠ "text/plain"
       ∧ mime ≠ "application/msword" ∧ mime ≠ docxMime)
  ∧ (classifySource mime = Unknown →
       getFormatFromMime mime
       = if bool_decide (lastSegment mime = "") then "UNKNOWN"
         else toUpperCase (lastSegment mime))
  ∧ getFormatFromMime "audio/mpeg" = "MPEG"
  ∧ ∀ env file raw target w,
      mimetype file = mime → classifySource mime = Unknown →
      safeParse raw = Some target → path file ∈ files w →
      (convertRoute env (Req (Some file) raw) w).1
      = Ok (400, failed ("Cannot convert " +:+ getFormatFromMime mime +:+ " to "
                         +:+ formatName target
                         +:+ ". This file format is not supported for conversion.")
                   (Some (getFormatFromMime mime)) (Some (formatName target))).
Proof.
  rewrite <- isImageMime_iff.
  split; [|split; [|split; [|split; [|split; [|split; [|split]]]]]].
  - unfold classifySource. mime_cases mime; try done. all: by rewrite ?Himage.
  - unfold classifySource. split; [|by intros ->].
    mime_cases mime; try done. all: by rewrite ?Himage.
  - unfold classifySource. split; [|by intros ->].
    mime_cases mime; try done. all: by rewrite ?Himage.
  - unfold classifySource. split; [|by intros [-> | ->]].
    mime_cases mime; try done; auto. all: by rewrite ?Himage.
  - unfold classifySource. split.
    + mime_cases mime; try done. all: rewrite ?Himage; try done.
      intros _. split; [done|].
      repeat split; intros ->; done.
    + intros (Hi & Hp & Ht & Hw & Hd). rewrite Hi.
      destruct (isPdfMime mime) eqn:E1; [by apply isPdfMime_eq in E1|].
      destruct (isWordMime mime) eqn:E2; [by apply isWordMime_eq in E2 as [?|?]|].
      destruct (isTextMime mime) eqn:E3; [by apply isTextMime_eq in E3|]. done.
  - intros H. unfold getFormatFromMime. rewrite (unknown_not_in_mimeMap _ H). simpl.
    destruct (lastSegment mime) as [|c rest] eqn:E; [done|].
    rewrite bool_decide_false; [|done]. by rewrite bool_decide_false.
  - reflexivity.
  - intros env file raw target w <- Hunknown Hparse Hin.
    destruct (unknown_kind_tests _ Hunknown) as (Hi & Hp & Hw & Ht).
    rewrite (route_unsupported env file raw target w Hparse); [|
      unfold selectConversion; by rewrite Hi, Hp, Hw, Ht|done].
    unfold unsupportedMessage, supportedHint. by rewrite Hi, Hp, Hw, Ht.
Qed.

(** The original format reported for [audio/mpeg] is [MPEG], not Unknown. *)
Lemma audio_original_format_is_not_unknown :
  classifySource "audio/mpeg" = Unknown
  ∧ (convertRoute quietEnv (Req (Some (uploadOf "song" "audio/mpeg")) (Some "PNG"))
       (worldWith (uploadOf "song" "audio/mpeg"))).1
    = Ok (400, failed "Cannot convert MPEG to PNG. This file format is not supported for conversion."
                 (Some "MPEG") (Some "PNG"))
  ∧ getFormatFromMime "audio/mpeg" ≠ "UNKNOWN"
  ∧ getFormatFromMime "audio/mpeg" ≠ "Unknown".
Proof. vm_compute. repeat split; discriminate. Qed.

(** * Further properties *)

(** ** Sanitizing twice *)

Lemma sanitize_printable_id text :
  Forall printable text → sanitizeTextForPdf text = text.
Proof.
  intros H. unfold sanitizeTextForPdf.
  induction H as [|c text Hc _ IH]; [done|].
  assert (isControl c = false ∧ isPrivateHigh c = false ∧ isKept c = true) as (H1 & H2 & H3).
  { unfold printable, isControl, isPrivateHigh, isKept in *.
    repeat split; repeat case_bool_decide; try done; lia. }
  rewrite filter_cons, decide_True by done.
  rewrite filter_cons, decide_True by done.
  simpl. rewrite H3. simpl. f_equal. exact IH.
Qed.

Lemma replaceChar_length c : length (replaceChar c) ≤ 3.
Proof.
  unfold replaceChar. destruct (replacements !! c) as [l|] eqn:E; [|simpl; lia].
  apply elem_of_list_to_map_2 in E.
  repeat (apply elem_of_cons in E as [E|E]; [inversion E; subst; simpl; lia|]).
  by apply elem_of_nil in E.
Qed.

Lemma bind_length_le {A B} (f : A → list B) (n : nat) (l : list A) :
  (∀ x, length (f x) ≤ n) → length (l ≫= f) ≤ n * length l.
Proof.
  intros Hf. induction l as [|x l IH]; [simpl; lia|].
  rewrite bind_cons, length_app. cbn [length]. rewrite Nat.mul_succ_r.
  specialize (Hf x). lia.
Qed.

(** X1. Sanitizing a sanitized text changes nothing. A text comes back
    unchanged exactly when it consists of printable ASCII only. The
    sanitized text has at most three code units for each code unit of the
    text, three being the length of the longest replacement (the one of the
    ellipsis). *)
Theorem sanitize_idempotent (text : list N) :
  sanitizeTextForPdf (sanitizeTextForPdf text) = sanitizeTextForPdf text
  ∧ (Forall printable text ↔ sanitizeTextForPdf text = text)
  ∧ length (sanitizeTextForPdf text) ≤ 3 * length text.
Proof.
  split; [apply sanitize_printable_id, sanitize_printable|]. split.
  - split; [apply sanitize_printable_id|]. intros <-. apply sanitize_printable.
  - unfold sanitizeTextForPdf.
    etrans; [apply (bind_length_le _ 3)|].
    { intros c. destruct (isKept c); [simpl; lia|apply replaceChar_length]. }
    pose proof (length_filter (fun c => isPrivateHigh c = false)
                  (filter (fun c => isControl c = false) text)).
    pose proof (length_filter (fun c => isControl c = false) text). lia.
Qed.

(** ** Splitting into lines *)

Lemma split_cons_inv sep c s :
  JS.split sep (c :: s)
  = if N.eqb c sep then [] :: JS.split sep s
    else match JS.split sep s with
         | l :: ls => (c :: l) :: ls
         | [] => [[c]]
         end.
Proof. done. Qed.

Lemma split_not_nil sep s : JS.split sep s ≠ [].
Proof.
  induction s as [|c s IH]; simpl; [done|].
  destruct (N.eqb c sep); [done|]. by destruct (JS.split sep s).
Qed.

Lemma joinWith_cons sep piece rest :
  rest ≠ [] → joinWith sep (piece :: rest) = piece ++ sep :: joinWith sep rest.
Proof. by destruct rest. Qed.

Lemma split_join sep s : joinWith sep (JS.split sep s) = s.
Proof.
  induction s as [|c s IH]; simpl; [done|].
  pose proof (split_not_nil sep s) as Hne.
  destruct (N.eqb_spec c sep) as [->|Hc].
  - rewrite joinWith_cons by done. simpl. by rewrite IH.
  - destruct (JS.split sep s) as [|l ls]; [done|].
    destruct ls as [|l' ls]; simpl in *; by rewrite <- IH.
Qed.

Lemma split_pieces sep s : Forall (fun piece => sep ∉ piece) (JS.split sep s).
Proof.
  induction s as [|c s IH]; simpl.
  { constructor; [by intros ?%elem_of_nil|done]. }
  destruct (N.eqb_spec c sep) as [->|Hc].
  - constructor; [by intros ?%elem_of_nil|done].
  - destruct (JS.split sep s) as [|l ls]; [repeat constructor; set_solver|].
    apply Forall_cons in IH as [Hl Hls]. constructor; [|done].
    intros [?|?]%elem_of_cons; done.
Qed.

Lemma split_length sep s :
  length (JS.split sep s) = S (length (filter (fun c => c = sep) s)).
Proof.
  induction s as [|c s IH]; simpl; [done|].
  rewrite filter_cons.
  destruct (N.eqb_spec c sep) as [->|Hc].
  - rewrite decide_True by done. simpl. by rewrite IH.
  - rewrite decide_False by done.
    destruct (JS.split sep s) as [|l ls]; simpl in *; [lia|done].
Qed.

(** X2. [s.split(sep)] loses nothing: the pieces joined with the
    separator are the string again, no piece holds the separator, and there
    is one piece more than the string has separators. The strategies split
    their text into lines this way. *)
Theorem split_round_trip (sep : N) (s : list N) :
  joinWith sep (JS.split sep s) = s
  ∧ Forall (fun piece => sep ∉ piece) (JS.split sep s)
  ∧ length (JS.split sep s) = S (length (filter (fun c => c = sep) s)).
Proof. split; [apply split_join|]. split; [apply split_pieces|apply split_length]. Qed.

(** ** Words and white-space runs *)

Lemma splitWs_concat s : ∀ cur inWs,
  concat (WordPdf.splitWs s cur inWs) = reverse cur ++ s.
Proof.
  induction s as [|c s IH]; intros cur inWs; simpl.
  - destruct inWs; simpl; by rewrite ?app_nil_r.
  - case_bool_decide.
    + rewrite IH, reverse_cons, <- app_assoc. done.
    + simpl. rewrite IH. done.
Qed.

Lemma splitWs_uniform s : ∀ cur inWs,
  Forall (fun c => JS.isWhiteSpace c = inWs) cur →
  Forall uniformToken (WordPdf.splitWs s cur inWs).
Proof.
  assert (∀ (cur : list N) b, Forall (fun c => JS.isWhiteSpace c = b) cur →
            uniformToken (reverse cur)) as Hrev.
  { intros cur b H. apply Forall_reverse in H. destruct b; [by left|by right]. }
  induction s as [|c s IH]; intros cur inWs Hcur; simpl.
  - destruct inWs.
    + constructor; [by eapply Hrev|]. constructor; [|done]. left. constructor.
    + constructor; [by eapply Hrev|done].
  - case_bool_decide as Hc.
    + apply IH. by constructor.
    + constructor; [by eapply Hrev|]. apply IH. constructor; [|done].
      destruct (JS.isWhiteSpace c), inWs; done.
Qed.

Lemma splitWs_not_nil s : ∀ cur inWs, WordPdf.splitWs s cur inWs ≠ [].
Proof.
  induction s as [|c s IH]; intros cur inWs; simpl; [by destruct inWs|].
  case_bool_decide; [apply IH|done].
Qed.

(** X3. [line.split(/(\s+)/)] loses nothing: the tokens put one after the
    other are the line again, every token is white space throughout or holds
    none, and there is at least one token, also for the empty line. *)
Theorem words_round_trip (line : list N) :
  concat (WordPdf.words line) = line
  ∧ Forall uniformToken (WordPdf.words line)
  ∧ WordPdf.words line ≠ [].
Proof.
  unfold WordPdf.words. split; [by rewrite splitWs_concat|].
  split; [apply splitWs_uniform; constructor|].
  apply splitWs_not_nil.
Qed.

(** ** Wrapping drops nothing but white space *)

Lemma nonWhiteSpace_trimStart s : nonWhiteSpace (JS.trimStart s) = nonWhiteSpace s.
Proof.
  unfold nonWhiteSpace. induction s as [|c s IH]; simpl; [done|].
  destruct (JS.isWhiteSpace c) eqn:E; [|done].
  rewrite filter_cons, decide_False; [done|]. by rewrite E.
Qed.

Lemma nonWhiteSpace_trimEnd s : nonWhiteSpace (JS.trimEnd s) = nonWhiteSpace s.
Proof.
  unfold JS.trimEnd, nonWhiteSpace. rewrite filter_reverse.
  fold (nonWhiteSpace (JS.trimStart (reverse s))). rewrite nonWhiteSpace_trimStart.
  unfold nonWhiteSpace. by rewrite filter_reverse, reverse_involutive.
Qed.

Lemma nonWhiteSpace_trim s : nonWhiteSpace (JS.trim s) = nonWhiteSpace s.
Proof. unfold JS.trim. by rewrite nonWhiteSpace_trimEnd, nonWhiteSpace_trimStart. Qed.

Lemma nonWhiteSpace_app s t : nonWhiteSpace (s ++ t) = nonWhiteSpace s ++ nonWhiteSpace t.
Proof. apply filter_app. Qed.

Lemma nonWhiteSpace_joinWith sep pieces :
  JS.isWhiteSpace sep = true →
  nonWhiteSpace (joinWith sep pieces) = nonWhiteSpace (concat pieces).
Proof.
  intros Hsep. induction pieces as [|piece rest IH]; [done|].
  destruct (decide (rest = [])) as [->|Hrest].
  - simpl. by rewrite app_nil_r.
  - rewrite joinWith_cons by done. cbn [concat].
    rewrite !nonWhiteSpace_app, <- IH. f_equal.
    unfold nonWhiteSpace at 1. rewrite filter_cons, decide_False; [done|]. by rewrite Hsep.
Qed.

Lemma nonWhiteSpace_bind (f : list N → list (list N)) pieces :
  (∀ piece, nonWhiteSpace (concat (f piece)) = nonWhiteSpace piece) →
  nonWhiteSpace (concat (pieces ≫= f)) = nonWhiteSpace (concat pieces).
Proof.
  intros Hf. induction pieces as [|piece rest IH]; [done|].
  rewrite bind_cons, concat_app. cbn [concat].
  by rewrite !nonWhiteSpace_app, IH, Hf.
Qed.

Lemma wrapLong_nonWhiteSpace n : ∀ remaining, length remaining ≤ n →
  nonWhiteSpace (concat (TextPdf.wrapLong remaining)) = nonWhiteSpace remaining.
Proof.
  induction n as [|n IH]; intros remaining Hn.
  - rewrite wrapLong_short by lia. case_decide as E; [by rewrite E|].
    simpl. by rewrite app_nil_r.
  - destruct (decide (80 < length remaining)) as [Hlong|Hshort].
    + rewrite wrapLong_long by done. cbn [concat].
      rewrite nonWhiteSpace_app, IH.
      * rewrite nonWhiteSpace_trim, <- nonWhiteSpace_app.
        unfold JS.substring_to, JS.substring_from. by rewrite take_drop.
      * pose proof (TextPdf.wrap_measure remaining Hlong). lia.
    + rewrite wrapLong_short by lia. case_decide as E; [by rewrite E|].
      simpl. by rewrite app_nil_r.
Qed.

Lemma textWrapLine_nonWhiteSpace line :
  nonWhiteSpace (concat (TextPdf.wrapLine line)) = nonWhiteSpace line.
Proof.
  unfold TextPdf.wrapLine.
  destruct (decide (length line ≤ TextPdf.maxCharsPerLine)).
  - simpl. by rewrite app_nil_r.
  - by eapply wrapLong_nonWhiteSpace.
Qed.

Lemma wrapWords_nonWhiteSpace fits ws : ∀ current,
  nonWhiteSpace (concat (WordPdf.wrapWords fits ws current).1
                 ++ (WordPdf.wrapWords fits ws current).2)
  = nonWhiteSpace (current ++ concat ws).
Proof.
  induction ws as [|word rest IH]; intros current; simpl; [by rewrite app_nil_r|].
  destruct (fits (current ++ word) || bool_decide (length current = 0)).
  - rewrite IH. by rewrite <- app_assoc.
  - specialize (IH (JS.trimStart word)).
    destruct (WordPdf.wrapWords fits rest (JS.trimStart word)) as [pushed final].
    simpl in *. rewrite <- app_assoc, nonWhiteSpace_app, IH.
    rewrite nonWhiteSpace_trimEnd, !nonWhiteSpace_app, nonWhiteSpace_trimStart. done.
Qed.

Lemma wordWrapLine_nonWhiteSpace fits line :
  nonWhiteSpace (concat (WordPdf.wrapLine fits line)) = nonWhiteSpace line.
Proof.
  unfold WordPdf.wrapLine.
  pose proof (wrapWords_nonWhiteSpace fits (WordPdf.words line) []) as H.
  destruct (WordPdf.wrapWords fits (WordPdf.words line) []) as [pushed final].
  simpl in H. rewrite concat_app. simpl. rewrite app_nil_r.
  rewrite nonWhiteSpace_app, nonWhiteSpace_trimEnd, <- nonWhiteSpace_app, H.
  unfold WordPdf.words. by rewrite splitWs_concat.
Qed.

(** The same lemmas for order and content: nothing is added. *)

Lemma trimStart_sublist s : JS.trimStart s `sublist_of` s.
Proof.
  induction s as [|c s IH]; simpl; [done|].
  destruct (JS.isWhiteSpace c); [by apply sublist_cons|done].
Qed.

Lemma trimEnd_sublist s : JS.trimEnd s `sublist_of` s.
Proof.
  unfold JS.trimEnd.
  assert (JS.trimStart (reverse s) `suffix_of` reverse s) as Hsuffix.
  { induction (reverse s) as [|c r IH]; simpl; [done|].
    destruct (JS.isWhiteSpace c); [by apply suffix_cons_r|done]. }
  apply suffix_prefix_reverse in Hsuffix. rewrite reverse_involutive in Hsuffix.
  remember (reverse (JS.trimStart (reverse s))) as t eqn:Ht. clear Ht.
  destruct Hsuffix as [k ->]. by apply sublist_inserts_r.
Qed.

Lemma trim_sublist s : JS.trim s `sublist_of` s.
Proof. unfold JS.trim. etrans; [apply trimEnd_sublist|apply trimStart_sublist]. Qed.

Lemma concat_joinWith_sublist sep pieces : concat pieces `sublist_of` joinWith sep pieces.
Proof.
  induction pieces as [|piece rest IH]; [done|].
  destruct (decide (rest = [])) as [->|Hrest].
  - simpl. by rewrite app_nil_r.
  - rewrite joinWith_cons by done. cbn [concat].
    apply sublist_app; [done|]. by apply sublist_cons.
Qed.

Lemma concat_bind_sublist (f : list N → list (list N)) pieces :
  (∀ piece, concat (f piece) `sublist_of` piece) →
  concat (pieces ≫= f) `sublist_of` concat pieces.
Proof.
  intros Hf. induction pieces as [|piece rest IH]; [done|].
  rewrite bind_cons, concat_app. cbn [concat]. by apply sublist_app.
Qed.

Lemma wrapLong_sublist n : ∀ remaining, length remaining ≤ n →
  concat (TextPdf.wrapLong remaining) `sublist_of` remaining.
Proof.
  induction n as [|n IH]; intros remaining Hn.
  - rewrite wrapLong_short by lia. case_decide as E; [by rewrite E|].
    simpl. by rewrite app_nil_r.
  - destruct (decide (80 < length remaining)) as [Hlong|Hshort].
    + rewrite wrapLong_long by done. cbn [concat].
      pose proof (TextPdf.wrap_measure remaining Hlong) as Hmeasure.
      remember (TextPdf.breakPoint remaining) as bp eqn:Hbp. clear Hbp.
      unfold JS.substring_to, JS.substring_from in *.
      assert (take bp remaining ++ drop bp remaining `sublist_of` remaining) as Hall
        by (by rewrite take_drop).
      etrans; [|exact Hall]. apply sublist_app; [done|].
      etrans; [apply IH; lia|apply trim_sublist].
    + rewrite wrapLong_short by lia. case_decide as E; [by rewrite E|].
      simpl. by rewrite app_nil_r.
Qed.

Lemma textWrapLine_sublist line : concat (TextPdf.wrapLine line) `sublist_of` line.
Proof.
  unfold TextPdf.wrapLine.
  destruct (decide (length line ≤ TextPdf.maxCharsPerLine)).
  - simpl. by rewrite app_nil_r.
  - by eapply wrapLong_sublist.
Qed.

Lemma wrapWords_sublist fits ws : ∀ current,
  concat (WordPdf.wrapWords fits ws current).1 ++ (WordPdf.wrapWords fits ws current).2
  `sublist_of` current ++ concat ws.
Proof.
  induction ws as [|word rest IH]; intros current; simpl; [by rewrite app_nil_r|].
  destruct (fits (current ++ word) || bool_decide (length current = 0)).
  - etrans; [apply IH|]. by rewrite <- app_assoc.
  - specialize (IH (JS.trimStart word)).
    destruct (WordPdf.wrapWords fits rest (JS.trimStart word)) as [pushed final].
    simpl in *. rewrite <- app_assoc.
    apply sublist_app; [apply trimEnd_sublist|].
    etrans; [apply IH|]. apply sublist_app; [apply trimStart_sublist|done].
Qed.

Lemma wordWrapLine_sublist fits line :
  concat (WordPdf.wrapLine fits line) `sublist_of` line.
Proof.
  unfold WordPdf.wrapLine.
  pose proof (wrapWords_sublist fits (WordPdf.words line) []) as H.
  destruct (WordPdf.wrapWords fits (WordPdf.words line) []) as [pushed final].
  simpl in H. rewrite concat_app. simpl. rewrite app_nil_r.
  unfold WordPdf.words in H. rewrite splitWs_concat in H. simpl in H.
  etrans; [|apply H]. apply sublist_app; [done|apply trimEnd_sublist].
Qed.

Lemma split_newline_sublist text : concat (JS.split JS.NEWLINE text) `sublist_of` text.
Proof. rewrite <- (split_join JS.NEWLINE text) at 2. apply concat_joinWith_sublist. Qed.

Lemma wordWrappedLines_sublist fits text :
  concat (WordPdf.wrappedLines fits text) `sublist_of` text.
Proof.
  unfold WordPdf.wrappedLines.
  etrans; [apply concat_bind_sublist, wordWrapLine_sublist|apply split_newline_sublist].
Qed.

(** X4. Wrapping takes out white space and nothing else, and adds
    nothing. For the 80-column wrapping of the text-to-PDF strategy and for
    the measured wrapping of the Word-to-PDF strategy, whatever widths the
    font reports: the characters of the wrapped lines, read in order, are
    characters of the text in the same order, and the characters that are
    not white space are those of the text, all of them and in their order. *)
Theorem wrapping_keeps_text (text : list N) :
  nonWhiteSpace (concat (TextPdf.wrappedLines text)) = nonWhiteSpace text
  ∧ concat (TextPdf.wrappedLines text) `sublist_of` text
  ∧ ∀ fits,
      nonWhiteSpace (concat (WordPdf.wrappedLines fits text)) = nonWhiteSpace text
      ∧ concat (WordPdf.wrappedLines fits text) `sublist_of` text.
Proof.
  assert (nonWhiteSpace (concat (JS.split JS.NEWLINE text)) = nonWhiteSpace text) as Hsplit.
  { rewrite <- (nonWhiteSpace_joinWith JS.NEWLINE) by done. by rewrite split_join. }
  split; [|split].
  - unfold TextPdf.wrappedLines.
    rewrite nonWhiteSpace_bind; [done|apply textWrapLine_nonWhiteSpace].
  - unfold TextPdf.wrappedLines.
    etrans; [apply concat_bind_sublist, textWrapLine_sublist|apply split_newline_sublist].
  - intros fits. split; [|apply wordWrappedLines_sublist].
    unfold WordPdf.wrappedLines.
    rewrite nonWhiteSpace_bind; [done|apply wordWrapLine_nonWhiteSpace].
Qed.

(** X5. Whatever the extracted text and whatever widths the font
    reports, every line the Word-to-PDF strategy hands to the PDF engine
    consists of printable ASCII only; in particular no line holds a newline
    or a tab. *)
Theorem word_pdf_draws_printable (fits : list N → bool) (text : list N) :
  Forall (Forall printable) (WordPdf.wrappedLines fits (sanitizeTextForPdf text))
  ∧ Forall (fun line => (JS.NEWLINE ∉ line) ∧ (JS.TAB ∉ line))
      (WordPdf.wrappedLines fits (sanitizeTextForPdf text)).
Proof.
  assert (Forall (Forall printable) (WordPdf.wrappedLines fits (sanitizeTextForPdf text)))
    as Hlines.
  { apply Forall_concat.
    pose proof (wordWrappedLines_sublist fits (sanitizeTextForPdf text)) as Hsub.
    apply sublist_subseteq in Hsub.
    pose proof (sanitize_printable text) as Hprintable.
    apply Forall_forall. intros c Hc. eapply Forall_forall in Hprintable; [done|].
    by apply Hsub. }
  split; [done|].
  eapply Forall_impl; [exact Hlines|]. intros line Hline. simpl.
  split; (apply printable_not_elem; [|done]); unfold printable, JS.NEWLINE, JS.TAB; lia.
Qed.

(** X6. The text-to-PDF layout keeps to the page. Every line is drawn
    above the bottom margin and at most one line height below the top
    margin, on a page whose index is at most that of the last line, the
    quotient of the number of lines less one by the number of lines of a
    page. Two lines drawn on the same page at the same height are the same
    line, so no line is printed over another. *)
Theorem layout_stays_on_the_page (text : list N) :
  (∀ i d, TextPdf.layout text !! i = Some d →
     (TextPdf.margin < TextPdf.dY d ≤ TextPdf.pageHeight - TextPdf.margin - TextPdf.lineHeight)%Z
     ∧ TextPdf.dPage d ≤ (length (TextPdf.wrappedLines text) - 1) / TextPdf.linesPerPage)
  ∧ (∀ i j d d', TextPdf.layout text !! i = Some d → TextPdf.layout text !! j = Some d' →
       TextPdf.dPage d = TextPdf.dPage d' → TextPdf.dY d = TextPdf.dY d' → i = j).
Proof.
  change TextPdf.linesPerPage with 38. change TextPdf.margin with 50%Z.
  change TextPdf.pageHeight with 792%Z. change TextPdf.lineHeight with 18%Z.
  split.
  - intros i d Hd.
    pose proof (lookup_lt_Some _ _ _ Hd) as Hlen.
    unfold TextPdf.layout in Hlen. rewrite drawLines_length in Hlen.
    apply drawLines_lookup in Hd as (H1 & _ & H3 & _); [|lia|done].
    cbn [Nat.add] in H1, H3. rewrite H1, H3.
    pose proof (Nat.mod_upper_bound i 38 ltac:(done)).
    split; [lia|]. apply Nat.Div0.div_le_mono. lia.
  - intros i j d d' Hd Hd' Hpage Hy.
    apply drawLines_lookup in Hd as (H1 & _ & H3 & _); [|lia|done].
    apply drawLines_lookup in Hd' as (H1' & _ & H3' & _); [|lia|done].
    cbn [Nat.add] in H1, H3, H1', H3'.
    pose proof (Nat.div_mod_eq i 38). pose proof (Nat.div_mod_eq j 38).
    assert (i / 38 = j / 38) by lia. assert (i mod 38 = j mod 38) by lia. lia.
Qed.

(** ** Target names and labels *)

Lemma toUpperCase_empty s : toUpperCase s = "" ↔ s = "".
Proof. by destruct s. Qed.

Lemma mimeMap_values mime f :
  mimeMap !! mime = Some f → f ∈ ["PNG"; "JPG"; "WEBP"; "TIFF"; "PDF"; "TXT"; "WORD"].
Proof.
  intros E. apply elem_of_list_to_map_2 in E.
  repeat (apply elem_of_cons in E as [E|E]; [inversion E; subst; set_solver|]).
  by apply elem_of_nil in E.
Qed.

(** X7. The request schema accepts a target exactly when it is the
    name of a format, written as the format is named; the file extension of
    a format and its name in lower case are both refused. Different
    formats have different file extensions. *)
Theorem target_names_exact (raw : option string) (f : SupportedFormat) :
  (safeParse raw = Some f ↔ raw = Some (formatName f))
  ∧ safeParse (Some (getExtensionFromFormat f)) = None
  ∧ safeParse (Some (toLowerCase (formatName f))) = None
  ∧ (∀ g, getExtensionFromFormat f = getExtensionFromFormat g → f = g).
Proof.
  split; [|split; [|split]].
  - split.
    + destruct raw as [s|]; [|done]. unfold safeParse. intros H.
      apply List.find_some in H as [_ H]. apply String.eqb_eq in H. by rewrite H.
    + intros ->. by destruct f.
  - by destruct f.
  - by destruct f.
  - intros g. by destruct f, g.
Qed.

(** X8. The upload page and the server label a content type from the same
    table. Their labels agree except for a content type that is not in the
    table and has nothing after its last slash, which the server labels
    UNKNOWN and the page FILE. Neither label is ever empty. What the
    handler treats as a PDF, as plain text or as a Word document is labelled
    PDF, TXT and WORD. *)
Theorem labels_agree (mime : string) :
  Client.mimeMap = mimeMap
  ∧ (Client.getFormatFromMime mime = getFormatFromMime mime
     ↔ ¬ (mimeMap !! mime = None ∧ lastSegment mime = ""))
  ∧ (mimeMap !! mime = None → lastSegment mime = "" →
     getFormatFromMime mime = "UNKNOWN" ∧ Client.getFormatFromMime mime = "FILE")
  ∧ getFormatFromMime mime ≠ ""
  ∧ Client.getFormatFromMime mime ≠ ""
  ∧ (classifySource mime = Pdf → getFormatFromMime mime = "PDF")
  ∧ (classifySource mime = PlainText → getFormatFromMime mime = "TXT")
  ∧ (classifySource mime = WordDocument → getFormatFromMime mime = "WORD").
Proof.
  assert (Client.mimeMap = mimeMap) as Hmap by reflexivity.
  split; [done|].
  assert ((classifySource mime = Pdf → getFormatFromMime mime = "PDF")
          ∧ (classifySource mime = PlainText → getFormatFromMime mime = "TXT")
          ∧ (classifySource mime = WordDocument → getFormatFromMime mime = "WORD"))
    as Hkinds.
  { unfold classifySource. mime_cases mime; rewrite ?Himage; repeat split; done. }
  revert Hkinds.
  unfold Client.getFormatFromMime, getFormatFromMime. rewrite Hmap.
  destruct (mimeMap !! mime) as [f|] eqn:E.
  - apply mimeMap_values in E. intros Hkinds.
    split; [split; [by intros _ [? _]|done]|]. split; [done|].
    assert (f ≠ "") by (intros ->; set_solver).
    done.
  - cbv zeta. case_bool_decide as Hseg; intros Hkinds.
    + apply (proj1 (toUpperCase_empty _)) in Hseg.
      split; [split; [done|intros H; exfalso; apply H; by split]|]. done.
    + split; [split; [intros _ [_ H]; by rewrite H in Hseg|done]|].
      split; [intros _ H; by rewrite H in Hseg|]. done.
Qed.


(** ** The remote strategy *)

(** X9. The remote strategy. Without a credential it raises
    [CloudConvert API key not configured] and touches nothing. With a
    credential, when the job and the write of the result both go through it
    returns having written the output path and nothing else. When it
    raises, no file was written or removed, the message is
    [CloudConvert conversion failed: ] followed by the message of the step
    that failed (the job, or else the write), and that message was logged. *)
Theorem remote_strategy_outcomes env i o a b w :
  let run := convertWithCloudConvert env i o a b w in
  (cloudConvert env = false → run = (Throw "CloudConvert API key not configured", w))
  ∧ (cloudConvert env = true →
     (cloudJob env i a b = None → writeError env o = None →
      run = (Ok (), World (files w ∪ {[o]}) (trace w ++ [EvWrite o])))
     ∧ ∀ e, run.1 = Throw e →
         files run.2 = files w
         ∧ ∃ cause,
             (cloudJob env i a b = Some cause
              ∨ (cloudJob env i a b = None ∧ writeError env o = Some cause))
             ∧ e = "CloudConvert conversion failed: " +:+ cause
             ∧ trace run.2 = trace w ++ [EvConsoleError ("CloudConvert error: " +:+ cause)]).
Proof.
  intros run. subst run. unfold convertWithCloudConvert.
  split; [by intros ->|]. intros ->. simpl.
  unfold try_catch, bind, external, writeFileSync.
  destruct (cloudJob env i a b) as [cause|]; simpl.
  - split; [done|]. intros e [= <-]. split; [done|]. exists cause. auto.
  - destruct (writeError env o) as [cause|]; simpl.
    + split; [done|]. intros e [= <-]. split; [done|]. exists cause. auto.
    + split; [done|]. by intros e.
Qed.

(** One remote attempt inside a chain: what it leaves behind. *)
Lemma remote_attempt env i o a b label w :
  ∃ failure w1,
    returnedOrLogged (attempt Remote (convertWithCloudConvert env i o a b)) label w
    = (Ok (bool_decide (failure = None)), w1)
    ∧ attempts (trace w1) = attempts (trace w) ++ [(Remote, failure)]
    ∧ (failure ≠ None → files w1 = files w)
    ∧ (failure = None → files w1 = files w ∪ {[o]}).
Proof.
  unfold returnedOrLogged, attempt, convertWithCloudConvert, try_catch, bind, external,
    writeFileSync.
  destruct (cloudConvert env); simpl.
  - destruct (cloudJob env i a b) as [cause|]; simpl.
    + eexists (Some _), _. split; [done|]. simpl.
      rewrite !attempts_snoc. simpl. by rewrite !app_nil_r.
    + destruct (writeError env o) as [cause|]; simpl.
      * eexists (Some _), _. split; [done|]. simpl.
        rewrite !attempts_snoc. simpl. by rewrite !app_nil_r.
      * eexists None, _. split; [done|]. simpl.
        rewrite !attempts_snoc. simpl. by rewrite !app_nil_r.
  - eexists (Some _), _. split; [done|]. simpl.
    rewrite !attempts_snoc. simpl. by rewrite !app_nil_r.
Qed.

(** ** Legacy Word documents *)

(** X10. A legacy Word document, one uploaded as
    [application/msword] or whose stored name ends in [.doc], is only ever
    converted remotely: the local Word-to-PDF strategy is not attempted.
    Without a credential the conversion raises the message that asks for
    .docx or a credential, and touches nothing. With a credential, a remote
    failure is only logged; the conversion raises that same message and no
    file was written. A conversion that returns has written the output. *)
Theorem legacy_doc_needs_remote env i o mime w :
  oldDoc mime i = true →
  let run := convertWordToPdf env i o mime w in
  (cloudConvert env = false → run = (Throw docGuardMessage, w))
  ∧ (∀ e, run.1 = Throw e → e = docGuardMessage ∧ files run.2 = files w)
  ∧ (run.1 = Ok () → cloudConvert env = true ∧ files run.2 = files w ∪ {[o]})
  ∧ ∃ new, attempts (trace run.2) = attempts (trace w) ++ new
           ∧ new.*1 = remoteFirst env [].
Proof.
  intros Hold run. subst run. unfold convertWordToPdf. cbv zeta.
  change (String.eqb mime "application/msword" || endsWith ".doc" (toLowerCase i))
    with (oldDoc mime i). rewrite Hold. unfold remoteFirst, bind.
  destruct (cloudConvert env) eqn:Hcc; simpl.
  - destruct (remote_attempt env i o "doc" "pdf"
                "CloudConvert failed, falling back to basic conversion:" w)
      as (failure & w1 & -> & Hattempts & Hfailed & Hok).
    split; [done|]. destruct failure as [msg|]; simpl.
    + split; [intros e [= <-]; auto|]. split; [done|]. by exists [(Remote, Some msg)].
    + split; [done|]. split; [auto|]. by exists [(Remote, None)].
  - split; [done|]. split; [by intros e [= <-]|]. split; [done|].
    exists []. by rewrite app_nil_r.
Qed.

Lemma legacy_doc_needs_remote_witness :
  oldDoc "application/msword" "/srv/app/uploads/17-letter.doc" = true
  ∧ convertWordToPdf quietEnv "/srv/app/uploads/17-letter.doc"
      "/srv/app/converted/1-letter-converted.pdf" "application/msword"
      (World {[ "/srv/app/uploads/17-letter.doc" ]} [])
    = (Throw docGuardMessage, World {[ "/srv/app/uploads/17-letter.doc" ]} []).
Proof.
  split; [reflexivity|].
  apply (legacy_doc_needs_remote quietEnv "/srv/app/uploads/17-letter.doc"
           "/srv/app/converted/1-letter-converted.pdf" "application/msword"
           (World {[ "/srv/app/uploads/17-letter.doc" ]} []) eq_refl).
  reflexivity.
Defined.

(** ** The temporary text file of the PDF-to-Word extraction *)

Lemma convertPdfToWordBasic_files env i o w :
  (i +:+ ".txt" ∉ files (convertPdfToWordBasic env i o w).2)
  ∧ (∀ e, (convertPdfToWordBasic env i o w).1 = Throw e →
       e = pdfToWordBasicMessage
       ∧ files (convertPdfToWordBasic env i o w).2 = files w ∖ {[i +:+ ".txt"]})
  ∧ ((convertPdfToWordBasic env i o w).1 = Ok () →
     files (convertPdfToWordBasic env i o w).2 = (files w ∪ {[o]}) ∖ {[i +:+ ".txt"]}).
Proof.
  unfold convertPdfToWordBasic, try_catch, bind, execAsync, toolWrite, readFile, external,
    writeFileSync, unlinkIfExists, bind, existsSync, unlinkSync, consoleError, emit, throw, ret.
  cbv zeta.
  destruct (pdftotextLayout env i) as [|message stderr]; simpl.
  - rewrite decide_True by set_solver.
    destruct (packerText env _) as [cause|]; simpl.
    + rewrite bool_decide_true by set_solver. rewrite decide_True by set_solver. simpl.
      split; [set_solver|]. split; [|done]. intros e [= <-]. split; [done|set_solver].
    + destruct (writeError env o) as [cause|]; simpl.
      * rewrite bool_decide_true by set_solver. rewrite decide_True by set_solver. simpl.
        split; [set_solver|]. split; [|done]. intros e [= <-]. split; [done|set_solver].
      * rewrite bool_decide_true by set_solver. rewrite decide_True by set_solver. simpl.
        split; [set_solver|]. split; [done|]. intros _. set_solver.
  - case_bool_decide as Hin; [rewrite decide_True by done|]; simpl.
    + split; [set_solver|]. split; [|done]. intros e [= <-]. split; [done|set_solver].
    + split; [done|]. split; [|done]. intros e [= <-]. split; [done|set_solver].
Qed.


(** X11. The text-extraction strategy for PDF to Word never leaves
    its temporary text file, the input path followed by [.txt], behind,
    whether it returns or raises. When it raises, the message is the fixed
    one of its catch block, and the files are those from before less the
    temporary file: no output was written. When it returns, the output path
    was added. It returns exactly when pdftotext, the document packer and
    the write of the output all go through. *)
Theorem pdf_to_word_basic_temp_file env i o w :
  let run := convertPdfToWordBasic env i o w in
  (i +:+ ".txt" ∉ files run.2)
  ∧ (∀ e, run.1 = Throw e →
       e = pdfToWordBasicMessage ∧ files run.2 = files w ∖ {[i +:+ ".txt"]})
  ∧ (run.1 = Ok () → files run.2 = (files w ∪ {[o]}) ∖ {[i +:+ ".txt"]})
  ∧ (run.1 = Ok () ↔
     pdftotextLayout env i = ExecOk
     ∧ packerText env (JS.split JS.NEWLINE (fileText env (i +:+ ".txt"))) = None
     ∧ writeError env o = None).
Proof.
  intros run. subst run.
  destruct (convertPdfToWordBasic_files env i o w) as (H1 & H2 & H3).
  split; [exact H1|]. split; [exact H2|]. split; [exact H3|].
  unfold convertPdfToWordBasic, try_catch, bind, execAsync, toolWrite, readFile, external,
    writeFileSync, unlinkIfExists, bind, existsSync, unlinkSync, consoleError, emit, throw, ret.
  cbv zeta.
  destruct (pdftotextLayout env i) as [|message stderr]; simpl.
  - rewrite decide_True by set_solver.
    destruct (packerText env _) as [cause|]; simpl.
    + rewrite bool_decide_true by set_solver. rewrite decide_True by set_solver. simpl.
      split; [done|]. by intros (_ & ? & _).
    + destruct (writeError env o) as [cause|]; simpl.
      * rewrite bool_decide_true by set_solver. rewrite decide_True by set_solver. simpl.
        split; [done|]. by intros (_ & _ & ?).
      * rewrite bool_decide_true by set_solver. rewrite decide_True by set_solver. done.
  - case_bool_decide as Hin; [rewrite decide_True by done|]; simpl;
      (split; [done|]; by intros (? & _)).
Qed.

(** ** The page image of the local PDF-to-image strategy *)

(** X12. The local PDF-to-image strategy without a credential, when
    pdf2pic has written the page image somewhere else than to the output
    path. A run that returns leaves the output and has removed the page
    image. For PNG and JPG the page image is renamed to the output, which
    always goes through. For WEBP and TIFF the run returns or raises as the
    re-encoding does. A run that raises leaves the page image behind: the
    files are those from before together with the page image. *)
Theorem rasterized_page_image env i o t w p :
  cloudConvert env = false →
  pdf2picPage env i 1 = Rendered p →
  p ≠ o →
  let run := convertPdfToImage env i o t w in
  (run.1 = Ok () → files run.2 = files w ∖ {[p]} ∪ {[o]})
  ∧ (t = PNG ∨ t = JPG → run.1 = Ok ())
  ∧ (∀ e, run.1 = Throw e → files run.2 = files w ∪ {[p]})
  ∧ (t = WEBP ∨ t = TIFF →
     run.1 = match sharpToFile env p t with None => Ok () | Some e => Throw e end).
Proof.
  intros Hcc Hpage Hpo run. subst run.
  unfold convertPdfToImage, bind, attempt. rewrite Hcc, Hpage. simpl.
  unfold renameSync, convertImage, toolWrite, bind, unlinkSync, throw.
  destruct t; simpl.
  1,2: rewrite decide_True by set_solver; simpl;
       split; [intros _; set_solver|]; split; [done|]; split; [done|];
       by intros [|].
  1,2: destruct (sharpToFile env p _) as [e|]; simpl;
       [ split; [done|]; split; [by intros [|]|]; split; [by intros ? _|done]
       | rewrite decide_True by set_solver; simpl;
         split; [intros _; set_solver|]; split; [by intros [|]|]; split; [done|done] ].
  all: split; [done|]; split; [by intros [|]|]; split; [by intros ? _|by intros [|]].
Qed.

Lemma rasterized_page_image_witness :
  cloudConvert quietEnv = false
  ∧ pdf2picPage quietEnv "/srv/app/uploads/17-scan" 1
    = Rendered "/srv/app/converted/temp-pdf-page.1.png"
  ∧ files (convertPdfToImage quietEnv "/srv/app/uploads/17-scan"
             "/srv/app/converted/1-scan-converted.webp" WEBP
             (World {[ "/srv/app/uploads/17-scan" ]} [])).2
    = {[ "/srv/app/uploads/17-scan" ]} ∖ {[ "/srv/app/converted/temp-pdf-page.1.png" ]}
      ∪ {[ "/srv/app/converted/1-scan-converted.webp" ]}.
Proof.
  split; [reflexivity|]. split; [reflexivity|].
  assert ("/srv/app/converted/temp-pdf-page.1.png"
          ≠ "/srv/app/converted/1-scan-converted.webp") as Hne by discriminate.
  destruct (rasterized_page_image quietEnv "/srv/app/uploads/17-scan"
              "/srv/app/converted/1-scan-converted.webp" WEBP
              (World {[ "/srv/app/uploads/17-scan" ]} [])
              "/srv/app/converted/temp-pdf-page.1.png" eq_refl eq_refl Hne) as [Hok _].
  apply Hok. vm_compute. reflexivity.
Defined.

(** ** The page loop of the snapshot strategy *)

(** The message with which the loop gives up on page [k]. *)
Lemma renderPages_first_failure env i k todo : ∀ page paths w,
  page ≤ k < page + todo →
  (∀ j, page ≤ j < k → ∃ p, pdf2picSnapshot env i j = Rendered p) →
  (∀ p, pdf2picSnapshot env i k ≠ Rendered p) →
  ∃ added,
    renderPages env i page todo paths w
    = (Ok (paths ++ added,
           Some (match pdf2picSnapshot env i k with
                 | RenderFailed msg => msg
                 | _ => "Failed to render page " +:+ pretty k
                 end)),
       World (files w ∪ list_to_set added) (trace w ++ (EvTool <$> added)))
    ∧ length added = k - page.
Proof.
  induction todo as [|todo IH]; intros page paths w Hk Hbefore Hfail; [lia|].
  simpl. unfold convertPage.
  destruct (decide (page = k)) as [->|Hne].
  - exists []. rewrite !app_nil_r. simpl. rewrite union_empty_r_L, world_eta.
    split; [|lia].
    destruct (pdf2picSnapshot env i k) as [p| |msg]; [by destruct (Hfail p)|done..].
  - destruct (Hbefore page) as [p Hp]; [lia|]. rewrite Hp.
    destruct (IH (S page) (paths ++ [p])
                (World (files w ∪ {[p]}) (trace w ++ [EvTool p])))
      as (added & -> & Hlen); [lia|intros j Hj; apply Hbefore; lia|done|].
    exists (p :: added). simpl. rewrite <- !app_assoc. simpl.
    split; [do 2 f_equal; set_solver|lia].
Qed.

(** X13. The page loop of the snapshot strategy stops at the
    first page that does not render. When the pages before page [k] render
    and page [k] does not, the strategy raises the message of pdf2pic if
    pdf2pic raised one, and [Failed to render page k] otherwise; it has
    written [k - 1] page images, one for each page before [k], has then
    only unlinked files, and none of the page images is left. *)
Theorem snapshot_stops_at_first_failure env i o w n k :
  pdfPageCount env i = Ok n →
  1 ≤ k ≤ n →
  (∀ j, 1 ≤ j < k → ∃ p, pdf2picSnapshot env i j = Rendered p) →
  (∀ p, pdf2picSnapshot env i k ≠ Rendered p) →
  ∃ added evs,
    convertPdfToWordSnapshot env i o w
    = (Throw (match pdf2picSnapshot env i k with
              | RenderFailed msg => msg
              | _ => "Failed to render page " +:+ pretty k
              end),
       World ((files w ∪ list_to_set added) ∖ list_to_set added)
             ((trace w ++ (EvTool <$> added)) ++ evs))
    ∧ length added = k - 1
    ∧ Forall isUnlink evs.
Proof.
  intros Hn Hk Hbefore Hfail.
  unfold convertPdfToWordSnapshot, getPdfPageCount, bind. rewrite Hn. simpl.
  rewrite bool_decide_false by lia.
  destruct (renderPages_first_failure env i k n 1 [] w) as (added & -> & Hlen);
    [lia|done..|].
  simpl. unfold try_finally, throw.
  destruct (cleanupImages_spec added
              (World (files w ∪ list_to_set added) (trace w ++ (EvTool <$> added))))
    as (evs & -> & Hevs & _).
  by exists added, evs.
Qed.

Lemma snapshot_stops_at_first_failure_witness :
  pdfPageCount secondPageFailsEnv "/srv/app/uploads/17-scan" = Ok 2
  ∧ (convertPdfToWordSnapshot secondPageFailsEnv "/srv/app/uploads/17-scan"
       "/srv/app/converted/1-scan-converted.docx"
       (World {[ "/srv/app/uploads/17-scan" ]} [])).1
    = Throw "Failed to render page 2".
Proof.
  split; [reflexivity|].
  edestruct (snapshot_stops_at_first_failure secondPageFailsEnv
               "/srv/app/uploads/17-scan" "/srv/app/converted/1-scan-converted.docx"
               (World {[ "/srv/app/uploads/17-scan" ]} []) 2 2 eq_refl)
    as (added & evs & Hrun & _).
  - lia.
  - intros j Hj. assert (j = 1) as -> by lia. by eexists.
  - intros p. discriminate.
  - rewrite Hrun. reflexivity.
Defined.

(** ** Every row follows its chain *)

Section QuietRows.

Context (env : Env).

Lemma quiet_convertImage i o t : preserves quiet (convertImage env i o t).
Proof. unfold convertImage. preserves_go. Qed.

Lemma quiet_convertPdfToText i o : preserves quiet (convertPdfToText env i o).
Proof. unfold convertPdfToText. preserves_go. Qed.

Lemma quiet_convertTextToPdf i o : preserves quiet (convertTextToPdf env i o).
Proof. unfold convertTextToPdf. preserves_go. Qed.

Lemma quiet_rasterize i o t :
  preserves quiet
    (let! result := convertPage (pdf2picPage env i 1) in
     match result with
     | Some resultPath =>
         if bool_decide (t = PNG) || bool_decide (t = JPG)
         then renameSync resultPath o
         else
           run! convertImage env resultPath o t in
           unlinkSync resultPath
     | None => throw "Failed to convert PDF to image"
     end).
Proof. pose proof quiet_convertImage. preserves_go. Qed.

Lemma quiet_imageToPdf i o :
  preserves quiet
    (run! readFile i in
     run! external (pdfLibImage env i) in
     writeFileSync env o).
Proof. preserves_go. Qed.

End QuietRows.

Lemma chainRun_prefix chain new : chainRun chain new → new.*1 `prefix_of` chain.
Proof.
  induction 1 as [s chain|s msg|s msg chain rest Hne Hrun IH]; simpl.
  - by exists chain.
  - done.
  - by apply prefix_cons.
Qed.

Lemma chainRun_failed_before_last chain new :
  chainRun chain new →
  ∀ i a, new !! i = Some a → S i < length new → failedAttempt a.
Proof.
  induction 1 as [s chain|s msg|s msg chain rest Hne Hrun IH]; intros i a Hi Hlen.
  - simpl in Hlen. destruct i; simpl in *; [lia|done].
  - simpl in Hlen. destruct i; simpl in *; [lia|done].
  - destruct i as [|i]; simpl in *.
    + injection Hi as <-. done.
    + apply (IH i); [done|lia].
Qed.

Lemma chainOutcome_follows chain w r w' : chainOutcome chain w r w' → follows chain w r w'.
Proof.
  intros (new & Hnew & Hrun & Hlast & Hall). exists new.
  split; [done|]. split; [by apply chainRun_prefix|].
  split; [by apply chainRun_failed_before_last with chain|]. split; [|done].
  intros Hr a Ha. rewrite Ha, Hr in Hlast. simpl in Hlast. congruence.
Qed.

Lemma quiet_follows (m : M unit) w : preserves quiet m → follows [] w (m w).1 (m w).2.
Proof.
  intros Hm. exists []. rewrite app_nil_r. split; [apply Hm|].
  split; [done|]. split; [by intros i a|]. split; [by intros _ a|done].
Qed.

Lemma remote_then_local env s (m local : M unit) label w :
  preserves quiet m → preserves quiet local →
  follows (remoteFirst env [s]) w
    ((let! returned :=
        if cloudConvert env then returnedOrLogged (attempt Remote m) label
        else ret false in
      if (returned : bool) then ret () else attempt s local) w).1
    ((let! returned :=
        if cloudConvert env then returnedOrLogged (attempt Remote m) label
        else ret false in
      if (returned : bool) then ret () else attempt s local) w).2.
Proof.
  intros Hm Hlocal. apply chainOutcome_follows. unfold remoteFirst.
  destruct (cloudConvert env); simpl.
  - apply (chain_cons Remote m label (attempt s local) [s] w Hm); [done|].
    intros w1. by apply chain_last.
  - by apply chain_last.
Qed.

Section Rows.

Context (env : Env).

Lemma follows_convertImageToPdf i o w :
  follows (remoteFirst env [LocalImageToPdf]) w
    (convertImageToPdf env i o w).1 (convertImageToPdf env i o w).2.
Proof.
  apply remote_then_local; [apply quiet_convertWithCloudConvert|apply quiet_imageToPdf].
Qed.

Lemma follows_convertPdfToImage i o t w :
  follows (remoteFirst env [LocalRasterize]) w
    (convertPdfToImage env i o t w).1 (convertPdfToImage env i o t w).2.
Proof.
  apply remote_then_local; [apply quiet_convertWithCloudConvert|apply quiet_rasterize].
Qed.

Lemma follows_convertPdfToWord i o w :
  follows (remoteFirst env [PdfToWordSnapshot; PdfToWordBasic]) w
    (convertPdfToWord env i o w).1 (convertPdfToWord env i o w).2.
Proof. apply chainOutcome_follows, convertPdfToWord_outcome. Qed.

Lemma follows_convertWordToPdf i o mime w :
  follows (remoteFirst env (if oldDoc mime i then [] else [WordToPdfBasic])) w
    (convertWordToPdf env i o mime w).1 (convertWordToPdf env i o mime w).2.
Proof.
  unfold convertWordToPdf. cbv zeta.
  change (String.eqb mime "application/msword" || endsWith ".doc" (toLowerCase i))
    with (oldDoc mime i).
  destruct (oldDoc mime i).
  - unfold remoteFirst, bind. destruct (cloudConvert env); simpl.
    + destruct (remote_attempt env i o "doc" "pdf"
                  "CloudConvert failed, falling back to basic conversion:" w)
        as (failure & w1 & -> & Hattempts & _).
      exists [(Remote, failure)]. split; [by destruct failure|].
      split; [done|]. split; [intros [|[|?]] a; simpl; intros; lia|].
      destruct failure as [msg|]; simpl; split; try done.
      by intros _ a [= <-].
    + exists []. rewrite app_nil_r. split; [done|]. split; [done|].
      split; [by intros i0 a|]. split; [by intros _ a|done].
  - apply remote_then_local;
      [apply quiet_convertWithCloudConvert|apply quiet_convertWordToPdfBasic].
Qed.

(** The cascade of the handler, by source kind and target. *)
Lemma selectConversion_rows file target :
  selectConversion env file target
  = let input := path file in
    let output := outputPathOf env file target in
    match classifySource (mimetype file), target with
    | Image, (PNG | JPG | WEBP | TIFF) => Some (convertImage env input output target)
    | Image, PDF => Some (convertImageToPdf env input output)
    | Pdf, (PNG | JPG | WEBP | TIFF) => Some (convertPdfToImage env input output target)
    | Pdf, TXT => Some (convertPdfToText env input output)
    | Pdf, WORD => Some (convertPdfToWord env input output)
    | WordDocument, PDF => Some (convertWordToPdf env input output (mimetype file))
    | WordDocument, WORD => Some (copyFileSync env input output)
    | PlainText, PDF => Some (convertTextToPdf env input output)
    | PlainText, TXT => Some (copyFileSync env input output)
    | _, _ => None
    end.
Proof.
  unfold selectConversion, classifySource. destruct file as [p mime name]. cbn [mimetype path].
  cbv zeta.
  destruct target; mime_cases mime; try reflexivity;
    rewrite ?Hpdf, ?Hword, ?Htext, ?Himage; reflexivity.
Qed.

End Rows.



(** ** The message of a failed document conversion *)

Lemma raises_fallback (P : string → Prop) s (m : M unit) label (rest : M unit) :
  preserves quiet m →
  (∀ w e, (rest w).1 = Throw e → P e) →
  ∀ w e,
    (bind (returnedOrLogged (attempt s m) label)
          (fun returned : bool => if returned then ret () else rest) w).1 = Throw e →
    P e.
Proof.
  intros Hm Hrest w e. unfold bind.
  destruct (returnedOrLogged_attempt s m label w Hm) as (f & w1 & -> & _).
  destruct (bool_decide _); [done|apply Hrest].
Qed.

(** X15. The messages of failed document conversions are fixed ones:
    no message of an engine reaches the caller. PDF to Word only raises the
    message of its last strategy. Word to PDF raises the message that asks
    for .docx or a credential when the document is a legacy one, and the
    message of its local strategy otherwise. PDF to text raises the
    corrupted-file message when pdftotext reports a syntax error on its
    error stream, and the no-readable-text message otherwise. *)
Theorem document_failures_are_fixed env i o mime w e :
  ((convertPdfToWord env i o w).1 = Throw e → e = pdfToWordBasicMessage)
  ∧ ((convertWordToPdf env i o mime w).1 = Throw e →
     e = if oldDoc mime i then docGuardMessage else wordToPdfBasicMessage)
  ∧ ((convertPdfToText env i o w).1 = Throw e →
     e = match pdftotext env i with
         | ExecFailed _ (Some stderr) =>
             if includes "Syntax Error" stderr
             then "The PDF file appears to be corrupted or invalid. Please try a different PDF file."
             else "Failed to extract text from PDF. Please ensure the PDF contains readable text."
         | _ => "Failed to extract text from PDF. Please ensure the PDF contains readable text."
         end).
Proof.
  assert (∀ w1 e1, (attempt PdfToWordBasic (convertPdfToWordBasic env i o) w1).1 = Throw e1
                   → e1 = pdfToWordBasicMessage) as Hbasic.
  { intros w1 e1. rewrite attempt_result. apply convertPdfToWordBasic_raises. }
  assert (∀ w1 e1, (attempt WordToPdfBasic (convertWordToPdfBasic env i o) w1).1 = Throw e1
                   → e1 = wordToPdfBasicMessage) as Hword.
  { intros w1 e1. rewrite attempt_result. apply convertWordToPdfBasic_raises. }
  split; [|split].
  - unfold convertPdfToWord.
    pose proof (raises_fallback (fun e => e = pdfToWordBasicMessage) PdfToWordSnapshot
                  (convertPdfToWordSnapshot env i o) "PDF snapshot-to-WORD fallback failed:"
                  (attempt PdfToWordBasic (convertPdfToWordBasic env i o))
                  (quiet_convertPdfToWordSnapshot env i o) Hbasic) as Hlocal.
    destruct (cloudConvert env).
    + apply (raises_fallback (fun e => e = pdfToWordBasicMessage) Remote _ _ _
               (quiet_convertWithCloudConvert env i o "pdf" "docx") Hlocal).
    + apply Hlocal.
  - unfold convertWordToPdf. cbv zeta.
    change (String.eqb mime "application/msword" || endsWith ".doc" (toLowerCase i))
      with (oldDoc mime i).
    destruct (cloudConvert env).
    + apply (raises_fallback
               (fun e => e = if oldDoc mime i then docGuardMessage else wordToPdfBasicMessage)
               Remote _ _ _ (quiet_convertWithCloudConvert env i o _ "pdf")).
      intros w1 e1. destruct (oldDoc mime i); [by intros [= <-]|apply Hword].
    + unfold bind. simpl. destruct (oldDoc mime i); [by intros [= <-]|apply Hword].
  - unfold convertPdfToText, toolWrite, throw.
    destruct (pdftotext env i) as [|message [stderr|]]; simpl; [done| |by intros [= <-]].
    destruct (String.eqb_spec stderr "") as [->|_]; simpl; [by intros [= <-]|].
    destruct (includes "Syntax Error" stderr); by intros [= <-].
Qed.

(** ** A failed request leaves no output *)

#[local] Instance noNew_preorder out : PreOrder (noNew out).
Proof. split; [by intros w ?|]. intros w1 w2 w3 H1 H2 H. by apply H1, H2. Qed.

Lemma noNew_emit out e : preserves (noNew out) (emit e).
Proof. intros w H. exact H. Qed.

Lemma noNew_consoleError out msg : preserves (noNew out) (consoleError msg).
Proof. apply noNew_emit. Qed.

Lemma noNew_attempt {A} out s (m : M A) :
  preserves (noNew out) m → preserves (noNew out) (attempt s m).
Proof. intros Hm w. unfold attempt. specialize (Hm w). destruct (m w). exact Hm. Qed.

Lemma noNew_toolWrite out o p : p ≠ out → preserves (noNew out) (toolWrite o p).
Proof.
  intros Hp. destruct o; [apply preserves_throw, _|]. intros w. unfold noNew. simpl.
  set_solver.
Qed.

Lemma noNew_unlinkSync out p : preserves (noNew out) (unlinkSync p).
Proof.
  intros w. unfold unlinkSync, noNew. case_decide; simpl; set_solver.
Qed.

Lemma noNew_unlinkIfExists out p : preserves (noNew out) (unlinkIfExists p).
Proof.
  apply preserves_bind; [apply _|apply preserves_existsSync, _|].
  intros []; [apply noNew_unlinkSync|apply preserves_ret, _].
Qed.

Lemma noNew_convertPage out r : r ≠ Rendered out → preserves (noNew out) (convertPage r).
Proof.
  intros Hr. destruct r as [p| |msg]; [|apply preserves_ret, _|apply preserves_throw, _].
  intros w. unfold noNew. simpl. set_solver.
Qed.

Lemma noNew_cleanupImages out paths : preserves (noNew out) (cleanupImages paths).
Proof.
  intros w. destruct (cleanupImages_spec paths w) as (evs & -> & _).
  unfold noNew. simpl. set_solver.
Qed.

Lemma noNew_readImages env out paths : preserves (noNew out) (readImages env paths).
Proof. intros w. rewrite readImages_world. by intros ?. Qed.

#[local] Hint Resolve noNew_consoleError noNew_unlinkSync noNew_unlinkIfExists
  noNew_cleanupImages noNew_readImages : presv.

Section CleanFailure.

Context (out : string).

Lemma clean_throw {A} msg : cleanFailure out (@throw A msg).
Proof. by intros w e Hout _. Qed.

Lemma clean_ret {A} (a : A) : cleanFailure out (ret a).
Proof. by intros w e Hout. Qed.

Lemma clean_noNew {A} (m : M A) : preserves (noNew out) m → cleanFailure out m.
Proof. intros Hm w e Hout _ Hin. by apply Hout, Hm. Qed.

Lemma clean_bind {A B} (m : M A) (f : A → M B) :
  preserves (noNew out) m → (∀ a, cleanFailure out (f a)) → cleanFailure out (bind m f).
Proof.
  intros Hm Hf w e Hout. unfold bind. specialize (Hm w).
  destruct (m w) as [[a|e'] w1]; simpl in *.
  - apply Hf. intros Hin. by apply Hout, Hm.
  - intros _ Hin. by apply Hout, Hm.
Qed.

Lemma clean_try_catch {A} (m : M A) h :
  cleanFailure out m → (∀ e, preserves (noNew out) (h e)) →
  cleanFailure out (try_catch m h).
Proof.
  intros Hm Hh w e Hout. unfold try_catch. specialize (Hm w).
  destruct (m w) as [[a|e'] w1]; simpl in *; [done|].
  intros _ Hin. apply (Hm e' Hout eq_refl). by apply (Hh e' w1).
Qed.

Lemma clean_try_finally {A} (m : M A) fin :
  cleanFailure out m → preserves (noNew out) fin → (∀ w, (fin w).1 = Ok ()) →
  cleanFailure out (try_finally m fin).
Proof.
  intros Hm Hfin Hok w e Hout. unfold try_finally. specialize (Hm w).
  destruct (m w) as [r w1]; simpl in *.
  specialize (Hfin w1). specialize (Hok w1).
  destruct (fin w1) as [[[]|e'] w2]; simpl in *; [|done].
  intros -> Hin. apply (Hm e Hout eq_refl). by apply Hfin.
Qed.

Lemma clean_attempt {A} s (m : M A) : cleanFailure out m → cleanFailure out (attempt s m).
Proof.
  intros Hm w e Hout. unfold attempt. specialize (Hm w).
  destruct (m w) as [r w1]; simpl in *. apply Hm. done.
Qed.

Lemma clean_fallback (b : bool) s (m : M unit) label (rest : M unit) :
  cleanFailure out m → cleanFailure out rest →
  cleanFailure out
    (let! returned := if b then returnedOrLogged (attempt s m) label else ret false in
     if (returned : bool) then ret () else rest).
Proof.
  intros Hm Hrest. destruct b; [|apply Hrest].
  intros w e Hout.
  unfold bind, returnedOrLogged, try_catch, bind, attempt, consoleError, emit.
  specialize (Hm w). destruct (m w) as [[[]|e'] w1]; simpl in *; [done|].
  apply Hrest. simpl. by apply (Hm e').
Qed.

Context (env : Env).

Lemma clean_writeFileSync : cleanFailure out (writeFileSync env out).
Proof.
  intros w e Hout. unfold writeFileSync. by destruct (writeError env out).
Qed.

Lemma clean_copyFileSync src : cleanFailure out (copyFileSync env src out).
Proof.
  intros w e Hout. unfold copyFileSync. case_decide; [|done].
  by destruct (copyError env src out).
Qed.

Lemma clean_convertImage i t : cleanFailure out (convertImage env i out t).
Proof.
  intros w e Hout. unfold convertImage, toolWrite.
  destruct t; try done; by destruct (sharpToFile env i _).
Qed.

Lemma clean_convertWithCloudConvert i a b :
  cleanFailure out (convertWithCloudConvert env i out a b).
Proof.
  unfold convertWithCloudConvert. destruct (cloudConvert env); [|apply clean_throw].
  simpl. apply clean_try_catch.
  - apply clean_bind; [apply preserves_external, _|]. intros _. apply clean_writeFileSync.
  - intros e. preserves_go.
Qed.

Lemma clean_convertPdfToText i : cleanFailure out (convertPdfToText env i out).
Proof.
  intros w e Hout. unfold convertPdfToText, toolWrite, throw.
  destruct (pdftotext env i) as [|message stderr]; [done|]. by case_match.
Qed.

Lemma clean_convertTextToPdf i : cleanFailure out (convertTextToPdf env i out).
Proof.
  unfold convertTextToPdf.
  apply clean_bind; [apply preserves_readFile, _|]. intros _.
  apply clean_bind; [apply preserves_external, _|]. intros _. apply clean_writeFileSync.
Qed.

Lemma clean_convertImageToPdf i : cleanFailure out (convertImageToPdf env i out).
Proof.
  unfold convertImageToPdf. apply clean_fallback.
  - apply clean_convertWithCloudConvert.
  - apply clean_attempt.
    apply clean_bind; [apply preserves_readFile, _|]. intros _.
    apply clean_bind; [apply preserves_external, _|]. intros _. apply clean_writeFileSync.
Qed.

Lemma clean_convertPdfToImage i t :
  (∀ n, pdf2picPage env i n ≠ Rendered out) →
  cleanFailure out (convertPdfToImage env i out t).
Proof.
  intros Havoid. unfold convertPdfToImage. apply clean_fallback.
  - apply clean_convertWithCloudConvert.
  - apply clean_attempt. specialize (Havoid 1). intros w e Hout.
    unfold bind, convertPage.
    destruct (pdf2picPage env i 1) as [p| |msg]; simpl; [|done..].
    assert (p ≠ out) by congruence.
    destruct (bool_decide (t = PNG) || bool_decide (t = JPG)).
    + unfold renameSync. simpl. rewrite decide_True by set_solver. done.
    + unfold bind, convertImage, toolWrite, unlinkSync, throw.
      destruct t; simpl; try (intros _; set_solver).
      all: destruct (sharpToFile env p _) as [cause|]; simpl;
           [intros _; set_solver|rewrite decide_True by set_solver; done].
Qed.

Lemma clean_convertPdfToWordBasic i : cleanFailure out (convertPdfToWordBasic env i out).
Proof.
  intros w e Hout Hr.
  destruct (convertPdfToWordBasic_files env i out w) as (_ & Hfail & _).
  destruct (Hfail e Hr) as [_ ->]. set_solver.
Qed.

Lemma noNew_renderPages i todo page paths :
  (∀ n, pdf2picSnapshot env i n ≠ Rendered out) →
  preserves (noNew out) (renderPages env i page todo paths).
Proof.
  intros Havoid w.
  destruct (renderPages_spec env i todo page paths w) as (added & pending & -> & Hadded).
  assert (out ∉ added) as Hnot.
  { intros Hin. eapply Forall_forall in Hadded as [n' Hn']; [|done]. by eapply Havoid. }
  unfold noNew. simpl. set_solver.
Qed.

Lemma clean_convertPdfToWordSnapshot i :
  (∀ n, pdf2picSnapshot env i n ≠ Rendered out) →
  cleanFailure out (convertPdfToWordSnapshot env i out).
Proof.
  intros Havoid. unfold convertPdfToWordSnapshot, getPdfPageCount.
  apply clean_bind.
  { destruct (pdfPageCount env i); [apply preserves_ret, _|apply preserves_throw, _]. }
  intros n. case_bool_decide; [apply clean_throw|].
  apply clean_bind; [by apply noNew_renderPages|]. intros [paths pending].
  apply clean_try_finally.
  - destruct pending; [apply clean_throw|].
    apply clean_bind; [apply noNew_readImages|]. intros _.
    apply clean_bind; [apply preserves_external, _|]. intros _. apply clean_writeFileSync.
  - apply noNew_cleanupImages.
  - intros w. destruct (cleanupImages_spec paths w) as (evs & -> & _). done.
Qed.

Lemma clean_convertPdfToWord i :
  (∀ n, pdf2picSnapshot env i n ≠ Rendered out) →
  cleanFailure out (convertPdfToWord env i out).
Proof.
  intros Havoid. unfold convertPdfToWord.
  apply clean_fallback; [apply clean_convertWithCloudConvert|].
  apply (clean_fallback true); [by apply clean_convertPdfToWordSnapshot|].
  apply clean_attempt, clean_convertPdfToWordBasic.
Qed.

Lemma clean_convertWordToPdfBasic i : cleanFailure out (convertWordToPdfBasic env i out).
Proof.
  unfold convertWordToPdfBasic. apply clean_try_catch; [|intros e; preserves_go].
  apply clean_bind.
  { destruct (mammothText env i); [apply preserves_ret, _|apply preserves_throw, _]. }
  intros text. destruct (_ || _); [apply clean_throw|].
  apply clean_bind; [apply preserves_external, _|]. intros _. apply clean_writeFileSync.
Qed.

Lemma clean_convertWordToPdf i mime : cleanFailure out (convertWordToPdf env i out mime).
Proof.
  unfold convertWordToPdf. cbv zeta.
  apply clean_fallback; [apply clean_convertWithCloudConvert|].
  destruct (_ || _); [apply clean_throw|].
  apply clean_attempt, clean_convertWordToPdfBasic.
Qed.

End CleanFailure.

Lemma clean_selectConversion env file target conversion :
  selectConversion env file target = Some conversion →
  toolsAvoid env (path file) (outputPathOf env file target) →
  cleanFailure (outputPathOf env file target) conversion.
Proof.
  intros Hsel [Hpage Hsnap]. unfold selectConversion in Hsel.
  repeat case_match; try discriminate; injection Hsel as <-;
    eauto using clean_convertImage, clean_convertImageToPdf, clean_convertPdfToImage,
      clean_convertPdfToText, clean_convertPdfToWord, clean_convertWordToPdf,
      clean_copyFileSync, clean_convertTextToPdf.
Qed.



(** ** Requests that are turned down *)

Lemma enoent_not_empty call p : enoent call p ≠ "".
Proof. unfold enoent. cbv [String.append]. discriminate. Qed.

Lemma convertCatch_answer req e w :
  ∃ w', convertCatch req e w
        = (Ok (500, failed (if bool_decide (e = "") then defaultErrorMessage else e)
                      None None), w')
        ∧ files w' = match req_file req with
                     | Some file => files w ∖ {[path file]}
                     | None => files w
                     end.
Proof.
  unfold convertCatch, bind, consoleError, emit. simpl.
  destruct (req_file req) as [file|]; simpl; [|by eexists].
  unfold unlinkIfExists, bind, existsSync, unlinkSync. simpl.
  case_bool_decide; [rewrite decide_True by done|]; simpl; eexists; split; try done.
  simpl. set_solver.
Qed.

(** X17. Requests that are turned down. A request without a body, one that
    is not multipart, raises when its target is read: the answer is 500 with
    the message of that error, which is logged, and nothing else happens. A
    multipart request without a file is answered 400 with the no-file
    message, whatever its target, and nothing is touched. With a file and
    an invalid target the upload is unlinked and the answer is 400 with the
    list of formats; with a target for which no conversion is selected the
    upload is unlinked and the answer is 400 with the not-supported message;
    in both cases nothing else happens. When the upload is missing the
    unlink raises, and the answer to an invalid target is 500 with the
    message of the unlink. Whatever the request, the status is 200 with a
    success and 400 or 500 with a failure. *)
Theorem rejected_requests env req w :
  (req = NotMultipart →
   convertRoute env req w
   = (Ok (500, failed (if bool_decide (typeErrorMessage env = "")
                       then defaultErrorMessage else typeErrorMessage env) None None),
      World (files w)
        (trace w ++ [EvConsoleError ("Conversion error: " +:+ typeErrorMessage env)])))
  ∧ (∀ raw, req = Req None raw →
     convertRoute env req w = (Ok (400, failed noFileMessage None None), w))
  ∧ (∀ file, req_file req = Some file → safeParse (req_targetFormat req) = None →
     convertRoute env req w
     = if decide (path file ∈ files w)
       then (Ok (400, failed invalidTargetMessage None None),
             World (files w ∖ {[path file]}) (trace w ++ [EvUnlink (path file)]))
       else (Ok (500, failed (enoent "unlink" (path file)) None None),
             World (files w)
               (trace w ++ [EvConsoleError
                              ("Conversion error: " +:+ enoent "unlink" (path file))])))
  ∧ (∀ file target, req_file req = Some file →
     safeParse (req_targetFormat req) = Some target →
     selectConversion env file target = None → path file ∈ files w →
     convertRoute env req w
     = (Ok (400, failed (unsupportedMessage (mimetype file) target)
                   (Some (getFormatFromMime (mimetype file))) (Some (formatName target))),
        World (files w ∖ {[path file]}) (trace w ++ [EvUnlink (path file)])))
  ∧ (∀ status resp, (convertRoute env req w).1 = Ok (status, resp) →
     (status = 200 ∧ success resp = true)
     ∨ ((status = 400 ∨ status = 500) ∧ success resp = false)).
Proof.
  split; [|split; [|split; [|split]]].
  - by intros ->.
  - by intros raw ->.
  - intros file Hfile Hparse. destruct req as [|[f|] raw]; try discriminate.
    simpl in Hfile, Hparse. injection Hfile as ->.
    unfold convertRoute, try_catch, convertBody.
    rewrite Hparse. unfold bind, unlinkSync. case_decide as Hin; simpl; [done|].
    unfold convertCatch, bind, consoleError, emit, unlinkIfExists, bind, existsSync.
    simpl. rewrite bool_decide_false by done. simpl.
    done.
  - intros file target Hfile Hparse Hsel Hin. destruct req as [|[f|] raw]; try discriminate.
    simpl in Hfile, Hparse. injection Hfile as ->.
    unfold convertRoute, try_catch, convertBody.
    rewrite Hparse, Hsel. unfold bind, unlinkSync. by rewrite decide_True.
  - intros status resp.
    assert (∀ e w1 status resp, (convertCatch req e w1).1 = Ok (status, resp) →
              status = 500 ∧ success resp = false) as Hcatch.
    { intros e w1 st rs. destruct (convertCatch_answer req e w1) as (w' & -> & _).
      by intros [= <- <-]. }
    assert (∀ p (msg : string) o1 o2 w1 status resp,
      (match bind (unlinkSync p) (fun _ => ret (400, failed msg o1 o2)) w1 with
       | (Ok a, w') => (Ok a, w')
       | (Throw e, w') => convertCatch req e w'
       end).1 = Ok (status, resp) →
      (status = 400 ∨ status = 500) ∧ success resp = false) as Hfail.
    { intros p msg o1 o2 w1 st rs. unfold bind, unlinkSync. case_decide; simpl.
      - intros [= <- <-]. auto.
      - intros [-> ?]%Hcatch. auto. }
    unfold convertRoute, try_catch.
    destruct req as [|[file|] raw]; unfold convertBody.
    + unfold throw. intros [-> ?]%Hcatch. auto.
    + destruct (safeParse raw) as [target|]; [|intros H%Hfail; auto].
      destruct (selectConversion env file target) as [conversion|];
        [|intros H%Hfail; auto].
      unfold bind. destruct (conversion w) as [[[]|e] w1]; simpl.
      * unfold unlinkSync. case_decide; simpl.
        -- intros [= <- <-]. auto.
        -- intros [-> ?]%Hcatch. auto.
      * intros [-> ?]%Hcatch. auto.
    + intros [= <- <-]. auto.
Qed.
(** ** The download route *)

Lemma pretty_N_char_digit x : isDigit (pretty_N_char x) = true.
Proof. unfold pretty_N_char. by repeat case_match. Qed.

Lemma pretty_N_go_digits x : ∀ s,
  ∃ d, pretty_N_go x s = d +:+ s ∧ allDigits d = true ∧ ((0 < x)%N → d ≠ "").
Proof.
  induction (N.lt_wf_0 x) as [x _ IH]; intros s.
  assert (x = 0 ∨ 0 < x)%N as [->|Hx] by lia.
  - exists "". rewrite pretty_N_go_0. split; [done|]. split; [done|lia].
  - rewrite pretty_N_go_step by done.
    destruct (IH (x `div` 10)%N (N.div_lt x 10 Hx eq_refl)
                (String (pretty_N_char (x `mod` 10)) s)) as (d & -> & Hd & _).
    exists (d +:+ String (pretty_N_char (x `mod` 10)) "").
    split; [by rewrite append_assoc|]. split.
    + clear -Hd. induction d as [|c d IHd]; simpl in *.
      * by rewrite pretty_N_char_digit.
      * apply andb_true_iff in Hd as [-> Hd]. by apply IHd.
    + intros _. by destruct d.
Qed.

Lemma pretty_N_digits (n : N) : allDigits (pretty n) = true ∧ pretty n ≠ "".
Proof.
  unfold pretty, pretty_N. case_decide as Hn; [done|].
  destruct (pretty_N_go_digits n "") as (d & -> & Hd & Hne).
  rewrite append_nil_r. split; [done|]. apply Hne. lia.
Qed.

Lemma afterDigits_hyphen d rest :
  allDigits d = true → afterDigits (d +:+ String "-" rest) = String "-" rest.
Proof.
  induction d as [|c d IH]; [done|]. simpl.
  intros [-> Hd]%andb_true_iff. by apply IH.
Qed.

Lemma stripTimestamp_prefixed d rest :
  allDigits d = true → d ≠ "" → stripTimestamp (d +:+ "-" +:+ rest) = rest.
Proof.
  intros Hd Hne. unfold stripTimestamp.
  change (d +:+ "-" +:+ rest) with (d +:+ String "-" rest).
  rewrite afterDigits_hyphen by done.
  destruct d as [|c d]; [done|]. simpl in *.
  apply andb_true_iff in Hd as [-> _]. done.
Qed.

(** ** [path.join] behind a normal directory *)

Lemma segments_not_nil p : Path.segments p ≠ [].
Proof.
  destruct p as [|c p]; [done|]. simpl.
  destruct (Ascii.eqb c "/"); [done|]. by destruct (Path.segments p).
Qed.

Lemma segments_app_slash a b :
  Path.segments (a +:+ String "/" b) = Path.segments a ++ Path.segments b.
Proof.
  induction a as [|c a IH]; [done|].
  change (String c a +:+ String "/" b) with (String c (a +:+ String "/" b)).
  cbn [Path.segments]. rewrite IH.
  destruct (Ascii.eqb c "/"); [done|].
  pose proof (segments_not_nil a). by destruct (Path.segments a).
Qed.

Lemma segments_noSlash name : noSlash name = true → Path.segments name = [name].
Proof.
  induction name as [|c name IH]; [done|]. cbn [noSlash Path.segments].
  intros [Hc Hrest]%andb_true_iff. apply negb_true_iff in Hc. rewrite Hc.
  by rewrite IH.
Qed.

Lemma keep_plain b kept name : plainName name → Path.keep b kept name = name :: kept.
Proof.
  intros (_ & H1 & H2 & H3). unfold Path.keep.
  apply String.eqb_neq in H1, H2, H3. by rewrite H1, H2, H3.
Qed.

Lemma reverse_not_nil {A} (l : list A) : l ≠ [] → reverse l ≠ [].
Proof.
  intros Hl H. apply Hl. apply (f_equal reverse) in H.
  by rewrite reverse_involutive in H.
Qed.

Lemma join_snoc l x : l ≠ [] → join "/" (l ++ [x]) = join "/" l +:+ "/" +:+ x.
Proof.
  induction l as [|y l IH]; [done|]. intros _.
  destruct l as [|z l]; [done|].
  change (join "/" ((y :: z :: l) ++ [x])) with (y +:+ "/" +:+ join "/" ((z :: l) ++ [x])).
  rewrite IH by done.
  change (join "/" (y :: z :: l)) with (y +:+ "/" +:+ join "/" (z :: l)).
  by rewrite !append_assoc.
Qed.

Lemma join_snoc_not_empty l x : x ≠ "" → join "/" (l ++ [x]) ≠ "".
Proof.
  intros Hx. destruct l as [|y l]; [done|].
  rewrite join_snoc by done. apply append_not_empty.
  cbv [String.append]. discriminate.
Qed.

Lemma isAbsolute_app a b : Path.isAbsolute a = true → Path.isAbsolute (a +:+ b) = true.
Proof. by destruct a. Qed.

Lemma trailingSeparator_app a b :
  b ≠ "" → Path.trailingSeparator (a +:+ b) = Path.trailingSeparator b.
Proof.
  intros Hb. induction a as [|c a IH]; [done|].
  change (String c a +:+ b) with (String c (a +:+ b)). cbn [Path.trailingSeparator].
  destruct (a +:+ b) eqn:E; [|done].
  destruct a; [|discriminate]. by destruct b.
Qed.

Lemma trailingSeparator_noSlash name :
  noSlash name = true → Path.trailingSeparator name = false.
Proof.
  induction name as [|c name IH]; [done|]. cbn [noSlash Path.trailingSeparator].
  intros [Hc Hrest]%andb_true_iff. apply negb_true_iff in Hc.
  destruct name; [done|]. by apply IH.
Qed.

(** What [normalizeString] has kept of a normal directory. *)
Lemma normalDir_kept dir :
  normalDir dir →
  foldl (Path.keep false) [] (Path.segments dir) ≠ []
  ∧ dir = "/" +:+ join "/" (reverse (foldl (Path.keep false) [] (Path.segments dir))).
Proof.
  intros (Habs & Htrail & Hnorm). unfold Path.normalize, Path.normalizeString in Hnorm.
  rewrite Habs, Htrail in Hnorm. simpl negb in Hnorm.
  remember (foldl (Path.keep false) [] (Path.segments dir)) as kept eqn:Hkept.
  clear Hkept.
  assert (String.eqb dir "" = false) as Hd by (by destruct dir).
  rewrite Hd in Hnorm. revert Hnorm.
  destruct (String.eqb_spec (join "/" (reverse kept)) "") as [Hempty|Hfull]; intros Hnorm.
  - rewrite <- Hnorm in Htrail. by vm_compute in Htrail.
  - split; [by intros ->|]. by rewrite append_nil_r in Hnorm.
Qed.

(** An absolute path whose kept segments end with a segment that is not
    empty. *)
Lemma normalize_kept p kept last :
  Path.isAbsolute p = true → p ≠ "" → last ≠ "" →
  foldl (Path.keep false) [] (Path.segments p) = last :: kept →
  Path.normalize p
  = "/" +:+ join "/" (reverse kept ++ [last])
    +:+ (if Path.trailingSeparator p then "/" else "").
Proof.
  intros Habs Hp Hlast Hkept. unfold Path.normalize, Path.normalizeString.
  rewrite Habs. simpl negb. rewrite Hkept, reverse_cons.
  apply String.eqb_neq in Hp. rewrite Hp.
  pose proof (join_snoc_not_empty (reverse kept) last Hlast) as Hne.
  apply String.eqb_neq in Hne. by rewrite Hne.
Qed.

Lemma normalize_plain dir name :
  normalDir dir → plainName name →
  Path.normalize (dir +:+ "/" +:+ name) = dir +:+ "/" +:+ name.
Proof.
  intros Hdir Hname. destruct (normalDir_kept dir Hdir) as [Hkept Heq].
  destruct Hdir as (Habs & Htrail & Hnorm).
  pose proof Hname as (Hslash & Hne & _).
  rewrite (normalize_kept _ (foldl (Path.keep false) [] (Path.segments dir)) name).
  - rewrite trailingSeparator_app by (cbv [String.append]; discriminate).
    assert (Path.trailingSeparator ("/" +:+ name) = false) as ->.
    { change ("/" +:+ name) with (String "/" name).
      destruct name; [done|]. cbn [Path.trailingSeparator].
      by apply (trailingSeparator_noSlash (String a name)). }
    rewrite append_nil_r, join_snoc by (by apply reverse_not_nil).
    rewrite <- !append_assoc. rewrite <- Heq. by rewrite append_assoc.
  - by apply isAbsolute_app.
  - destruct dir; [done|]. discriminate.
  - done.
  - change (dir +:+ "/" +:+ name) with (dir +:+ String "/" name).
    rewrite segments_app_slash, (segments_noSlash name) by done.
    rewrite foldl_app. simpl. by apply keep_plain.
Qed.

Lemma normalDir_plain dir name :
  normalDir dir → plainName name → normalDir (dir +:+ "/" +:+ name).
Proof.
  intros Hdir Hname. split; [|split].
  - apply isAbsolute_app, Hdir.
  - rewrite trailingSeparator_app by (cbv [String.append]; discriminate).
    destruct Hname as (Hslash & Hne & _).
    change ("/" +:+ name) with (String "/" name).
    destruct name; [done|]. cbn [Path.trailingSeparator].
    by apply (trailingSeparator_noSlash (String a name)).
  - by apply normalize_plain.
Qed.

Lemma join_plain dir name :
  normalDir dir → plainName name → Path.join dir name = pathJoin dir name.
Proof.
  intros Hdir Hname. unfold Path.join, pathJoin.
  assert (dir ≠ "") as Hd by (destruct Hdir as [? _]; by destruct dir).
  destruct Hname as (Hslash & Hne & Hrest).
  apply String.eqb_neq in Hd. rewrite Hd.
  assert (String.eqb name "" = false) as -> by (by apply String.eqb_neq).
  by apply normalize_plain.
Qed.

Lemma plainName_converted : plainName "converted" ∧ plainName "uploads".
Proof. by repeat split. Qed.

Lemma normalDir_convertedDir env : normalDir (cwd env) → normalDir (convertedDir env).
Proof. intros H. apply (normalDir_plain _ "converted" H), plainName_converted. Qed.

Lemma noSlash_app a b : noSlash (a +:+ b) = noSlash a && noSlash b.
Proof.
  induction a as [|c a IH]; [done|].
  change (String c a +:+ b) with (String c (a +:+ b)). cbn [noSlash].
  by rewrite IH, andb_assoc.
Qed.

Lemma allDigits_noSlash d : allDigits d = true → noSlash d = true.
Proof.
  induction d as [|c d IH]; [done|]. cbn [allDigits noSlash].
  intros [Hc Hd]%andb_true_iff. rewrite IH by done. rewrite andb_true_r.
  apply negb_true_iff. destruct (Ascii.eqb_spec c "/") as [->|]; done.
Qed.

Lemma plainName_outputBasename env file target :
  noSlash (pathParseName env (originalname file)) = true →
  plainName (outputBasename env file target).
Proof.
  intros Hname. unfold outputBasename, outputFilenameOf.
  destruct (pretty_N_digits (now env)) as [Hd Hne].
  split; [|split; [|split]].
  - rewrite !noSlash_app, Hname, (allDigits_noSlash _ Hd). by destruct target.
  - by destruct (pretty (now env)).
  - destruct (pretty (now env)) as [|c d]; [done|]. simpl in Hd.
    apply andb_true_iff in Hd as [Hc _]. intros [= -> _]. done.
  - destruct (pretty (now env)) as [|c d]; [done|]. simpl in Hd.
    apply andb_true_iff in Hd as [Hc _]. intros [= -> _]. done.
Qed.

(** ** Downloads *)

Lemma downloadRoute_found env filename w :
  Path.join (convertedDir env) filename ∈ files w →
  downloadRoute env filename w
  = (Ok (Download (Path.join (convertedDir env) filename) (stripTimestamp filename)), w).
Proof.
  intros Hin. unfold downloadRoute, bind, existsSync. simpl.
  by rewrite bool_decide_true.
Qed.

Lemma downloadRoute_missing env filename w :
  Path.join (convertedDir env) filename ∉ files w →
  downloadRoute env filename w = (Ok (NotFound 404 notFoundMessage), w).
Proof.
  intros Hin. unfold downloadRoute, bind, existsSync. simpl.
  by rewrite bool_decide_false.
Qed.

(** What the timer of a completed download does, whenever it runs. *)
Lemma unlinkIfExists_spec p w :
  (unlinkIfExists p w).1 = Ok () ∧ files (unlinkIfExists p w).2 = files w ∖ {[p]}.
Proof.
  unfold unlinkIfExists, bind, existsSync, unlinkSync. simpl.
  case_bool_decide; [rewrite decide_True by done|]; simpl; split; try done.
  set_solver.
Qed.



(** X19. The download route looks its file up where [path.join] puts it,
    which for a name that climbs out of the converted directory is
    elsewhere. With a working directory that is an absolute path in normal
    form, the name [../uploads/] followed by the name of a stored upload is
    joined to the path of that upload: when the upload is there the route
    sends it, under that whole name, and a transfer that goes through
    schedules the upload to be unlinked, after which it is gone. *)
Theorem download_reaches_uploads env name w :
  normalDir (cwd env) →
  plainName name →
  Path.join (convertedDir env) ("../uploads/" +:+ name) = pathJoin (uploadsDir env) name
  ∧ (pathJoin (uploadsDir env) name ∈ files w →
     downloadRoute env ("../uploads/" +:+ name) w
     = (Ok (Download (pathJoin (uploadsDir env) name) ("../uploads/" +:+ name)), w))
  ∧ ∃ expiry,
      downloadCallback (pathJoin (uploadsDir env) name) None = Some expiry
      ∧ ∀ later, pathJoin (uploadsDir env) name ∉ files (expiry later).2.
Proof.
  intros Hcwd Hname.
  assert (Path.join (convertedDir env) ("../uploads/" +:+ name)
          = pathJoin (uploadsDir env) name) as Hjoin.
  { destruct (normalDir_kept (cwd env) Hcwd) as [Hkept Heq].
    pose proof Hname as (Hslash & Hne & _).
    unfold Path.join, convertedDir, pathJoin, uploadsDir.
    assert (String.eqb (cwd env +:+ "/converted") "" = false) as ->.
    { apply String.eqb_neq, append_not_empty. discriminate. }
    change (String.eqb ("../uploads/" +:+ name) "") with false. cbv iota.
    rewrite (normalize_kept _
               ("uploads" :: foldl (Path.keep false) [] (Path.segments (cwd env))) name).
    - rewrite !trailingSeparator_app by (cbv [String.append]; discriminate).
      assert (Path.trailingSeparator ("../uploads/" +:+ name) = false) as ->.
      { change ("../uploads/" +:+ name) with (".." +:+ "/uploads" +:+ String "/" name).
        rewrite !trailingSeparator_app by (cbv [String.append]; discriminate).
        destruct name; [done|]. cbn [Path.trailingSeparator].
        by apply (trailingSeparator_noSlash (String a name)). }
      rewrite append_nil_r, reverse_cons.
      rewrite join_snoc by (intros H; by destruct (reverse _)).
      rewrite join_snoc by (by apply reverse_not_nil).
      rewrite <- !append_assoc. rewrite <- Heq. by rewrite !append_assoc.
    - rewrite append_assoc. apply isAbsolute_app, Hcwd.
    - apply append_not_empty. cbv [String.append]. discriminate.
    - done.
    - change ((cwd env +:+ "/converted") +:+ "/" +:+ "../uploads/" +:+ name)
        with ((cwd env +:+ String "/" "converted")
              +:+ String "/" (".." +:+ String "/" ("uploads" +:+ String "/" name))).
      rewrite !segments_app_slash, (segments_noSlash name) by done.
      rewrite !foldl_app. simpl. by apply keep_plain. }
  split; [exact Hjoin|]. split.
  - intros Hin. rewrite downloadRoute_found by (by rewrite Hjoin).
    rewrite Hjoin. done.
  - eexists. split; [done|]. intros later.
    destruct (unlinkIfExists_spec (pathJoin (uploadsDir env) name) later) as [_ ->].
    set_solver.
Qed.

Lemma download_reaches_uploads_witness :
  normalDir (cwd quietEnv)
  ∧ plainName "17-notes"
  ∧ downloadRoute quietEnv "../uploads/17-notes" (worldWith (uploadOf "notes" "text/plain"))
    = (Ok (Download "/srv/app/uploads/17-notes" "../uploads/17-notes"),
       worldWith (uploadOf "notes" "text/plain")).
Proof.
  assert (normalDir (cwd quietEnv)) as Hcwd by (by repeat split).
  assert (plainName "17-notes") as Hname by (by repeat split).
  split; [exact Hcwd|]. split; [exact Hname|].
  destruct (download_reaches_uploads quietEnv "17-notes"
              (worldWith (uploadOf "notes" "text/plain")) Hcwd Hname) as (_ & Hserve & _).
  apply Hserve. unfold worldWith. simpl. by apply elem_of_singleton_2.
Defined.
